(** * claude-code-manager: discovery and mutation engine

  A shallow embedding of the services of the extension:

  - [Permissions]: [PermissionsService.parsePermissionPattern];
  - [Js]: the JSON values the settings files hold, with the JavaScript
    property reads, truthiness and assignments the services perform on
    them;
  - [Hooks]: the document-level part of [HooksService] ([parseHooks],
    [addHook], [updateHook], [deleteHook]);
  - [Fs]: the file system the services run against, as an error and
    state monad over a map from paths to nodes;
  - [FileOps]: [FileOperationsService];
  - [HooksFs]: [HooksService] on the file system;
  - [Discovery]: [FileDiscoveryService.discoverMemories];
  - [Shapes]: the predicates the properties are stated with;
  - [Examples]: concrete settings documents and file trees;
  - [PermissionsFs]: [PermissionsService] on the file system
    ([parsePermissions], [discoverPermissions]);
  - [Listing]: the directory walks of [FileDiscoveryService]
    ([getFilesInDirectory], [getFilesAndDirsInDirectory]) and the
    discovery of commands, skills, sub-agents and MCP servers;
  - [HooksTree], [PermissionsTree]: the root of the hooks view and of
    the permissions view ([getChildren] of the two tree providers);
  - [HookShapes], [PermissionShapes], [ListingShapes], [TreeShapes],
    [PermissionTreeShapes]: further predicates, and [MoreExamples]:
    further examples.

  Definitions come first; the properties follow in the modules whose
  names end in [Facts] and [Claims], and their instances on the
  examples in [Instances] and [MoreInstances]. *)

From Stdlib Require Import ZArith NArith Ascii String.
From stdpp Require Import gmap strings list fin_maps pretty.

Local Open Scope string_scope.
Local Open Scope list_scope.
#[local] Set Warnings "-register-all".

(* ===================================================================== *)
(** ** Permission patterns *)
(* ===================================================================== *)

Module Permissions.

(** A JavaScript string is a sequence of UTF-16 code units. *)
Abbreviation jsstring := (list N).

Definition js (s : string) : jsstring :=
  map N_of_ascii (list_ascii_of_string s).

Definition LPAREN : N := 40.
Definition RPAREN : N := 41.
Definition STAR : N := 42.
Definition COLON : N := 58.

(** [\w]: one of [A-Za-z0-9_]. *)
Definition is_word (c : N) : bool :=
  ((65 <=? c) && (c <=? 90) || (97 <=? c) && (c <=? 122)
   || (48 <=? c) && (c <=? 57) || (c =? 95))%N.

(** [.] matches every code unit but the four line terminators
    LF, CR, U+2028 and U+2029 (the pattern has no [s] flag). *)
Definition is_line_terminator (c : N) : bool :=
  ((c =? 10) || (c =? 13) || (c =? 8232) || (c =? 8233))%N.

(** [[\(:]] *)
Definition is_delim (c : N) : bool := ((c =? LPAREN) || (c =? COLON))%N.

(** The choices of the greedy [(\w+)] at the start of the input, in the
    order a backtracking matcher tries them: every non-empty prefix made
    of word characters, longest first, each with the rest of the input. *)
Fixpoint word_prefixes (s : jsstring) : list (jsstring * jsstring) :=
  match s with
  | [] => []
  | c :: s' =>
      if is_word c
      then map (fun wr => (c :: fst wr, snd wr)) (word_prefixes s') ++ [([c], s')]
      else []
  end.

(** [[\)]?$]: the greedy optional parenthesis followed by the end of the
    input succeeds exactly on [")"] and on the empty rest. *)
Definition at_end (r : jsstring) : bool :=
  match r with
  | [] => true
  | [c] => (c =? RPAREN)%N
  | _ => false
  end.

(** [(.*?)[\)]?$]: the lazy group takes as few characters as possible;
    at each position the end is tried first, and only when it fails one
    more character is consumed by the dot. *)
Fixpoint lazy_group (r : jsstring) : option jsstring :=
  if at_end r then Some []
  else match r with
       | [] => None
       | c :: r' =>
           if is_line_terminator c then None
           else option_map (cons c) (lazy_group r')
       end.

(** The remainder of the pattern after a choice of the first group. *)
Definition after_word (wr : jsstring * jsstring) : option (jsstring * jsstring) :=
  match snd wr with
  | d :: r =>
      if is_delim d then option_map (pair (fst wr)) (lazy_group r) else None
  | [] => None
  end.

Fixpoint first_success (cands : list (jsstring * jsstring))
  : option (jsstring * jsstring) :=
  match cands with
  | [] => None
  | wr :: rest =>
      match after_word wr with
      | Some m => Some m
      | None => first_success rest
      end
  end.

(** [pattern.match(/^(\w+)[\(:](.*?)[\)]?$/)]: the two captured groups,
    or [None] for [null]. *)
Definition regex_match (pattern : jsstring) : option (jsstring * jsstring) :=
  first_success (word_prefixes pattern).

Record ParsedPattern := { tool : jsstring; pattern : jsstring }.

(** [match[2] || '*'] *)
Definition or_star (g : jsstring) : jsstring :=
  match g with
  | [] => [STAR]
  | _ => g
  end.

Definition parsePermissionPattern (p : jsstring) : ParsedPattern :=
  match regex_match p with
  | Some (g1, g2) => {| tool := g1; pattern := or_star g2 |}
  | None => {| tool := p; pattern := [STAR] |}
  end.

End Permissions.

(* ===================================================================== *)
(** ** JSON documents and the JavaScript operations on them *)
(* ===================================================================== *)

Module Js.

(** The values [JSON.parse] returns. The members of an object are kept
    in enumeration order and carry distinct keys; numbers are
    restricted to integers. *)
Inductive json :=
| JNull
| JBool (b : bool)
| JNum (n : Z)
| JStr (s : string)
| JArr (items : list json)
| JObj (members : list (string * json)).

(** A JavaScript value read back from a document: [None] is
    [undefined]. *)
Abbreviation value := (option json).

Inductive error :=
| TypeError
| SyntaxError
| SystemError (code : string).

Inductive result (A : Type) :=
| Ok (a : A)
| Throw (e : error).
Arguments Ok {A} a.
Arguments Throw {A} e.

#[export] Instance result_ret : MRet result := fun _ a => Ok a.
#[export] Instance result_bind : MBind result := fun _ _ f m =>
  match m with
  | Ok a => f a
  | Throw e => Throw e
  end.

Fixpoint assoc (k : string) (l : list (string * json)) : value :=
  match l with
  | [] => None
  | (k', v) :: l' => if String.eqb k k' then Some v else assoc k l'
  end.

(** [o[k] = v] on the members of an object: an existing member keeps
    its place, a new one goes last. *)
Fixpoint set_assoc (k : string) (v : json) (l : list (string * json))
  : list (string * json) :=
  match l with
  | [] => [(k, v)]
  | (k', v') :: l' =>
      if String.eqb k k' then (k, v) :: l' else (k', v') :: set_assoc k v l'
  end.

(** [delete o[k]] *)
Fixpoint del_assoc (k : string) (l : list (string * json))
  : list (string * json) :=
  match l with
  | [] => []
  | (k', v') :: l' =>
      if String.eqb k k' then del_assoc k l' else (k', v') :: del_assoc k l'
  end.

(** [!!v] *)
Definition truthy (v : value) : bool :=
  match v with
  | None | Some JNull | Some (JBool false) | Some (JNum 0) | Some (JStr EmptyString) => false
  | Some _ => true
  end.

(** [typeof v === 'object'] *)
Definition typeof_object (v : value) : bool :=
  match v with
  | Some JNull | Some (JArr _) | Some (JObj _) => true
  | _ => false
  end.

(** [Array.isArray(v)] *)
Definition isArray (v : value) : bool :=
  match v with
  | Some (JArr _) => true
  | _ => false
  end.

(** [v.k] for a property name [k] that is neither an array index nor a
    built-in property ([hooks], [matcher], the names of the event
    types): reading through [null] or [undefined] throws, an object
    gives its member, anything else has no such property. *)
Definition get_key (v : value) (k : string) : result value :=
  match v with
  | None | Some JNull => Throw TypeError
  | Some (JObj ms) => Ok (assoc k ms)
  | Some _ => Ok None
  end.

(** [v[i]] for a number [i]: an array gives its element, an object the
    member named by the decimal form of [i], a string its character. *)
Definition get_idx (v : value) (i : nat) : result value :=
  match v with
  | None | Some JNull => Throw TypeError
  | Some (JArr l) => Ok (l !! i)
  | Some (JObj ms) => Ok (assoc (pretty i) ms)
  | Some (JStr s) =>
      Ok (option_map (fun c => JStr (String c EmptyString)) (String.get i s))
  | Some _ => Ok None
  end.

(** [v.length] *)
Definition get_length (v : json) : value :=
  match v with
  | JArr l => Some (JNum (Z.of_nat (length l)))
  | JStr s => Some (JNum (Z.of_nat (String.length s)))
  | JObj ms => assoc "length" ms
  | _ => None
  end.

(** [v.length === 0] *)
Definition length_is_zero (v : json) : bool :=
  match get_length v with
  | Some (JNum 0) => true
  | _ => false
  end.

(** The receiver of an [Array.prototype] method ([find], [push],
    [splice]): parsed JSON has no functions of its own, so only an array
    has these methods, and calling them on anything else throws. *)
Definition array_items (v : value) : result (list json) :=
  match v with
  | Some (JArr l) => Ok l
  | _ => Throw TypeError
  end.

(** Whether a property of [target] can be assigned. The services are
    modules, hence strict code: assigning a property of a primitive
    throws, like assigning through [null]. *)
Definition assignable (target : json) : result unit :=
  match target with
  | JObj _ | JArr _ => Ok tt
  | _ => Throw TypeError
  end.

(** The document after [target.k = v]. An array accepts a named
    property in memory, but [JSON.stringify] writes the elements of an
    array only: such a property never reaches the file. *)
Definition store_key (target : json) (k : string) (v : json) : json :=
  match target with
  | JObj ms => JObj (set_assoc k v ms)
  | _ => target
  end.

(** The document after [target[i] = v]; past the end an array grows,
    the holes reading as [null] once written. *)
Definition store_idx (target : json) (i : nat) (v : json) : json :=
  match target with
  | JArr l =>
      if decide (i < length l) then JArr (<[i:=v]> l)
      else JArr (l ++ replicate (i - length l) JNull ++ [v])
  | JObj ms => JObj (set_assoc (pretty i) v ms)
  | _ => target
  end.

(** [target[i] = v] in strict code: a string's characters are
    read-only. *)
Definition assign_idx (target : value) (i : nat) (v : json) : result json :=
  match target with
  | Some (JArr l) => Ok (store_idx (JArr l) i v)
  | Some (JObj ms) => Ok (store_idx (JObj ms) i v)
  | _ => Throw TypeError
  end.

(** [delete target[k]] *)
Definition delete_key (target : json) (k : string) : json :=
  match target with
  | JObj ms => JObj (del_assoc k ms)
  | _ => target
  end.

(** [Object.entries(v)] for a value with [typeof v === 'object']. *)
Definition object_entries (v : json) : list (string * json) :=
  match v with
  | JObj ms => ms
  | JArr l => imap (fun i x => (pretty i, x)) l
  | _ => []
  end.

End Js.

(* ===================================================================== *)
(** ** Hooks in a settings document *)
(* ===================================================================== *)

Module Hooks.
Import Js.

Inductive HookEventType :=
| PreToolUse | PostToolUse | PermissionRequest | Notification
| UserPromptSubmit | Stop | SubagentStop | SessionStart | SessionEnd
| PreCompact.

Definition event_name (ev : HookEventType) : string :=
  match ev with
  | PreToolUse => "PreToolUse"
  | PostToolUse => "PostToolUse"
  | PermissionRequest => "PermissionRequest"
  | Notification => "Notification"
  | UserPromptSubmit => "UserPromptSubmit"
  | Stop => "Stop"
  | SubagentStop => "SubagentStop"
  | SessionStart => "SessionStart"
  | SessionEnd => "SessionEnd"
  | PreCompact => "PreCompact"
  end.

Inductive HookType := command_type | prompt_type.

Definition type_name (t : HookType) : string :=
  match t with
  | command_type => "command"
  | prompt_type => "prompt"
  end.

Record Hook := {
  type : HookType;
  command : option string;
  prompt : option string;
  timeout : option Z
}.

Definition optional_member (k : string) (v : value) : list (string * json) :=
  match v with
  | Some x => [(k, x)]
  | None => []
  end.

(** The hook as [JSON.stringify] writes it: members that are
    [undefined] are left out. *)
Definition hook_json (h : Hook) : json :=
  JObj ([("type", JStr (type_name (type h)))]
        ++ optional_member "command" (JStr <$> command h)
        ++ optional_member "prompt" (JStr <$> prompt h)
        ++ optional_member "timeout" (JNum <$> timeout h)).

(** [parseHooks] copies [matcherObj.matcher] and [matcherObj.hooks] as
    they are; the event type is the key found in the file. *)
Record HookMatcher := { matcher : value; hooks : list json }.

Record HookConfiguration := {
  eventType : string;
  matchers : list HookMatcher;
  location : string;
  configPath : list string
}.

(** One turn of the inner loop of [parseHooks]: the matcher to push, or
    [None] for [continue]. *)
Definition parse_matcher (matcherObj : json) : result (option HookMatcher) :=
  if negb (typeof_object (Some matcherObj)) then Ok None
  else
    hs ← get_key (Some matcherObj) "hooks";
    if negb (truthy hs) || negb (isArray hs) then Ok None
    else
      l ← array_items hs;
      m ← get_key (Some matcherObj) "matcher";
      Ok (Some {| matcher := m; hooks := l |}).

Fixpoint parse_matchers (matchersArray : list json) : result (list HookMatcher) :=
  match matchersArray with
  | [] => Ok []
  | matcherObj :: rest =>
      o ← parse_matcher matcherObj;
      ms ← parse_matchers rest;
      Ok (match o with Some m => m :: ms | None => ms end)
  end.

Fixpoint parse_events (entries : list (string * json))
  (loc : string) (path : list string) : result (list HookConfiguration) :=
  match entries with
  | [] => Ok []
  | (ev, matchersArray) :: rest =>
      match matchersArray with
      | JArr l =>
          ms ← parse_matchers l;
          cs ← parse_events rest loc path;
          Ok (match ms with
              | [] => cs
              | _ => {| eventType := ev; matchers := ms;
                        location := loc; configPath := path |} :: cs
              end)
      | _ => parse_events rest loc path
      end
  end.

(** The body of the [try] of [parseHooks], after [JSON.parse]. *)
Definition parseHooks_try (config : json) (loc : string) (path : list string)
  : result (list HookConfiguration) :=
  h ← get_key (Some config) "hooks";
  if negb (truthy h) || negb (typeof_object h) then Ok []
  else parse_events (object_entries (default JNull h)) loc path.

(** [parseHooks] on a parsed document: the [catch] returns no
    configuration at all. *)
Definition parseHooks_doc (config : json) (loc : string) (path : list string)
  : list HookConfiguration :=
  match parseHooks_try config loc path with
  | Ok cs => cs
  | Throw _ => []
  end.

(** [if (!holder.k) holder.k = init], reading [holder.k] back. *)
Definition or_init (v : value) (holder init : json) : result json :=
  match v with
  | Some x => if truthy v then Ok x else (_ ← assignable holder; Ok init)
  | None => _ ← assignable holder; Ok init
  end.

(** [arr.find((m) => m.matcher === matcher)], with the position of the
    entry found. *)
Fixpoint find_matcher (name : string) (i : nat) (arr : list json)
  : result (option (nat * json)) :=
  match arr with
  | [] => Ok None
  | m :: rest =>
      mm ← get_key (Some m) "matcher";
      match mm with
      | Some (JStr s) =>
          if String.eqb s name then Ok (Some (i, m))
          else find_matcher name (S i) rest
      | _ => find_matcher name (S i) rest
      end
  end.

Definition new_entry (name : string) : json :=
  JObj [("matcher", JStr name); ("hooks", JArr [])].

(** [addHook] between [JSON.parse] and [JSON.stringify]: the document
    that is written. *)
Definition addHook_doc (settings : json) (ev : HookEventType)
  (name : string) (hook : Hook) : result json :=
  h0 ← get_key (Some settings) "hooks";
  hooksV ← or_init h0 settings (JObj []);
  e0 ← get_key (Some hooksV) (event_name ev);
  evV ← or_init e0 hooksV (JArr []);
  arr ← array_items (Some evV);
  found ← find_matcher name 0 arr;
  let '(i, matcherEntry, arr1) :=
    match found with
    | Some (i, m) => (i, m, arr)
    | None => (length arr, new_entry name, arr ++ [new_entry name])
    end in
  hs ← get_key (Some matcherEntry) "hooks";
  l ← array_items hs;
  let entry' := store_key matcherEntry "hooks" (JArr (l ++ [hook_json hook])) in
  let evV' := JArr (<[i := entry']> arr1) in
  Ok (store_key settings "hooks" (store_key hooksV (event_name ev) evV')).

(** The guard shared by [updateHook] and [deleteHook]: the containers
    on the way to the addressed hook, or [None] for "Hook not found in
    settings." *)
Record Located := {
  l_hooks : json;     (* settings.hooks *)
  l_event : json;     (* settings.hooks[eventType] *)
  l_entry : json;     (* settings.hooks[eventType][matcherIndex] *)
  l_list : value      (* settings.hooks[eventType][matcherIndex].hooks *)
}.

Definition locate (settings : json) (ev : HookEventType) (mi hi : nat)
  : result (option Located) :=
  h0 ← get_key (Some settings) "hooks";
  match h0 with
  | Some h =>
      if negb (truthy h0) then Ok None
      else
        e0 ← get_key h0 (event_name ev);
        match e0 with
        | Some e =>
            if negb (truthy e0) then Ok None
            else
              m0 ← get_idx e0 mi;
              match m0 with
              | Some m =>
                  if negb (truthy m0) then Ok None
                  else
                    hs ← get_key m0 "hooks";
                    x ← get_idx hs hi;
                    if negb (truthy x) then Ok None
                    else Ok (Some {| l_hooks := h; l_event := e;
                                     l_entry := m; l_list := hs |})
              | None => Ok None
              end
        | None => Ok None
        end
  | None => Ok None
  end.

(** [updateHook] between [JSON.parse] and [JSON.stringify]: [None] when
    the hook is not found, else the document that is written. *)
Definition updateHook_doc (settings : json) (ev : HookEventType)
  (mi hi : nat) (updatedHook : Hook) : result (option json) :=
  loc ← locate settings ev mi hi;
  match loc with
  | None => Ok None
  | Some p =>
      l' ← assign_idx (l_list p) hi (hook_json updatedHook);
      let m' := store_key (l_entry p) "hooks" l' in
      let e' := store_idx (l_event p) mi m' in
      Ok (Some (store_key settings "hooks"
                  (store_key (l_hooks p) (event_name ev) e')))
  end.

(** [deleteHook] between [JSON.parse] and [JSON.stringify]. *)
Definition deleteHook_doc (settings : json) (ev : HookEventType)
  (mi hi : nat) : result (option json) :=
  loc ← locate settings ev mi hi;
  match loc with
  | None => Ok None
  | Some p =>
      (* settings.hooks[eventType][matcherIndex].hooks.splice(hookIndex, 1) *)
      l ← array_items (l_list p);
      let l' := delete hi l in
      (* if (....hooks.length === 0) settings.hooks[eventType].splice(matcherIndex, 1) *)
      e' ← (match l' with
            | [] => arr ← array_items (Some (l_event p)); Ok (JArr (delete mi arr))
            | _ => Ok (store_idx (l_event p) mi
                         (store_key (l_entry p) "hooks" (JArr l')))
            end);
      (* if (settings.hooks[eventType].length === 0) delete settings.hooks[eventType] *)
      let h' := if length_is_zero e'
                then delete_key (l_hooks p) (event_name ev)
                else store_key (l_hooks p) (event_name ev) e' in
      (* if (Object.keys(settings.hooks).length === 0) delete settings.hooks *)
      Ok (Some (match object_entries h' with
                | [] => delete_key settings "hooks"
                | _ => store_key settings "hooks" h'
                end))
  end.

End Hooks.

(* ===================================================================== *)
(** ** The file system *)
(* ===================================================================== *)

Module Fs.
Import Js.

(** An absolute, normalized path is the list of its segments; the root
    is [[]]. *)
Abbreviation path := (list string).

(** [path.dirname], [path.basename], [path.join] with a relative path. *)
Definition dirname (p : path) : path := removelast p.
Definition basename (p : path) : string := default EmptyString (last p).
Definition join (p rel : path) : path := p ++ rel.

(** What a file holds. The services read two kinds of files: text they
    never look into, and settings they pass to [JSON.parse]. A settings
    file is kept in parsed form, [Json doc] standing for any text that
    parses to [doc]; [Text] is text that is not JSON. *)
Inductive content :=
| Text (s : string)
| Json (doc : json).

Inductive node :=
| File (c : content)
| Dir.

(** The calls of [fs.promises]. *)
Inductive call :=
| Stat (p : path)
| Access (p : path)
| Mkdir (p : path)
| Rename (p q : path)
| Unlink (p : path)
| Readdir (p : path)
| Rmdir (p : path)
| Rm (p : path)
| ReadFile (p : path)
| WriteFile (p : path).

#[export] Instance call_eq_dec : EqDecision call.
Proof. solve_decision. Defined.

(** What the user is shown. *)
Inductive notice :=
| Info (s : string)
| Warn (s : string)
| Error (s : string).

(** What a call that fails may have done before it failed: [rm] with
    [recursive] removes entry after entry, [mkdir] with [recursive]
    creates directory after directory, and [writeFile] opens the file,
    which truncates it, before it writes. [Removed p gone] says that [rm]
    of [p] fails after the entries at and below the paths [gone] have
    been removed, [Made p k] that [mkdir] of [p] fails after the first
    [k] segments of [p] have been seen to, and [Written p c] that
    [writeFile] to [p] fails leaving [c] in the file. *)
Inductive leftover :=
| Removed (p : path) (gone : list path)
| Made (p : path) (k : nat)
| Written (p : path) (c : content).

(** The state the services run in: the tree, the calls the environment
    makes fail whatever the tree is (permissions, a busy directory,
    a full disk), what the failing calls leave behind, the calls made so
    far and the notices shown so far, oldest first. *)
Record World := {
  files : gmap path node;
  faults : list call;
  leftovers : list leftover;
  calls : list call;
  notices : list notice
}.

Definition M (A : Type) : Type := World -> result A * World.

#[export] Instance M_ret : MRet M := fun _ a w => (Ok a, w).
#[export] Instance M_bind : MBind M := fun _ _ f m w =>
  match m w with
  | (Ok a, w') => f a w'
  | (Throw e, w') => (Throw e, w')
  end.

Definition throw {A} (e : error) : M A := fun w => (Throw e, w).

(** [try { body } catch (e) { handler e }] *)
Definition try_catch {A} (body : M A) (handler : error -> M A) : M A :=
  fun w =>
    match body w with
    | (Ok a, w') => (Ok a, w')
    | (Throw e, w') => handler e w'
    end.

Definition lift {A} (r : result A) : M A := fun w => (r, w).

Definition noticed (n : notice) (w : World) : World :=
  {| files := files w; faults := faults w; leftovers := leftovers w;
     calls := calls w; notices := notices w ++ [n] |}.

Definition notify (n : notice) : M unit := fun w => (Ok tt, noticed n w).

Definition logged (c : call) (w : World) : World :=
  {| files := files w; faults := faults w; leftovers := leftovers w;
     calls := calls w ++ [c]; notices := notices w |}.

Definition with_files (t : gmap path node) (w : World) : World :=
  {| files := t; faults := faults w; leftovers := leftovers w;
     calls := calls w; notices := notices w |}.

(** A call that takes effect at once or not at all ([stat], [access],
    [readdir], [readFile], [rename], [unlink], [rmdir]): it is recorded,
    fails if the environment says so, and otherwise acts on the tree. A
    failing call leaves the tree alone. *)
Definition syscall {A} (c : call)
  (sem : gmap path node -> result (A * gmap path node)) : M A :=
  fun w =>
    if decide (c ∈ faults w)
    then (Throw (SystemError "EACCES"), logged c w)
    else match sem (files w) with
         | Ok (a, t) => (Ok a, with_files t (logged c w))
         | Throw e => (Throw e, logged c w)
         end.

(** *** The tree *)

Definition node_at (t : gmap path node) (p : path) : option node :=
  match p with
  | [] => Some Dir
  | _ => t !! p
  end.

Fixpoint strip_prefix (p q : path) : option path :=
  match p, q with
  | [], _ => Some q
  | a :: p', b :: q' => if String.eqb a b then strip_prefix p' q' else None
  | _ :: _, [] => None
  end.

(** The names of the entries of directory [p]. *)
Definition entries (t : gmap path node) (p : path) : list string :=
  omap (fun q => match strip_prefix p q with
                 | Some [n] => Some n
                 | _ => None
                 end) (map_to_list t).*1.

Definition is_under (p q : path) : bool :=
  match strip_prefix p q with
  | Some _ => true
  | None => false
  end.

Definition stat_sem (p : path) (t : gmap path node)
  : result (node * gmap path node) :=
  match node_at t p with
  | Some n => Ok (n, t)
  | None => Throw (SystemError "ENOENT")
  end.

(** [mkdir(p, { recursive: true })]: the missing directories along
    [todo] below [base] are created; a file on the way is an error. *)
Fixpoint mkdir_from (base todo : path) (t : gmap path node)
  : result (gmap path node) :=
  match todo with
  | [] => Ok t
  | n :: rest =>
      let q := base ++ [n] in
      match t !! q with
      | Some Dir => mkdir_from q rest t
      | Some (File _) => Throw (SystemError "ENOTDIR")
      | None => mkdir_from q rest (<[q := Dir]> t)
      end
  end.

Definition mkdir_sem (p : path) (t : gmap path node)
  : result (unit * gmap path node) :=
  t' ← mkdir_from [] p t; Ok (tt, t').

(** The tree with everything at or below [src] moved to [dst]. *)
Definition reroot (src dst : path) (t : gmap path node) : gmap path node :=
  list_to_map
    ((fun qn : path * node =>
        match strip_prefix src qn.1 with
        | Some rel => (dst ++ rel, qn.2)
        | None => qn
        end) <$> map_to_list (delete dst t)).

Definition rename_sem (src dst : path) (t : gmap path node)
  : result (unit * gmap path node) :=
  match src, dst with
  | [], _ | _, [] => Throw (SystemError "EBUSY")
  | _, _ =>
      match t !! src, node_at t (dirname dst) with
      | None, _ => Throw (SystemError "ENOENT")
      | Some _, None => Throw (SystemError "ENOENT")
      | Some _, Some (File _) => Throw (SystemError "ENOTDIR")
      | Some n, Some Dir =>
          if decide (src = dst) then Ok (tt, t)
          else
            match n, t !! dst with
            | File _, Some Dir => Throw (SystemError "EISDIR")
            | File c, _ => Ok (tt, <[dst := File c]> (delete src t))
            | Dir, Some (File _) => Throw (SystemError "ENOTDIR")
            | Dir, Some Dir =>
                match entries t dst with
                | [] => Ok (tt, reroot src dst t)
                | _ => Throw (SystemError "ENOTEMPTY")
                end
            | Dir, None =>
                if is_under src dst then Throw (SystemError "EINVAL")
                else Ok (tt, reroot src dst t)
            end
      end
  end.

Definition unlink_sem (p : path) (t : gmap path node)
  : result (unit * gmap path node) :=
  match t !! p with
  | Some (File _) => Ok (tt, delete p t)
  | Some Dir => Throw (SystemError "EPERM")
  | None => Throw (SystemError "ENOENT")
  end.

Definition readdir_sem (p : path) (t : gmap path node)
  : result (list string * gmap path node) :=
  match node_at t p with
  | Some Dir => Ok (entries t p, t)
  | Some (File _) => Throw (SystemError "ENOTDIR")
  | None => Throw (SystemError "ENOENT")
  end.

Definition rmdir_sem (p : path) (t : gmap path node)
  : result (unit * gmap path node) :=
  match t !! p with
  | Some Dir =>
      match entries t p with
      | [] => Ok (tt, delete p t)
      | _ => Throw (SystemError "ENOTEMPTY")
      end
  | Some (File _) => Throw (SystemError "ENOTDIR")
  | None => Throw (SystemError "ENOENT")
  end.

(** [rm(p, { recursive: true, force: true })] when it goes through:
    everything at and below [p] is gone. What it has done when it fails
    half-way is given by [wreck], below. *)
Definition rm_sem (p : path) (t : gmap path node)
  : result (unit * gmap path node) :=
  Ok (tt, filter (fun qn : path * node => is_under p qn.1 = false) t).

Definition readFile_sem (p : path) (t : gmap path node)
  : result (content * gmap path node) :=
  match t !! p with
  | Some (File c) => Ok (c, t)
  | Some Dir => Throw (SystemError "EISDIR")
  | None => Throw (SystemError "ENOENT")
  end.

Definition writeFile_sem (p : path) (c : content) (t : gmap path node)
  : result (unit * gmap path node) :=
  match p, t !! p, node_at t (dirname p) with
  | [], _, _ | _, Some Dir, _ => Throw (SystemError "EISDIR")
  | _, _, Some Dir => Ok (tt, <[p := File c]> t)
  | _, _, Some (File _) => Throw (SystemError "ENOTDIR")
  | _, _, None => Throw (SystemError "ENOENT")
  end.

(** What one leftover does to the tree when the call [c] fails. [rm]
    removes children before their parent, so that what is gone is whole
    subtrees strictly below [p]; [mkdir] has created the directories of
    a prefix of the path; [writeFile] leaves a file only where it could
    have written one. *)
Definition wreck (c : call) (l : leftover) (t : gmap path node)
  : gmap path node :=
  match c, l with
  | Rm p, Removed p' gone =>
      if decide (p = p')
      then filter (fun qn : path * node =>
                     existsb (fun g => is_under p g
                                       && negb (bool_decide (g = p))
                                       && is_under g qn.1) gone = false) t
      else t
  | Mkdir p, Made p' k =>
      if decide (p = p')
      then match mkdir_from [] (take k p) t with
           | Ok t' => t'
           | Throw _ => t
           end
      else t
  | WriteFile p, Written p' c' =>
      if decide (p = p')
      then match writeFile_sem p c' t with
           | Ok (_, t') => t'
           | Throw _ => t
           end
      else t
  | _, _ => t
  end.

Definition wrecked (c : call) (ls : list leftover) (t : gmap path node)
  : gmap path node :=
  foldl (fun t l => wreck c l t) t ls.

(** A call that works step by step ([rm] and [mkdir] with [recursive],
    [writeFile]): when the environment makes it fail, the steps it has
    taken stay. *)
Definition syscall_partial {A} (c : call)
  (sem : gmap path node -> result (A * gmap path node)) : M A :=
  fun w =>
    if decide (c ∈ faults w)
    then (Throw (SystemError "EACCES"),
          with_files (wrecked c (leftovers w) (files w)) (logged c w))
    else syscall c sem w.

Definition stat (p : path) : M node := syscall (Stat p) (stat_sem p).
Definition access (p : path) : M unit :=
  syscall (Access p) (fun t => '(_, t') ← stat_sem p t; Ok (tt, t')).
Definition mkdir (p : path) : M unit :=
  syscall_partial (Mkdir p) (mkdir_sem p).
Definition rename (p q : path) : M unit := syscall (Rename p q) (rename_sem p q).
Definition unlink (p : path) : M unit := syscall (Unlink p) (unlink_sem p).
Definition readdir (p : path) : M (list string) :=
  syscall (Readdir p) (readdir_sem p).
Definition rmdir (p : path) : M unit := syscall (Rmdir p) (rmdir_sem p).
Definition rm (p : path) : M unit := syscall_partial (Rm p) (rm_sem p).
Definition readFile (p : path) : M content :=
  syscall (ReadFile p) (readFile_sem p).
Definition writeFile (p : path) (c : content) : M unit :=
  syscall_partial (WriteFile p) (writeFile_sem p c).

(** [JSON.parse(content)] *)
Definition JSON_parse (c : content) : result json :=
  match c with
  | Json doc => Ok doc
  | Text _ => Throw SyntaxError
  end.

(** [error.message], [`${error}`] *)
Definition message (e : error) : string :=
  match e with
  | TypeError => "TypeError"
  | SyntaxError => "SyntaxError"
  | SystemError code => code
  end.

Definition is_file (n : node) : bool :=
  match n with File _ => true | Dir => false end.
Definition is_dir (n : node) : bool :=
  match n with File _ => false | Dir => true end.

(** The configuration of a service: the global root and the first
    workspace folder, if a project is open. *)
Record Env := {
  globalClaudePath : path;
  workspaceFolder : option path
}.

Definition getProjectClaudePath (env : Env) : option path :=
  (fun w => join w [".claude"]) <$> workspaceFolder env.

Definition initial (t : gmap path node) (fl : list call) : World :=
  {| files := t; faults := fl; leftovers := []; calls := []; notices := [] |}.

(** The same with what the failing calls leave behind. *)
Definition initial_with (t : gmap path node) (fl : list call)
  (ls : list leftover) : World :=
  {| files := t; faults := fl; leftovers := ls; calls := []; notices := [] |}.

End Fs.

(* ===================================================================== *)
(** ** FileOperationsService *)
(* ===================================================================== *)

Module FileOps.
Import Js Fs.

Inductive LocationScope := global | project | nested.

Inductive ClaudeFileType :=
| memory | command | skill | subAgent | mcp | permission | settings.

Record ClaudeFile := {
  name : string;
  path : Fs.path;
  scope : LocationScope;
  scopeLabel : string;
  type : ClaudeFileType;
  isDirectory : option bool;
  parentType : option ClaudeFileType
}.

Definition COMMANDS_DIR := "commands".
Definition SKILLS_DIR := "skills".
Definition AGENTS_DIR := "agents".
Definition MCP_DIR := "mcp-servers".

Definition getTargetDirectory (basePath : Fs.path) (fileType : ClaudeFileType)
  : Fs.path :=
  match fileType with
  | command => join basePath [COMMANDS_DIR]
  | skill => join basePath [SKILLS_DIR]
  | subAgent => join basePath [AGENTS_DIR]
  | mcp => join basePath [MCP_DIR]
  | _ => basePath
  end.

(** [fileExists] of this service: [fs.promises.access] succeeds. *)
Definition fileExists (p : Fs.path) : M bool :=
  try_catch (_ ← access p; mret true) (fun _ => mret false).







Definition base_path (env : Env) (sc : LocationScope) : option Fs.path :=
  match sc with
  | global => Some (globalClaudePath env)
  | _ => getProjectClaudePath env
  end.

(** [createFile]: [fileName] may hold sub-directories, so it is a
    relative path, like [parentFolder]; [overwrite] tells whether the
    user answers "Overwrite" to the collision prompt. *)
Definition createFile (env : Env) (ty : ClaudeFileType) (sc : LocationScope)
  (fileName : Fs.path) (c : content) (parentFolder : option Fs.path)
  (overwrite : bool) : M (option Fs.path) :=
  match base_path env sc with
  | None => _ ← notify (Error "Cannot determine target path."); mret None
  | Some basePath =>
      let targetDir := getTargetDirectory basePath ty in
      let finalDir := match parentFolder with
                      | None | Some [] => targetDir
                      | Some f => join targetDir f
                      end in
      let targetPath := join finalDir fileName in
      try_catch
        (let fileDir := dirname targetPath in
         _ ← mkdir fileDir;
         ex ← fileExists targetPath;
         go ← (if (ex : bool)
               then _ ← notify (Warn "File already exists."); mret overwrite
               else mret true);
         if (go : bool) then _ ← writeFile targetPath c; mret (Some targetPath)
         else mret None)
        (fun e => _ ← notify (Error ("Failed to create file: " +:+ message e));
                  mret None)
  end.

Definition grouping_dirs : list string := ["skills"; "agents"; "commands"].

(** [deleteFile]; [confirmed] tells whether the user answers "Delete". *)
Definition deleteFile (claudeFile : ClaudeFile) (confirmed : bool) : M bool :=
  try_catch
    (let fileName := basename (path claudeFile) in
     _ ← notify (Warn ("Are you sure you want to delete '" +:+ fileName +:+ "'?"));
     if negb confirmed then mret false
     else
       st ← stat (path claudeFile);
       _ ← (if is_dir st
            then rm (path claudeFile)
            else
              _ ← unlink (path claudeFile);
              let parentDir := dirname (path claudeFile) in
              let parentDirName := basename (dirname parentDir) in
              if bool_decide (parentDirName ∈ grouping_dirs)
              then try_catch
                     (filesInParent ← readdir parentDir;
                      match filesInParent with
                      | [] => rmdir parentDir
                      | _ => mret tt
                      end)
                     (fun _ => mret tt)
              else mret tt);
       _ ← notify (Info ("Deleted '" +:+ fileName +:+ "'."));
       mret true)
    (fun e => _ ← notify (Error ("Failed to delete file: " +:+ message e));
              mret false).

(** [/^[\w-]+$/.test(value)] *)
Definition is_name_char (c : ascii) : bool :=
  let n := N_of_ascii c in
  Permissions.is_word n || (n =? 45)%N.

Definition valid_name (v : string) : bool :=
  match v with
  | EmptyString => false
  | _ => forallb is_name_char (list_ascii_of_string v)
  end.

(** What an input box that validates with [valid_name] returns: it
    closes on a valid value or is dismissed. *)
Definition input_name (answer : option string) : option string :=
  match answer with
  | Some v => if valid_name v then Some v else None
  | None => None
  end.

(** The position of the last dot of a name. *)
Fixpoint last_dot (s : string) (i : nat) : option nat :=
  match s with
  | EmptyString => None
  | String c s' =>
      match last_dot s' (S i) with
      | Some j => Some j
      | None => if Ascii.eqb c "." then Some i else None
      end
  end.

(** [path.extname] of a base name: from the last dot on, and empty
    when there is no dot, when the only dot comes first, and for
    [".."]. *)
Definition extname (n : string) : string :=
  match last_dot n 0 with
  | None | Some 0 => EmptyString
  | Some i =>
      if String.eqb n ".." then EmptyString
      else String.substring i (String.length n - i) n
  end.

(** [path.basename(n, ext)] for a base name [n]. *)
Definition strip_ext (n ext : string) : string :=
  let k := String.length n - String.length ext in
  if String.eqb ext EmptyString then n
  else if negb (String.eqb n ext) && String.eqb (String.substring k (String.length ext) n) ext
       then String.substring 0 k n
       else n.

Definition renameFile (claudeFile : ClaudeFile) (answer : option string) : M bool :=
  try_catch
    (let currentName := basename (path claudeFile) in
     let isDir := default false (isDirectory claudeFile) in
     let ext := if isDir then EmptyString else extname currentName in
     let nameWithoutExt := if isDir then currentName else strip_ext currentName ext in
     match input_name answer with
     | None => mret false
     | Some newName =>
         if String.eqb newName nameWithoutExt then mret false
         else
           let newFileName := if isDir then newName else newName +:+ ext in
           let newPath := join (dirname (path claudeFile)) [newFileName] in
           ex ← fileExists newPath;
           if (ex : bool)
           then _ ← notify (Error ((if isDir then "Folder" else "File") +:+ " '"
                                   +:+ newFileName +:+ "' already exists."));
                mret false
           else
             _ ← rename (path claudeFile) newPath;
             _ ← notify (Info ("Renamed to '" +:+ newFileName +:+ "'."));
             mret true
     end)
    (fun e => _ ← notify (Error ("Failed to rename: " +:+ message e));
              mret false).

Definition createFolder (env : Env) (ty : ClaudeFileType) (sc : LocationScope)
  (answer : option string) : M (option Fs.path) :=
  match input_name answer with
  | None => mret None
  | Some folderName =>
      match base_path env sc with
      | None => _ ← notify (Error "Cannot determine target path."); mret None
      | Some basePath =>
          let targetDir := getTargetDirectory basePath ty in
          let folderPath := join targetDir [folderName] in
          try_catch
            (ex ← fileExists folderPath;
             if (ex : bool)
             then _ ← notify (Error ("Folder '" +:+ folderName
                                     +:+ "' already exists."));
                  mret None
             else
               _ ← mkdir folderPath;
               _ ← notify (Info ("Created folder '" +:+ folderName +:+ "'."));
               mret (Some folderPath))
            (fun e => _ ← notify (Error ("Failed to create folder: " +:+ message e));
                      mret None)
      end
  end.

End FileOps.

(* ===================================================================== *)
(** ** HooksService on the file system *)
(* ===================================================================== *)

Module HooksFs.
Import Js Fs Hooks.

Inductive SettingsScope := global | local.

Definition getSettingsPath (env : Env) (sc : SettingsScope) : option path :=
  match sc with
  | global => Some (join (globalClaudePath env) ["settings.json"])
  | local =>
      (fun w => join w [".claude"; "settings.local.json"]) <$> workspaceFolder env
  end.

(** [fileExists] and [directoryExists] of this service: [stat], then
    [isFile()] or [isDirectory()]. *)
Definition fileExists (p : path) : M bool :=
  try_catch (st ← stat p; mret (is_file st)) (fun _ => mret false).

Definition directoryExists (p : path) : M bool :=
  try_catch (st ← stat p; mret (is_dir st)) (fun _ => mret false).

Definition parseHooks (configPath : path) (loc : string)
  : M (list HookConfiguration) :=
  try_catch
    (c ← readFile configPath;
     config ← lift (JSON_parse c);
     lift (parseHooks_try config loc configPath))
    (fun _ => mret []).

Definition parse_if_exists (configPath : path) (loc : string)
  : M (list HookConfiguration) :=
  ex ← fileExists configPath;
  if (ex : bool) then parseHooks configPath loc else mret [].

Definition discoverHooks (env : Env) : M (list HookConfiguration) :=
  globalHooks ← parse_if_exists (join (globalClaudePath env) ["settings.json"])
                  "Global (~/.claude)";
  localHooks ← match workspaceFolder env with
               | Some w =>
                   parse_if_exists (join w [".claude"; "settings.local.json"])
                     "Project (.claude/settings.local.json)"
               | None => mret []
               end;
  mret (globalHooks ++ localHooks).

Definition addHook (env : Env) (sc : SettingsScope) (ev : HookEventType)
  (name : string) (hook : Hook) : M bool :=
  try_catch
    (match getSettingsPath env sc with
     | None =>
         _ ← notify (Error "Cannot determine settings path for the selected scope.");
         mret false
     | Some settingsPath =>
         let dir := dirname settingsPath in
         dex ← directoryExists dir;
         _ ← (if (dex : bool) then mret tt else mkdir dir);
         ex ← fileExists settingsPath;
         settings ← (if (ex : bool)
                     then c ← readFile settingsPath; lift (JSON_parse c)
                     else mret (JObj []));
         doc ← lift (addHook_doc settings ev name hook);
         _ ← writeFile settingsPath (Json doc);
         mret true
     end)
    (fun e => _ ← notify (Error ("Failed to add hook: " +:+ message e));
              mret false).

Definition updateHook (configPath : path) (ev : HookEventType)
  (matcherIndex hookIndex : nat) (updatedHook : Hook) : M bool :=
  try_catch
    (ex ← fileExists configPath;
     if negb ex
     then _ ← notify (Error "Settings file not found."); mret false
     else
       c ← readFile configPath;
       settings ← lift (JSON_parse c);
       r ← lift (updateHook_doc settings ev matcherIndex hookIndex updatedHook);
       match r with
       | None => _ ← notify (Error "Hook not found in settings."); mret false
       | Some doc => _ ← writeFile configPath (Json doc); mret true
       end)
    (fun e => _ ← notify (Error ("Failed to update hook: " +:+ message e));
              mret false).

Definition deleteHook (configPath : path) (ev : HookEventType)
  (matcherIndex hookIndex : nat) : M bool :=
  try_catch
    (ex ← fileExists configPath;
     if negb ex
     then _ ← notify (Error "Settings file not found."); mret false
     else
       c ← readFile configPath;
       settings ← lift (JSON_parse c);
       r ← lift (deleteHook_doc settings ev matcherIndex hookIndex);
       match r with
       | None => _ ← notify (Error "Hook not found in settings."); mret false
       | Some doc => _ ← writeFile configPath (Json doc); mret true
       end)
    (fun e => _ ← notify (Error ("Failed to delete hook: " +:+ message e));
              mret false).

End HooksFs.

(* ===================================================================== *)
(** ** FileDiscoveryService: memory files *)
(* ===================================================================== *)

Module Discovery.
Import Js Fs.
Import FileOps (ClaudeFile, ClaudeFileType, LocationScope).

Definition CLAUDE_MD_PATTERNS : list string := ["CLAUDE.md"; "claude.md"].

Definition fileExists (p : path) : M bool :=
  try_catch (st ← stat p; mret (is_file st)) (fun _ => mret false).

Definition createClaudeFile (filePath : path) (ty : ClaudeFileType)
  (sc : LocationScope) (label : string) (isDirectory : option bool) : ClaudeFile :=
  {| FileOps.name := basename filePath;
     FileOps.path := filePath;
     FileOps.scope := sc;
     FileOps.scopeLabel := label;
     FileOps.type := ty;
     FileOps.isDirectory := isDirectory;
     FileOps.parentType := match isDirectory with
                           | Some true => Some ty
                           | _ => None
                           end |}.

(** [for (const pattern of CLAUDE_MD_PATTERNS) { if (await
    this.fileExists(join(dir, pattern))) { push; break; } }] *)
Fixpoint first_memory (dir : path) (patterns : list string)
  (sc : LocationScope) (label : string) : M (list ClaudeFile) :=
  match patterns with
  | [] => mret []
  | pattern :: rest =>
      let p := join dir [pattern] in
      ex ← fileExists p;
      if (ex : bool)
      then mret [createClaudeFile p FileOps.memory sc label None]
      else first_memory dir rest sc label
  end.

(** [vscode.workspace.findFiles] with the include glob "any directory,
    then [pattern]", the exclude glob "anything below a [node_modules]
    directory" and a limit, in a workspace with the single folder
    [root]: the files below [root] named [pattern] that are not below a
    [node_modules] directory, at most [limit] of them. Names are
    compared as they are written. *)
Definition found_by (root : path) (pattern : string) (qn : path * node) : bool :=
  match strip_prefix root qn.1 with
  | Some rel =>
      is_file qn.2
      && String.eqb (basename qn.1) pattern
      && negb (bool_decide ("node_modules" ∈ removelast rel))
  | None => false
  end.

Definition findFiles (root : path) (pattern : string) (limit : nat)
  : M (list path) :=
  fun w => (Ok (take limit (List.filter (found_by root pattern)
                              (map_to_list (files w))).*1), w).

(** [path.relative(rootPath, dir)] for [dir] below [rootPath]. *)
Definition relative (rootPath dir : path) : string :=
  String.concat "/" (default [] (strip_prefix rootPath dir)).

Fixpoint nested_of (rootPath : path) (uris : list path) : list ClaudeFile :=
  match uris with
  | [] => []
  | uri :: rest =>
      if decide (dirname uri = rootPath) then nested_of rootPath rest
      else createClaudeFile uri FileOps.memory FileOps.nested
             (relative rootPath (dirname uri)) None
           :: nested_of rootPath rest
  end.

Fixpoint nested_loop (rootPath : path) (patterns : list string)
  : M (list ClaudeFile) :=
  match patterns with
  | [] => mret []
  | pattern :: rest =>
      uris ← findFiles rootPath pattern 100;
      more ← nested_loop rootPath rest;
      mret (nested_of rootPath uris ++ more)
  end.

Definition findNestedClaudeFiles (env : Env) (rootPath : path)
  : M (list ClaudeFile) :=
  match workspaceFolder env with
  | None => mret []
  | Some _ => nested_loop rootPath CLAUDE_MD_PATTERNS
  end.

Definition discoverMemories (env : Env) : M (list ClaudeFile) :=
  g ← first_memory (globalClaudePath env) CLAUDE_MD_PATTERNS
        FileOps.global "Global";
  match workspaceFolder env with
  | None => mret g
  | Some w =>
      p ← first_memory w CLAUDE_MD_PATTERNS FileOps.project "Project Root";
      d ← first_memory (join w [".claude"]) CLAUDE_MD_PATTERNS
            FileOps.project "Project .claude";
      nestedFiles ← findNestedClaudeFiles env w;
      mret (g ++ p ++ d ++ nestedFiles)
  end.

End Discovery.

(* ===================================================================== *)
(** ** Predicates used to state the properties *)
(* ===================================================================== *)

Module Shapes.
Import Js Hooks Fs.

(** [rest] does not continue a run of word characters. *)
Definition run_ends (rest : list N) : Prop :=
  match rest with
  | [] => True
  | d :: _ => Permissions.is_word d = false
  end.

(** [r] less one closing parenthesis at its end, if it ends in one. *)
Definition without_closing (r : list N) : list N :=
  match last r with
  | Some c => if (c =? Permissions.RPAREN)%N then removelast r else r
  | None => r
  end.


(** A settings document of the expected outer shape: an object whose
    [hooks] member, if any, is not an array. *)
Definition regular (d : json) : bool :=
  match d with
  | JObj ms =>
      match assoc "hooks" ms with
      | Some (JArr _) => false
      | _ => true
      end
  | _ => false
  end.

(** [m.matcher === name] *)
Definition has_matcher (name : string) (m : json) : bool :=
  match m with
  | JObj ms =>
      match assoc "matcher" ms with
      | Some (JStr s) => String.eqb s name
      | _ => false
      end
  | _ => false
  end.

(** The matcher a well-formed entry stands for: an object with an array
    under [hooks]. *)
Definition well_formed_entry (m : json) : option HookMatcher :=
  match m with
  | JObj es =>
      match assoc "hooks" es with
      | Some (JArr l) => Some {| matcher := assoc "matcher" es; hooks := l |}
      | _ => None
      end
  | _ => None
  end.

(** The configuration an entry of the [hooks] object stands for: an
    array with at least one well-formed entry. *)
Definition event_config (loc : string) (path : list string)
  (kv : string * json) : option HookConfiguration :=
  match kv.2 with
  | JArr l =>
      match omap well_formed_entry l with
      | [] => None
      | ms => Some {| eventType := kv.1; matchers := ms;
                      location := loc; configPath := path |}
      end
  | _ => None
  end.

(** No [null] among the matcher entries of any event type. *)
Definition null_free (entries : list (string * json)) : Prop :=
  Forall (fun kv : string * json =>
            match kv.2 with
            | JArr l => Forall (fun m => m <> JNull) l
            | _ => True
            end) entries.

(** The matcher entries the document holds for an event type. *)
Definition event_array (d : json) (ev : HookEventType) : option (list json) :=
  match d with
  | JObj ms =>
      match assoc "hooks" ms with
      | Some (JObj hs) =>
          match assoc (event_name ev) hs with
          | Some (JArr l) => Some l
          | _ => None
          end
      | _ => None
      end
  | _ => None
  end.

(** Minimal normalized form: no [hooks] object without event types, no
    event type with an empty array, no matcher entry with an empty
    [hooks] list. *)
Definition entry_nonempty (m : json) : bool :=
  match m with
  | JObj ms =>
      match assoc "hooks" ms with
      | Some (JArr []) => false
      | _ => true
      end
  | _ => true
  end.

Definition event_nonempty (v : json) : bool :=
  match v with
  | JArr [] => false
  | JArr l => forallb entry_nonempty l
  | _ => true
  end.

Definition normalized (d : json) : bool :=
  match d with
  | JObj ms =>
      match assoc "hooks" ms with
      | Some (JObj []) => false
      | Some (JObj hs) => forallb (fun kv => event_nonempty kv.2) hs
      | _ => true
      end
  | _ => true
  end.

(** The value [settings.hooks[ev][mi].hooks[hi]] evaluates to; an
    exception on the way counts as no value. *)
Definition addressed (d : json) (ev : HookEventType) (mi hi : nat) : value :=
  match (h ← get_key (Some d) "hooks";
         e ← get_key h (event_name ev);
         m ← get_idx e mi;
         hs ← get_key m "hooks";
         get_idx hs hi) with
  | Ok v => v
  | Throw _ => None
  end.

(** What [fileExists] and [directoryExists] of the hooks and discovery
    services answer: [stat] has to succeed. *)
Definition file_there (p : path) (w : World) : bool :=
  if decide (Stat p ∈ faults w) then false
  else match node_at (files w) p with
       | Some n => is_file n
       | None => false
       end.

Definition dir_there (p : path) (w : World) : bool :=
  if decide (Stat p ∈ faults w) then false
  else match node_at (files w) p with
       | Some n => is_dir n
       | None => false
       end.

(** [updateHook] and [deleteHook] are the same read-modify-write around
    their document function. *)
Definition rmw (configPath : path) (f : json -> result (option json))
  (label : string) : M bool :=
  try_catch
    (ex ← HooksFs.fileExists configPath;
     if negb ex
     then _ ← notify (Error "Settings file not found."); mret false
     else
       c ← readFile configPath;
       settings ← lift (JSON_parse c);
       r ← lift (f settings);
       match r with
       | None => _ ← notify (Error "Hook not found in settings."); mret false
       | Some doc => _ ← writeFile configPath (Json doc); mret true
       end)
    (fun e => _ ← notify (Error (label +:+ message e)); mret false).

(** The document [addHook] starts from: the one in the settings file,
    or the empty object. *)
Definition settings_before (t : gmap path node) (p : path) : json :=
  match t !! p with
  | Some (File (Json d)) => d
  | _ => JObj []
  end.

(** What [fileExists] of the file operations answers: [access] has to
    succeed. *)
Definition exists_there (p : path) (w : World) : bool :=
  if decide (Access p ∈ faults w) then false
  else match node_at (files w) p with
       | Some _ => true
       | None => false
       end.

(** The tree [t'] holds all of [t], and whatever it holds more is a
    directory. *)
Definition only_dirs_added (t t' : gmap path node) : Prop :=
  forall q, match t !! q with
            | Some n => t' !! q = Some n
            | None => t' !! q = None \/ t' !! q = Some Dir
            end.

(** [t'] is [t] but, maybe, for what the file at [p] holds; where [t]
    has a directory at [p] there is no difference at all. *)
Definition same_but_file (p : path) (t t' : gmap path node) : Prop :=
  forall q, t' !! q = t !! q
            \/ (q = p /\ t !! q <> Some Dir /\ exists c, t' !! q = Some (File c)).

(** [t'] is [t] but, maybe, for entries strictly below [p] that are
    gone. *)
Definition same_but_below (p : path) (t t' : gmap path node) : Prop :=
  forall q, t' !! q = t !! q
            \/ (is_under p q = true /\ q <> p /\ t' !! q = None).

End Shapes.

(* ===================================================================== *)
(** ** Concrete settings files and trees *)
(* ===================================================================== *)

Module Examples.
Import Js Fs Hooks.

Definition env : Env :=
  {| globalClaudePath := ["home"; ".claude"]; workspaceFolder := Some ["w"] |}.

Definition settings_path : path := ["home"; ".claude"; "settings.json"].

Definition echo_hook : Hook :=
  {| type := command_type; command := Some "echo hi"; prompt := None;
     timeout := None |}.

Definition check_hook : Hook :=
  {| type := prompt_type; command := None; prompt := Some "check";
     timeout := Some 30%Z |}.

Definition bash_entry : json :=
  JObj [("matcher", JStr "Bash"); ("hooks", JArr [hook_json echo_hook])].

(** A settings document with a model and one hook, under [PreToolUse]
    and the matcher [Bash]. *)
Definition one_hook_doc : json :=
  JObj [("model", JStr "opus");
        ("hooks", JObj [("PreToolUse", JArr [bash_entry])])].

(** A [null] where a matcher entry is expected, before a well-formed
    entry of the same event type. *)
Definition null_entry_doc : json :=
  JObj [("hooks", JObj [("PreToolUse", JArr [JNull; bash_entry])])].

(** The same with a number in place of [null]. *)
Definition number_entry_doc : json :=
  JObj [("hooks", JObj [("PreToolUse", JArr [JNum 3; bash_entry])])].

(** A [null] entry under another event type. *)
Definition stop_null_doc : json :=
  JObj [("hooks", JObj [("Stop", JArr [JNull])])].

(** A settings document whose [hooks] member is an empty array. *)
Definition array_hooks_doc : json :=
  JObj [("model", JStr "opus"); ("hooks", JArr [])].

(** The global root with a settings file holding [d]. *)
Definition tree_with (d : json) : gmap path node :=
  list_to_map [(["home"], Dir); (["home"; ".claude"], Dir);
               (settings_path, File (Json d))].

Definition world_with (d : json) : World := initial (tree_with d) [].


(** A global skill in its own folder, and a skill file directly in
    [skills]. *)
Definition skill_file : path := ["home"; ".claude"; "skills"; "review"; "SKILL.md"].
Definition loose_skill : path := ["home"; ".claude"; "skills"; "notes.md"].

Definition skills_tree (p : path) : gmap path node :=
  list_to_map [(["home"], Dir); (["home"; ".claude"], Dir);
               (["home"; ".claude"; "skills"], Dir);
               (dirname p, Dir); (p, File (Text "text"))].

Definition skills_world (p : path) : World := initial (skills_tree p) [].

Definition skill_item (p : path) : FileOps.ClaudeFile :=
  {| FileOps.name := basename p; FileOps.path := p;
     FileOps.scope := FileOps.global; FileOps.scopeLabel := "Global";
     FileOps.type := FileOps.skill; FileOps.isDirectory := None;
     FileOps.parentType := None |}.

Definition claude_file (p : path) (ty : FileOps.ClaudeFileType)
  (sc : FileOps.LocationScope) : FileOps.ClaudeFile :=
  {| FileOps.name := basename p; FileOps.path := p; FileOps.scope := sc;
     FileOps.scopeLabel := "Global"; FileOps.type := ty;
     FileOps.isDirectory := None; FileOps.parentType := None |}.


Definition home_world : World :=
  initial (list_to_map [(["home"], Dir); (["home"; ".claude"], Dir)]) [].

(** A project with a memory file in its [.claude] directory. *)
Definition dot_claude_project : World :=
  initial (list_to_map [(["w"], Dir); (["w"; ".claude"], Dir);
                        (["w"; ".claude"; "CLAUDE.md"], File (Text "memo"))]) [].

(** A project with a top-level memory file and three nested ones. *)
Definition nested_project : World :=
  initial (list_to_map [(["w"], Dir);
                        (["w"; "CLAUDE.md"], File (Text "top"));
                        (["w"; "api"], Dir);
                        (["w"; "api"; "CLAUDE.md"], File (Text "api"));
                        (["w"; "web"], Dir);
                        (["w"; "web"; "CLAUDE.md"], File (Text "web"));
                        (["w"; "web"; "ui"], Dir);
                        (["w"; "web"; "ui"; "CLAUDE.md"], File (Text "ui"))]) [].


(** A skill folder whose recursive removal fails after the file in it
    has been removed. *)
Definition half_removed_world : World :=
  initial_with (skills_tree skill_file) [Rm (dirname skill_file)]
    [Removed (dirname skill_file) [skill_file]].

(** The settings file with one hook, where writing it fails after the
    file has been opened and a first piece of text written. *)
Definition half_written_world : World :=
  initial_with (tree_with one_hook_doc) [WriteFile settings_path]
    [Written settings_path (Text "{")].



Definition after_add_to (d : json) : World :=
  snd (HooksFs.addHook env HooksFs.global PreToolUse "Bash" check_hook
         (world_with d)).

End Examples.

(* ===================================================================== *)
(** ** Shapes of settings documents and of calls *)
(* ===================================================================== *)

Module HookShapes.
Import Js Hooks Fs Shapes.

(** The [hooks] member is absent or an object, and in it the event
    type is absent or holds an array. *)
Definition plain_for (d : json) (ev : HookEventType) : bool :=
  match d with
  | JObj ms =>
      match assoc "hooks" ms with
      | None => true
      | Some (JObj hs) =>
          match assoc (event_name ev) hs with
          | None | Some (JArr _) => true
          | _ => false
          end
      | _ => false
      end
  | _ => false
  end.

(** What [parseHooks] makes of the settings file at [p], when
    [fileExists] answers yes. *)
Definition hooks_of (w : World) (p : path) (loc : string)
  : list HookConfiguration :=
  if file_there p w
  then if decide (ReadFile p ∈ faults w) then []
       else match files w !! p with
            | Some (File (Json d)) => parseHooks_doc d loc p
            | _ => []
            end
  else [].

(** The calls that only read. *)
Definition reads (c : call) : Prop :=
  match c with
  | Stat _ | Access _ | Readdir _ | ReadFile _ => True
  | _ => False
  end.

(** The entry [addHook] leaves in place of [e]. *)
Definition with_hook (es : list (string * json)) (l : list json) (h : Hook) : json :=
  JObj (set_assoc "hooks" (JArr (l ++ [hook_json h])) es).

Definition written (ms hs : list (string * json)) (ev : HookEventType)
  (arr1 : list json) : json :=
  JObj (set_assoc "hooks" (JObj (set_assoc (event_name ev) (JArr arr1) hs)) ms).

(** No [null] among the matcher entries of the document. *)
Definition no_null_entry (d : json) : Prop :=
  match d with
  | JObj ms =>
      match assoc "hooks" ms with
      | Some (JObj hs) => null_free hs
      | _ => True
      end
  | _ => True
  end.

End HookShapes.

(* ===================================================================== *)
(** ** Permission rules of the settings files *)
(* ===================================================================== *)

Module PermissionsFs.
Import Js Fs.
Import Permissions (jsstring, js, parsePermissionPattern).

Inductive RuleType := allow | ask | deny.

Record PermissionRule := {
  type : RuleType;
  tool : jsstring;
  pattern : jsstring;
  location : string;
  configPath : path
}.

(** One turn of a loop of [parsePermissions]: [pattern.match] exists on
    a string only, so any other entry throws. *)
Definition rule_of (ty : RuleType) (loc : string) (configPath : path)
  (pattern : json) : result PermissionRule :=
  match pattern with
  | JStr s =>
      let parsed := parsePermissionPattern (js s) in
      Ok {| type := ty;
            tool := Permissions.tool parsed;
            pattern := Permissions.pattern parsed;
            location := loc;
            configPath := configPath |}
  | _ => Throw TypeError
  end.

Fixpoint rules_of (ty : RuleType) (loc : string) (configPath : path)
  (patterns : list json) : result (list PermissionRule) :=
  match patterns with
  | [] => Ok []
  | pattern :: rest =>
      r ← rule_of ty loc configPath pattern;
      rs ← rules_of ty loc configPath rest;
      Ok (r :: rs)
  end.

(** [if (Array.isArray(v)) { for (const pattern of v) ... }] *)
Definition rules_in (ty : RuleType) (loc : string) (configPath : path)
  (v : value) : result (list PermissionRule) :=
  if isArray v
  then l ← array_items v; rules_of ty loc configPath l
  else Ok [].

(** The body of the [try] of [parsePermissions], after [JSON.parse]. *)
Definition parsePermissions_try (config : json) (loc : string)
  (configPath : path) : result (list PermissionRule) :=
  p ← get_key (Some config) "permissions";
  if negb (truthy p) || negb (typeof_object p) then Ok []
  else
    a ← get_key p "allow";
    allowRules ← rules_in allow loc configPath a;
    k ← get_key p "ask";
    askRules ← rules_in ask loc configPath k;
    d ← get_key p "deny";
    denyRules ← rules_in deny loc configPath d;
    Ok (allowRules ++ askRules ++ denyRules).

Definition fileExists (p : path) : M bool :=
  try_catch (st ← stat p; mret (is_file st)) (fun _ => mret false).

Definition parsePermissions (configPath : path) (loc : string)
  : M (list PermissionRule) :=
  try_catch
    (c ← readFile configPath;
     config ← lift (JSON_parse c);
     lift (parsePermissions_try config loc configPath))
    (fun _ => mret []).

Definition parse_if_exists (configPath : path) (loc : string)
  : M (list PermissionRule) :=
  ex ← fileExists configPath;
  if (ex : bool) then parsePermissions configPath loc else mret [].

(** [process.platform] *)
Inductive Platform := darwin | win32 | linux | other.

Definition getManagedSettingsPaths (platform : Platform) : list path :=
  match platform with
  | darwin => [["Library"; "Application Support"; "ClaudeCode";
                "managed-settings.json"]]
  | win32 => [["C:"; "ProgramData"; "ClaudeCode"; "managed-settings.json"]]
  | linux => [["etc"; "claude-code"; "managed-settings.json"]]
  | other => []
  end.

(** [for (const managedPath of managedPaths) { if (await
    this.fileExists(managedPath)) { ...; break; } }] *)
Fixpoint first_managed (managedPaths : list path) : M (list PermissionRule) :=
  match managedPaths with
  | [] => mret []
  | managedPath :: rest =>
      ex ← fileExists managedPath;
      if (ex : bool) then parsePermissions managedPath "Managed (Enterprise)"
      else first_managed rest
  end.

Definition discoverPermissions (env : Env) (platform : Platform)
  : M (list PermissionRule) :=
  userRules ← parse_if_exists (join (globalClaudePath env) ["settings.json"])
                "User (~/.claude)";
  projectRules ← match workspaceFolder env with
                 | Some ws =>
                     projectRules ← parse_if_exists
                                      (join ws [".claude"; "settings.json"])
                                      "Project (.claude)";
                     localRules ← parse_if_exists
                                    (join ws [".claude"; "settings.local.json"])
                                    "Local (.claude)";
                     mret (projectRules ++ localRules)
                 | None => mret []
                 end;
  managedRules ← first_managed (getManagedSettingsPaths platform);
  mret (userRules ++ projectRules ++ managedRules).

End PermissionsFs.

Module PermissionShapes.
Import Js Fs Permissions.
Import PermissionsFs (PermissionRule, RuleType).

(** The strings of a permission list: nothing for a member that is not
    an array, and [None] when an array holds something that is not a
    string. *)
Fixpoint all_strings (l : list json) : option (list string) :=
  match l with
  | [] => Some []
  | JStr s :: rest => cons s <$> all_strings rest
  | _ :: _ => None
  end.

Definition strings_in (v : value) : option (list string) :=
  match v with
  | Some (JArr l) => all_strings l
  | _ => Some []
  end.

(** The rule a permission string stands for. *)
Definition rule (ty : RuleType) (loc : string) (configPath : path)
  (s : string) : PermissionRule :=
  {| PermissionsFs.type := ty;
     PermissionsFs.tool := tool (parsePermissionPattern (js s));
     PermissionsFs.pattern := pattern (parsePermissionPattern (js s));
     PermissionsFs.location := loc;
     PermissionsFs.configPath := configPath |}.

(** A rule with a pattern, from the file [p] under the label [loc]. *)
Definition sound_rule (p : path) (loc : string) (r : PermissionRule) : Prop :=
  PermissionsFs.pattern r <> []
  /\ PermissionsFs.configPath r = p
  /\ PermissionsFs.location r = loc.

End PermissionShapes.

(* ===================================================================== *)
(** ** Listing the files of a directory *)
(* ===================================================================== *)

Module Listing.
Import Js Fs.
Import FileOps (ClaudeFile, ClaudeFileType, LocationScope, extname,
                COMMANDS_DIR, SKILLS_DIR, AGENTS_DIR, MCP_DIR).
Import Discovery (createClaudeFile).

Definition MARKDOWN_EXTENSIONS : list string := [".md"; ".markdown"].
Definition JSON_EXTENSIONS : list string := [".json"; ".jsonc"].

(** [toLowerCase] on a name of 8-bit code units: the capital letters of
    ASCII and of Latin-1 (all of [À]-[Þ] but the multiplication sign)
    lie 32 below their small letters. *)
Definition lower (c : ascii) : ascii :=
  let n := nat_of_ascii c in
  if Nat.leb 65 n && Nat.leb n 90
     || Nat.leb 192 n && Nat.leb n 222 && negb (Nat.eqb n 215)
  then ascii_of_nat (n + 32)
  else c.

Definition toLowerCase (s : string) : string :=
  string_of_list_ascii (map lower (list_ascii_of_string s)).

(** The entries of directory [p], each with what it is:
    [readdir(p, { withFileTypes: true })]. *)
Definition dirents (t : gmap path node) (p : path) : list (string * node) :=
  omap (fun qn : path * node =>
          match strip_prefix p qn.1 with
          | Some [n] => Some (n, qn.2)
          | _ => None
          end) (map_to_list t).

Definition readdirTypes (p : path) : M (list (string * node)) :=
  syscall (Readdir p)
    (fun t => '(_, t') ← readdir_sem p t; Ok (dirents t p, t')).

Definition fileExists (p : path) : M bool :=
  try_catch (st ← stat p; mret (is_file st)) (fun _ => mret false).

Definition directoryExists (p : path) : M bool :=
  try_catch (st ← stat p; mret (is_dir st)) (fun _ => mret false).

(** [for (const x of l) { out.push(...(await f(x))) }] *)
Fixpoint for_each {A B} (f : A -> M (list B)) (l : list A) : M (list B) :=
  match l with
  | [] => mret []
  | x :: rest =>
      here ← f x;
      more ← for_each f rest;
      mret (here ++ more)
  end.

(** [getFilesInDirectory]. Each recursive call goes one directory
    down, and a tree has finitely many levels: [depth] counts the levels
    the recursion may still descend. *)
Fixpoint getFilesInDirectory_upto (depth : nat) (dirPath : path)
  (extensions : list string) : M (list path) :=
  match depth with
  | 0 => mret []
  | S depth' =>
      try_catch
        (entries ← readdirTypes dirPath;
         for_each
           (fun entry : string * node =>
              let fullPath := join dirPath [entry.1] in
              match entry.2 with
              | File _ =>
                  let ext := toLowerCase (extname entry.1) in
                  if bool_decide (ext ∈ extensions) then mret [fullPath]
                  else mret []
              | Dir => getFilesInDirectory_upto depth' fullPath extensions
              end) entries)
        (fun _ => mret [])
  end.

(** [getFilesAndDirsInDirectory]: a directory is listed itself, before
    what it holds. *)
Fixpoint getFilesAndDirsInDirectory_upto (depth : nat) (dirPath : path)
  (extensions : list string) : M (list (path * bool)) :=
  match depth with
  | 0 => mret []
  | S depth' =>
      try_catch
        (entries ← readdirTypes dirPath;
         for_each
           (fun entry : string * node =>
              let fullPath := join dirPath [entry.1] in
              match entry.2 with
              | File _ =>
                  let ext := toLowerCase (extname entry.1) in
                  if bool_decide (ext ∈ extensions) then mret [(fullPath, false)]
                  else mret []
              | Dir =>
                  subItems ← getFilesAndDirsInDirectory_upto depth' fullPath
                               extensions;
                  mret ((fullPath, true) :: subItems)
              end) entries)
        (fun _ => mret [])
  end.

(** The number of levels of a tree: no path of the tree is longer. *)
Definition levels (t : gmap path node) : nat :=
  max_list (length <$> (map_to_list t).*1).

Definition getFilesInDirectory (dirPath : path) (extensions : list string)
  : M (list path) :=
  fun w => getFilesInDirectory_upto (S (levels (files w))) dirPath extensions w.

Definition getFilesAndDirsInDirectory (dirPath : path)
  (extensions : list string) : M (list (path * bool)) :=
  fun w =>
    getFilesAndDirsInDirectory_upto (S (levels (files w))) dirPath extensions w.

(** One of the two blocks of [discoverFilesInDir]. *)
Definition files_below (dir : path) (fileType : ClaudeFileType)
  (extensions : list string) (sc : LocationScope) (label : string)
  : M (list ClaudeFile) :=
  ex ← directoryExists dir;
  if (ex : bool)
  then found ← getFilesInDirectory dir extensions;
       mret ((fun filePath => createClaudeFile filePath fileType sc label None)
               <$> found)
  else mret [].

Definition discoverFilesInDir (env : Env) (dirName : string)
  (fileType : ClaudeFileType) (extensions : list string) : M (list ClaudeFile) :=
  let globalDir := join (globalClaudePath env) [dirName] in
  globalFiles ← files_below globalDir fileType extensions FileOps.global "Global";
  projectFiles ← match getProjectClaudePath env with
                  | Some projectClaudePath =>
                      let projectDir := join projectClaudePath [dirName] in
                      files_below projectDir fileType extensions
                        FileOps.project "Project"
                  | None => mret []
                  end;
  mret (globalFiles ++ projectFiles).

(** One of the two blocks of [discoverFilesAndDirsInDir]. *)
Definition items_below (dir : path) (fileType : ClaudeFileType)
  (extensions : list string) (sc : LocationScope) (label : string)
  : M (list ClaudeFile) :=
  ex ← directoryExists dir;
  if (ex : bool)
  then found ← getFilesAndDirsInDirectory dir extensions;
       mret ((fun item : path * bool =>
                createClaudeFile item.1 fileType sc label (Some item.2))
               <$> found)
  else mret [].

Definition discoverFilesAndDirsInDir (env : Env) (dirName : string)
  (fileType : ClaudeFileType) (extensions : list string) : M (list ClaudeFile) :=
  let globalDir := join (globalClaudePath env) [dirName] in
  globalItems ← items_below globalDir fileType extensions FileOps.global "Global";
  projectItems ← match getProjectClaudePath env with
                  | Some projectClaudePath =>
                      let projectDir := join projectClaudePath [dirName] in
                      items_below projectDir fileType extensions
                        FileOps.project "Project"
                  | None => mret []
                  end;
  mret (globalItems ++ projectItems).

Definition discoverCommands (env : Env) : M (list ClaudeFile) :=
  discoverFilesAndDirsInDir env COMMANDS_DIR FileOps.command MARKDOWN_EXTENSIONS.

Definition discoverSkills (env : Env) : M (list ClaudeFile) :=
  discoverFilesInDir env SKILLS_DIR FileOps.skill MARKDOWN_EXTENSIONS.

Definition discoverSubAgents (env : Env) : M (list ClaudeFile) :=
  discoverFilesAndDirsInDir env AGENTS_DIR FileOps.subAgent MARKDOWN_EXTENSIONS.

Definition config_if_exists (p : path) (sc : LocationScope) (label : string)
  : M (list ClaudeFile) :=
  ex ← fileExists p;
  mret (if (ex : bool) then [createClaudeFile p FileOps.mcp sc label None] else []).

Definition discoverMcpServers (env : Env) : M (list ClaudeFile) :=
  let globalMcpConfig := join (globalClaudePath env) ["mcp_servers.json"] in
  g ← config_if_exists globalMcpConfig FileOps.global "Global";
  p ← match getProjectClaudePath env with
      | Some projectClaudePath =>
          config_if_exists (join projectClaudePath ["mcp_servers.json"])
            FileOps.project "Project"
      | None => mret []
      end;
  mcpDirFiles ← discoverFilesInDir env MCP_DIR FileOps.mcp
                  (MARKDOWN_EXTENSIONS ++ JSON_EXTENSIONS);
  mret (g ++ p ++ mcpDirFiles).

End Listing.

Module ListingShapes.
Import Js Fs Shapes HookShapes Listing.
Import FileOps (extname).

(** Nothing but reads between [w] and [w']: the tree, the failing calls
    and the notices are the same. *)
Definition quiet (w w' : World) : Prop :=
  files w' = files w /\ faults w' = faults w /\ notices w' = notices w
  /\ exists cs, calls w' = calls w ++ cs /\ Forall reads cs.

(** Every directory on the way from [dir] down to the parent of
    [dir ++ rel] is there and can be read. *)
Definition readable_down (t : gmap path node) (fl : list call)
  (dir rel : path) : Prop :=
  forall k, k < length rel ->
    node_at t (dir ++ take k rel) = Some Dir
    /\ Readdir (dir ++ take k rel) ∉ fl.

Definition has_extension (extensions : list string) (q : path) : Prop :=
  toLowerCase (extname (basename q)) ∈ extensions.

(** [q] is a file below [dir] with one of the extensions, and can be
    reached from [dir]. *)
Definition listed (w : World) (dir : path) (extensions : list string)
  (q : path) : Prop :=
  exists rel c,
    q = dir ++ rel /\ rel <> []
    /\ files w !! q = Some (File c)
    /\ has_extension extensions q
    /\ readable_down (files w) (faults w) dir rel.

(** [q] is a directory below [dir] that can be reached from [dir]. *)
Definition listed_dir (w : World) (dir : path) (q : path) : Prop :=
  exists rel,
    q = dir ++ rel /\ rel <> []
    /\ files w !! q = Some Dir
    /\ readable_down (files w) (faults w) dir rel.

(** The same walks on the tree alone. *)
Fixpoint walk (depth : nat) (t : gmap path node) (fl : list call)
  (extensions : list string) (dir : path) : list path :=
  match depth with
  | 0 => []
  | S depth' =>
      if decide (Readdir dir ∈ fl) then []
      else match node_at t dir with
           | Some Dir =>
               dirents t dir ≫= fun entry =>
                 match entry.2 with
                 | File _ =>
                     if bool_decide (toLowerCase (extname entry.1) ∈ extensions)
                     then [dir ++ [entry.1]] else []
                 | Dir => walk depth' t fl extensions (dir ++ [entry.1])
                 end
           | _ => []
           end
  end.

Fixpoint walk_all (depth : nat) (t : gmap path node) (fl : list call)
  (extensions : list string) (dir : path) : list (path * bool) :=
  match depth with
  | 0 => []
  | S depth' =>
      if decide (Readdir dir ∈ fl) then []
      else match node_at t dir with
           | Some Dir =>
               dirents t dir ≫= fun entry =>
                 match entry.2 with
                 | File _ =>
                     if bool_decide (toLowerCase (extname entry.1) ∈ extensions)
                     then [(dir ++ [entry.1], false)] else []
                 | Dir => (dir ++ [entry.1], true)
                          :: walk_all depth' t fl extensions (dir ++ [entry.1])
                 end
           | _ => []
           end
  end.

(** The piece of the walk that comes from one entry. *)
Definition piece (depth : nat) (t : gmap path node) (fl : list call)
  (exts : list string) (dir : path) (entry : string * node)
  : list (path * bool) :=
  match entry.2 with
  | File _ =>
      if bool_decide (toLowerCase (extname entry.1) ∈ exts)
      then [(dir ++ [entry.1], false)] else []
  | Dir => (dir ++ [entry.1], true)
           :: walk_all depth t fl exts (dir ++ [entry.1])
  end.

End ListingShapes.

(* ===================================================================== *)
(** ** The hooks tree *)
(* ===================================================================== *)

Module HooksTree.
Import Js Hooks Fs.

(** A [Map] from keys to arrays, filled by
    [if (!map.has(k)) map.set(k, []); map.get(k).push(x)]: the keys stay
    in the order in which they first came. *)
Fixpoint add_to_group {K A} `{EqDecision K} (k : K) (x : A)
  (groups : list (K * list A)) : list (K * list A) :=
  match groups with
  | [] => [(k, [x])]
  | (k', xs) :: rest =>
      if decide (k = k') then (k', xs ++ [x]) :: rest
      else (k', xs) :: add_to_group k x rest
  end.

Definition group_by {K A} `{EqDecision K} (key : A -> K) (l : list A)
  : list (K * list A) :=
  foldl (fun groups x => add_to_group (key x) x groups) [] l.

(** [countHooks] *)
Definition countHooks (configs : list HookConfiguration) : nat :=
  foldl (fun count config =>
           foldl (fun count matcher => count + length (hooks matcher))
             count (matchers config))
    0 configs.

(** What a hook item of the tree carries for the commands
    ([hookData]). *)
Record HookData := {
  d_configPath : path;
  d_eventType : string;
  d_matcherIndex : nat;
  d_hookIndex : nat;
  d_hook : json
}.

(** The items of the tree, each with the count its label shows. *)
Record MatcherItem := {
  m_matcher : json;            (* matcher.matcher || '*' *)
  m_count : nat;               (* matcher.hooks.length *)
  m_children : list HookData
}.

Record EventItem := {
  e_eventType : string;
  e_count : nat;               (* countHooks(eventConfigs) *)
  e_children : list MatcherItem
}.

Record LocationItem := {
  l_location : string;
  l_count : nat;               (* countHooks(configs) *)
  l_children : list EventItem
}.

(** Whether [String(v)], and so a template literal, returns on a
    parsed value. Nothing in a parsed document is a function: an object
    with a member [toString] has no method to convert it, and the
    conversion throws a [TypeError]; any other object gives
    ["[object Object]"]. An array joins the conversions of its
    elements. *)
Fixpoint stringable (v : json) : bool :=
  match v with
  | JArr items => forallb stringable items
  | JObj members =>
      match assoc "toString" members with
      | Some _ => false
      | None => true
      end
  | _ => true
  end.

(** [`${v}`] *)
Definition shown (v : value) : result unit :=
  match v with
  | Some x => if stringable x then Ok tt else Throw TypeError
  | None => Ok tt
  end.

(** [v.length] for a value that is not a string. *)
Definition length_of (v : json) : value :=
  match v with
  | JArr items => Some (JNum (Z.of_nat (length items)))
  | JObj members => assoc "length" members
  | _ => None
  end.

(** [v > 50]. [undefined], [null], booleans and objects do not exceed
    50; an object is first converted like a string. [exceeds] stands
    for the comparison on a string or on an array, which goes through
    the number the text reads as. *)
Definition exceeds_fifty (exceeds : json -> bool) (v : value) : result bool :=
  match v with
  | None | Some JNull | Some (JBool _) => Ok false
  | Some (JNum n) => Ok (50 <? n)%Z
  | Some (JStr s) => Ok (exceeds (JStr s))
  | Some (JArr items) =>
      if stringable (JArr items) then Ok (exceeds (JArr items))
      else Throw TypeError
  | Some (JObj members) =>
      if stringable (JObj members) then Ok false else Throw TypeError
  end.

(** [c.length > 50 ? c.substring(0, 50) + '...' : c] for a truthy [c]:
    only a string has [substring]. *)
Definition preview (exceeds : json -> bool) (c : json) : result unit :=
  match c with
  | JStr _ => Ok tt
  | _ =>
      long ← exceeds_fifty exceeds (length_of c);
      if (long : bool) then Throw TypeError else Ok tt
  end.

(** [matcher.matcher || '*'] *)
Definition matcher_label (matcher : HookMatcher) : json :=
  if truthy (Hooks.matcher matcher)
  then default (JStr "*") (Hooks.matcher matcher)
  else JStr "*".

(** [createHookItem]: the reads and conversions that may throw, and the
    [hookData] of the item. *)
Definition createHookItem (exceeds : json -> bool) (hook : json)
  (hookIndex : nat) (config : HookConfiguration) (matcher : HookMatcher)
  (matcherIndex : nat) : result HookData :=
  ty ← get_key (Some hook) "type";
  command ← get_key (Some hook) "command";
  prompt ← get_key (Some hook) "prompt";
  timeout ← get_key (Some hook) "timeout";
  (* preview and label *)
  _ ← (if truthy command
       then _ ← preview exceeds (default JNull command); shown command
       else if truthy prompt
            then _ ← preview exceeds (default JNull prompt); shown prompt
            else Ok tt);
  (* description *)
  _ ← (if truthy timeout then shown timeout else Ok tt);
  (* tooltip *)
  _ ← shown ty;
  _ ← shown (Some (matcher_label matcher));
  _ ← (if truthy command then shown command else Ok tt);
  _ ← (if truthy prompt then shown prompt else Ok tt);
  _ ← (if truthy timeout then shown timeout else Ok tt);
  Ok {| d_configPath := configPath config;
        d_eventType := eventType config;
        d_matcherIndex := matcherIndex;
        d_hookIndex := hookIndex;
        d_hook := hook |}.

(** [for (const x of l) { out.push(f(x)) }] and [l.map((x, i) => f(i, x))],
    where [f] may throw. *)
Fixpoint each {A B} (f : A -> result B) (l : list A) : result (list B) :=
  match l with
  | [] => Ok []
  | x :: rest => y ← f x; ys ← each f rest; Ok (y :: ys)
  end.

Fixpoint each_from {A B} (f : nat -> A -> result B) (i : nat) (l : list A)
  : result (list B) :=
  match l with
  | [] => Ok []
  | x :: rest => y ← f i x; ys ← each_from f (S i) rest; Ok (y :: ys)
  end.

(** The items of one configuration. [index] is
    [eventConfigs.indexOf(config)]: the configurations are distinct
    objects, so this is the position of [config] in the loop over
    [eventConfigs]. *)
Definition matcher_items (exceeds : json -> bool) (index : nat)
  (config : HookConfiguration) : result (list MatcherItem) :=
  each (fun matcher =>
          _ ← shown (Some (matcher_label matcher));
          children ← each_from
                       (fun hookIndex hook =>
                          createHookItem exceeds hook hookIndex config matcher
                            index)
                       0 (hooks matcher);
          Ok {| m_matcher := matcher_label matcher;
                m_count := length (hooks matcher);
                m_children := children |})
    (matchers config).

Definition event_item (exceeds : json -> bool)
  (group : string * list HookConfiguration) : result EventItem :=
  children ← each_from (matcher_items exceeds) 0 group.2;
  Ok {| e_eventType := group.1;
        e_count := countHooks group.2;
        e_children := mjoin children |}.

Definition location_item (exceeds : json -> bool)
  (group : string * list HookConfiguration) : result LocationItem :=
  children ← each (event_item exceeds) (group_by eventType group.2);
  Ok {| l_location := group.1;
        l_count := countHooks group.2;
        l_children := children |}.

(** The location items of [HooksTreeProvider.getChildren]. *)
Definition hook_tree (exceeds : json -> bool)
  (hookConfigs : list HookConfiguration) : result (list LocationItem) :=
  each (location_item exceeds) (group_by location hookConfigs).

(** What [getChildren] returns at the root. *)
Inductive Roots :=
  | NoHooks                              (* 'No hooks configured' *)
  | Locations (items : list LocationItem).

(** [getChildren] at the root. There is no [try]: what [createHookItem]
    throws rejects the promise. *)
Definition getChildren (exceeds : json -> bool) (env : Env) : M Roots :=
  hookConfigs ← HooksFs.discoverHooks env;
  if Nat.eqb (length hookConfigs) 0 then mret NoHooks
  else tree ← lift (hook_tree exceeds hookConfigs); mret (Locations tree).

(** All the hook items of the tree. *)
Definition hook_items (tree : list LocationItem) : list HookData :=
  tree ≫= fun li => l_children li ≫= fun ei => e_children ei ≫= m_children.

End HooksTree.

Module TreeShapes.
Import Js Hooks Fs HooksTree.

(** The number of hooks of a configuration. *)
Definition hooks_in (config : HookConfiguration) : nat :=
  sum_list ((fun matcher => length (hooks matcher)) <$> matchers config).

(** The event types of the [hooks] member of a settings document are
    distinct, as they are in every result of [JSON.parse]. *)
Definition distinct_events (d : json) : Prop :=
  match d with
  | JObj ms =>
      match assoc "hooks" ms with
      | Some (JObj hs) => NoDup hs.*1
      | _ => True
      end
  | _ => True
  end.

(** The tree the code builds when nothing throws. *)
Definition item_of (hook : json) (hookIndex : nat) (config : HookConfiguration)
  (matcherIndex : nat) : HookData :=
  {| d_configPath := configPath config;
     d_eventType := eventType config;
     d_matcherIndex := matcherIndex;
     d_hookIndex := hookIndex;
     d_hook := hook |}.

Definition matcher_items_of (index : nat) (config : HookConfiguration)
  : list MatcherItem :=
  (fun matcher =>
     {| m_matcher := matcher_label matcher;
        m_count := length (hooks matcher);
        m_children := imap (fun hookIndex hook =>
                              item_of hook hookIndex config index)
                        (hooks matcher) |})
    <$> matchers config.

Definition event_item_of (group : string * list HookConfiguration) : EventItem :=
  {| e_eventType := group.1;
     e_count := countHooks group.2;
     e_children := mjoin (imap matcher_items_of group.2) |}.

Definition location_item_of (group : string * list HookConfiguration)
  : LocationItem :=
  {| l_location := group.1;
     l_count := countHooks group.2;
     l_children := event_item_of <$> group_by eventType group.2 |}.

Definition tree_of (hookConfigs : list HookConfiguration)
  : list LocationItem :=
  location_item_of <$> group_by location hookConfigs.

(** A value that is absent or is [null], a boolean, a number or a
    string. *)
Definition scalar (v : value) : bool :=
  match v with
  | Some (JArr _) | Some (JObj _) => false
  | _ => true
  end.

(** A hook as the settings files hold them: an object whose [type],
    [command], [prompt] and [timeout], where present, are scalars. *)
Definition plain_hook (hook : json) : bool :=
  match hook with
  | JObj es =>
      scalar (assoc "type" es) && scalar (assoc "command" es)
      && scalar (assoc "prompt" es) && scalar (assoc "timeout" es)
  | _ => false
  end.

(** A matcher entry with a scalar matcher and plain hooks. *)
Definition plain_matcher (m : HookMatcher) : Prop :=
  scalar (matcher m) = true /\ Forall (fun h => plain_hook h = true) (hooks m).

(** The hook items below the roots. *)
Definition root_items (roots : Roots) : list HookData :=
  match roots with
  | NoHooks => []
  | Locations tree => hook_items tree
  end.

End TreeShapes.

(* ===================================================================== *)
(** ** The permissions tree *)
(* ===================================================================== *)

Module PermissionsTree.
Import Js Fs Permissions HooksTree.
Import PermissionsFs (PermissionRule, RuleType, allow, ask, deny, Platform,
                      discoverPermissions).

(** The items of the permissions tree, each with the count its label
    shows. *)
Record RuleItem := {
  r_label : jsstring;          (* rule.pattern *)
  r_description : string;      (* rule.location *)
  r_argument : path            (* command.arguments[0] *)
}.

Record ToolItem := {
  t_tool : jsstring;
  t_count : nat;               (* toolRules.length *)
  t_children : list RuleItem
}.

Record TypeItem := {
  h_type : RuleType;
  h_count : nat;               (* allowRules.length, ... *)
  h_children : list ToolItem
}.

Definition createPermissionItem (rule : PermissionRule) : RuleItem :=
  {| r_label := PermissionsFs.pattern rule;
     r_description := PermissionsFs.location rule;
     r_argument := PermissionsFs.configPath rule |}.

(** The label of a tool group, on which the groups are sorted. *)
Definition tool_label (item : ToolItem) : jsstring :=
  t_tool item ++ js (" (" +:+ pretty (t_count item) +:+ ")").

(** [groupRulesByTool]. [sort] stands for
    [toolItems.sort((a, b) => a.label.localeCompare(b.label))], whose
    order is that of the locale. *)
Definition groupRulesByTool (sort : list ToolItem -> list ToolItem)
  (rules : list PermissionRule) : list ToolItem :=
  sort ((fun group : jsstring * list PermissionRule =>
           {| t_tool := group.1;
              t_count := length group.2;
              t_children := createPermissionItem <$> group.2 |})
          <$> group_by PermissionsFs.tool rules).

Definition rule_type_eqb (a b : RuleType) : bool :=
  match a, b with
  | allow, allow | ask, ask | deny, deny => true
  | _, _ => false
  end.

(** One of the three sections of [getChildren]. *)
Definition type_section (sort : list ToolItem -> list ToolItem)
  (ty : RuleType) (rules : list PermissionRule) : list TypeItem :=
  let typeRules := List.filter (fun r => rule_type_eqb (PermissionsFs.type r) ty)
                     rules in
  if Nat.ltb 0 (length typeRules)
  then [{| h_type := ty;
           h_count := length typeRules;
           h_children := groupRulesByTool sort typeRules |}]
  else [].

(** What [getChildren] returns at the root. *)
Inductive Roots :=
  | NoPermissions                        (* 'No permissions configured' *)
  | Sections (items : list TypeItem).

Definition getChildren (sort : list ToolItem -> list ToolItem)
  (env : Env) (platform : Platform) : M Roots :=
  rules ← discoverPermissions env platform;
  if Nat.eqb (length rules) 0 then mret NoPermissions
  else mret (Sections (type_section sort allow rules
                       ++ type_section sort ask rules
                       ++ type_section sort deny rules)).

(** The rule items below the roots. *)
Definition rule_items (roots : Roots) : list RuleItem :=
  match roots with
  | NoPermissions => []
  | Sections items => items ≫= fun h => h_children h ≫= t_children
  end.

End PermissionsTree.

Module PermissionTreeShapes.
Import Js Fs Permissions PermissionsTree.
Import PermissionsFs (PermissionRule, RuleType).

(** The rules of one type, in the order of the list. *)
Definition rules_of_type (ty : RuleType) (rules : list PermissionRule)
  : list PermissionRule :=
  List.filter (fun r => rule_type_eqb (PermissionsFs.type r) ty) rules.

(** A tool group shows the rules of its tool among [typeRules], in
    their order, and their number. *)
Definition group_shows (typeRules : list PermissionRule) (item : ToolItem)
  : Prop :=
  t_children item
  = createPermissionItem
      <$> filter (fun r => PermissionsFs.tool r = t_tool item) typeRules
  /\ t_count item = length (t_children item)
  /\ 0 < t_count item.

(** A section shows the rules of its type: their number, and one group
    for each of their tools. *)
Definition section_shows (rules : list PermissionRule) (h : TypeItem) : Prop :=
  let typeRules := rules_of_type (h_type h) rules in
  h_count h = length typeRules
  /\ 0 < h_count h
  /\ h_count h = sum_list (t_count <$> h_children h)
  /\ NoDup (t_tool <$> h_children h)
  /\ (forall r, r ∈ typeRules -> PermissionsFs.tool r ∈ t_tool <$> h_children h)
  /\ Forall (group_shows typeRules) (h_children h).

End PermissionTreeShapes.

(* ===================================================================== *)
(** ** Further examples *)
(* ===================================================================== *)

Module MoreExamples.
Import Js Fs Hooks Examples.

Definition edit_entry : json :=
  JObj [("matcher", JStr "Edit"); ("hooks", JArr [hook_json check_hook])].

(** Two matcher entries under [PreToolUse]. *)
Definition two_matchers_doc : json :=
  JObj [("hooks", JObj [("PreToolUse", JArr [bash_entry; edit_entry])])].

(** An event type that holds a string in place of its array, beside a
    well-formed one. *)
Definition mixed_doc : json :=
  JObj [("hooks", JObj [("Stop", JStr "oops");
                        ("PreToolUse", JArr [bash_entry])])].

(** Permissions with two rules to allow and one to deny. *)
Definition permissions_doc : json :=
  JObj [("permissions",
         JObj [("allow", JArr [JStr "Bash(npm run test:*)"; JStr "Read"]);
               ("deny", JArr [JStr "WebFetch"])])].

Definition after_update : World :=
  snd (HooksFs.updateHook settings_path PreToolUse 0 0 check_hook
         (world_with one_hook_doc)).

(** What [discoverHooks] finds in the file with two matcher entries. *)
Definition two_matchers_found : list HookConfiguration :=
  match fst (HooksFs.discoverHooks env (world_with two_matchers_doc)) with
  | Ok cs => cs
  | Throw _ => []
  end.

Definition after_discovery : World :=
  snd (HooksFs.discoverHooks env (world_with two_matchers_doc)).

(** A [null] where a hook is expected. *)
Definition null_hook_doc : json :=
  JObj [("hooks", JObj [("PreToolUse",
                         JArr [JObj [("matcher", JStr "Bash");
                                     ("hooks", JArr [JNull])]])])].

(** The root of the hooks view on that file, no string or array
    counting as more than 50. *)
Definition two_matchers_roots : HooksTree.Roots :=
  match fst (HooksTree.getChildren (fun _ => false) env
               (world_with two_matchers_doc)) with
  | Ok roots => roots
  | Throw _ => HooksTree.NoHooks
  end.

(** A project with one command, and a global root. *)
Definition deploy_command : FileOps.ClaudeFile :=
  claude_file ["w"; ".claude"; "commands"; "deploy.md"] FileOps.command
    FileOps.project.

Definition project_world : World :=
  initial (list_to_map [(["home"], Dir); (["home"; ".claude"], Dir);
                        (["w"], Dir); (["w"; ".claude"], Dir);
                        (["w"; ".claude"; "commands"], Dir);
                        (["w"; ".claude"; "commands"; "deploy.md"],
                         File (Text "run"))]) [].


Definition after_rename : World :=
  snd (FileOps.renameFile deploy_command (Some "release") project_world).

(** The folder of a skill. *)
Definition review_folder : FileOps.ClaudeFile :=
  claude_file ["home"; ".claude"; "skills"; "review"] FileOps.skill
    FileOps.global.

Definition after_create : World :=
  snd (FileOps.createFile env FileOps.command FileOps.global ["deploy.md"]
         (Text "run") None false home_world).

Definition after_folder : World :=
  snd (FileOps.createFolder env FileOps.command FileOps.global (Some "tools")
         home_world).

End MoreExamples.

(* ===================================================================== *)
(** * Properties *)
(* ===================================================================== *)

Module PermissionsFacts.
Import Permissions Shapes.

Example parse_bash :
  parsePermissionPattern (js "Bash(rm -rf /)")
  = {| tool := js "Bash"; pattern := js "rm -rf /" |}.
Proof. reflexivity. Qed.

Example parse_mcp :
  parsePermissionPattern (js "mcp__github__list") 
  = {| tool := js "mcp__github__list"; pattern := js "*" |}.
Proof. reflexivity. Qed.

Lemma word_not_delim c : is_word c = true -> is_delim c = false.
Proof.
  unfold is_word, is_delim, LPAREN, COLON. intros H.
  destruct (N.eqb_spec c 40) as [->|]; [discriminate H|].
  destruct (N.eqb_spec c 58) as [->|]; [discriminate H|].
  reflexivity.
Qed.

Lemma first_success_app l1 l2 :
  first_success (l1 ++ l2)
  = match first_success l1 with
    | Some m => Some m
    | None => first_success l2
    end.
Proof.
  induction l1 as [|wr l1 IH]; simpl; [reflexivity|].
  destruct (after_word wr); [reflexivity|exact IH].
Qed.

Lemma after_word_cons c w r :
  after_word (c :: w, r)
  = option_map (fun m => (c :: fst m, snd m)) (after_word (w, r)).
Proof.
  unfold after_word; simpl. destruct r as [|d r]; [reflexivity|].
  destruct (is_delim d); [|reflexivity].
  destruct (lazy_group r); reflexivity.
Qed.

Lemma first_success_map_cons c l :
  first_success (map (fun wr => (c :: fst wr, snd wr)) l)
  = option_map (fun m => (c :: fst m, snd m)) (first_success l).
Proof.
  induction l as [|[w r] l IH]; simpl; [reflexivity|].
  rewrite after_word_cons.
  destruct (after_word (w, r)); simpl; [reflexivity|exact IH].
Qed.

Lemma after_word_starts_word w c r :
  is_word c = true -> after_word (w, c :: r) = None.
Proof.
  intros H. unfold after_word; simpl. now rewrite (word_not_delim _ H).
Qed.

(** The greedy first group ends up on the whole run of word characters:
    every shorter choice is followed by a word character, which is no
    delimiter. *)
Lemma regex_match_run (T rest : jsstring) :
  Forall (fun c => is_word c = true) T ->
  run_ends rest ->
  regex_match (T ++ rest)
  = match T with
    | [] => None
    | _ => after_word (T, rest)
    end.
Proof.
  unfold regex_match. intros HT Hrest.
  induction HT as [|c T Hc HT IH]; simpl.
  - destruct rest as [|d r]; simpl; [reflexivity|].
    simpl in Hrest. now rewrite Hrest.
  - rewrite Hc, first_success_app, first_success_map_cons, IH.
    destruct T as [|c' T']; cbn [option_map first_success app].
    + now destruct (after_word ([c], rest)).
    + rewrite (after_word_cons c (c' :: T') rest).
      destruct (after_word (c' :: T', rest)) as [[w g]|];
        cbn [option_map]; [reflexivity|].
      inversion HT; subst.
      now rewrite after_word_starts_word.
Qed.

Lemma lazy_group_closed (P : jsstring) :
  Forall (fun c => is_line_terminator c = false) P ->
  lazy_group (P ++ [RPAREN]) = Some P.
Proof.
  induction 1 as [|c P Hc HP IH]; [reflexivity|].
  cbn [app lazy_group]. rewrite Hc, IH.
  destruct P; reflexivity.
Qed.

Lemma lazy_group_open (P : jsstring) :
  Forall (fun c => is_line_terminator c = false) P ->
  last P <> Some RPAREN ->
  lazy_group P = Some P.
Proof.
  induction 1 as [|c P Hc HP IH]; intros Hlast; [reflexivity|].
  cbn [lazy_group]. rewrite Hc.
  destruct P as [|c' P'].
  - simpl. destruct (N.eqb_spec c RPAREN) as [->|]; [now elim Hlast|reflexivity].
  - cbn [at_end]. rewrite IH; [reflexivity|exact Hlast].
Qed.

Lemma lazy_group_prefix (r g : jsstring) :
  lazy_group r = Some g -> r = g \/ r = g ++ [RPAREN].
Proof.
  revert g. induction r as [|c r IH]; intros g; cbn [lazy_group].
  - simpl. intros [= <-]. now left.
  - destruct (at_end (c :: r)) eqn:E.
    + intros [= <-]. right. simpl in E. destruct r; [|discriminate].
      apply N.eqb_eq in E. now subst.
    + destruct (is_line_terminator c); [discriminate|].
      destruct (lazy_group r) as [g'|]; [|discriminate].
      intros [= <-]. destruct (IH g' eq_refl) as [->| ->]; [now left|now right].
Qed.

Lemma no_delim_no_match (s : jsstring) :
  Forall (fun c => is_delim c = false) s -> regex_match s = None.
Proof.
  unfold regex_match. induction 1 as [|c s Hc Hs IH]; simpl; [reflexivity|].
  destruct (is_word c); [|reflexivity].
  rewrite first_success_app, first_success_map_cons, IH. simpl.
  unfold after_word; simpl. destruct Hs as [|d s' Hd _]; [reflexivity|].
  now rewrite Hd.
Qed.

Lemma delim_not_word d : is_delim d = true -> is_word d = false.
Proof.
  intros H. destruct (is_word d) eqn:E; [|reflexivity].
  now rewrite (word_not_delim _ E) in H.
Qed.

(** What a match looks like: a run of word characters, a delimiter, and
    a rest of which the second group is all, or all but a closing
    parenthesis. *)
Lemma regex_match_shape (s w g : jsstring) :
  regex_match s = Some (w, g) ->
  exists d r, s = w ++ d :: r /\ w <> [] /\ is_delim d = true
              /\ (r = g \/ r = g ++ [RPAREN]).
Proof.
  unfold regex_match.
  assert (G : forall l, first_success l = Some (w, g) ->
              exists wr, In wr l /\ after_word wr = Some (w, g)).
  { induction l as [|wr l IH]; simpl; [discriminate|].
    destruct (after_word wr) eqn:E.
    - intros [= ->]. exists wr. auto.
    - intros H. destruct (IH H) as (wr' & ? & ?). exists wr'. auto. }
  assert (W : forall s wr, In wr (word_prefixes s) ->
              fst wr <> [] /\ s = fst wr ++ snd wr).
  { clear. induction s as [|c s IH]; simpl; [tauto|].
    destruct (is_word c); simpl; [|tauto].
    intros wr Hin. apply in_app_or in Hin as [Hin|[<-|[]]].
    - apply in_map_iff in Hin as ([w r] & <- & Hin). simpl.
      destruct (IH _ Hin) as [_ ->]. split; [discriminate|reflexivity].
    - split; [discriminate|reflexivity]. }
  intros H. destruct (G _ H) as ([w' rest] & Hin & Haw).
  destruct (W _ _ Hin) as [Hne ->]. simpl in *.
  unfold after_word in Haw; simpl in Haw.
  destruct rest as [|d r]; [discriminate|].
  destruct (is_delim d) eqn:Hd; [|discriminate].
  destruct (lazy_group r) as [g'|] eqn:Hg; [|discriminate].
  injection Haw as -> ->.
  exists d, r. repeat split; auto. now apply lazy_group_prefix.
Qed.

Lemma or_star_nonempty (g : jsstring) : g <> [] -> or_star g = g.
Proof. destruct g; [congruence|reflexivity]. Qed.

Lemma parse_after_word (T rest : jsstring) (g : jsstring) :
  T <> [] ->
  Forall (fun c => is_word c = true) T ->
  run_ends rest ->
  after_word (T, rest) = Some (T, g) ->
  parsePermissionPattern (T ++ rest) = {| tool := T; pattern := or_star g |}.
Proof.
  intros Hne HT Hrest Haw. unfold parsePermissionPattern.
  rewrite regex_match_run by assumption.
  destruct T; [congruence|]. now rewrite Haw.
Qed.

Lemma word_prefixes_word (s : jsstring) wr :
  In wr (word_prefixes s) -> Forall (fun c => is_word c = true) (fst wr).
Proof.
  revert wr. induction s as [|c s IH]; simpl; [tauto|].
  destruct (is_word c) eqn:Hc; simpl; [|tauto].
  intros wr Hin. apply in_app_or in Hin as [Hin|[<-|[]]].
  - apply in_map_iff in Hin as ([w r] & <- & Hin). simpl.
    constructor; [assumption|]. exact (IH _ Hin).
  - simpl. now repeat constructor.
Qed.

Lemma first_success_In (l : list (jsstring * jsstring)) m :
  first_success l = Some m -> exists wr, In wr l /\ after_word wr = Some m.
Proof.
  induction l as [|wr l IH]; simpl; [discriminate|].
  destruct (after_word wr) eqn:E.
  - intros [= ->]. exists wr. auto.
  - intros H. destruct (IH H) as (wr' & ? & ?). exists wr'. auto.
Qed.

(** The lazy second group on a rest without line terminators is the
    rest less a closing parenthesis at its end; a line terminator in the
    rest makes the match fail. *)
Lemma lazy_group_spec (r : jsstring) :
  lazy_group r
  = if forallb (fun c => negb (is_line_terminator c)) r
    then Some (without_closing r) else None.
Proof.
  induction r as [|c r IH]; [reflexivity|].
  cbn [lazy_group forallb]. destruct r as [|c' r'].
  - cbn [at_end forallb]. unfold without_closing. cbn [last removelast].
    destruct (N.eqb_spec c RPAREN) as [->|Hc]; [reflexivity|].
    cbn [lazy_group at_end option_map].
    destruct (is_line_terminator c); reflexivity.
  - cbn [at_end]. rewrite IH.
    destruct (is_line_terminator c); [reflexivity|]. cbn [negb andb].
    destruct (forallb _ (c' :: r')); [|reflexivity].
    cbn [option_map]. f_equal. unfold without_closing.
    change (last (c :: c' :: r')) with (last (c' :: r')).
    destruct (last (c' :: r')) as [x|]; [|reflexivity].
    destruct (x =? RPAREN)%N; reflexivity.
Qed.

Lemma without_closing_no_terminator (r : jsstring) :
  forallb (fun c => negb (is_line_terminator c)) r = true ->
  Forall (fun c => is_line_terminator c = false) (without_closing r).
Proof.
  intros H. assert (Hr : Forall (fun c => is_line_terminator c = false) r).
  { apply Forall_forall. intros c Hc.
    rewrite forallb_forall in H. apply list_elem_of_In in Hc.
    specialize (H _ Hc). now apply negb_true_iff in H. }
  unfold without_closing. destruct (last r) as [x|]; [|assumption].
  destruct (x =? RPAREN)%N; [|assumption].
  clear H. induction Hr as [|c r Hc Hr IH]; [constructor|].
  cbn [removelast]. destruct r; [constructor|]. constructor; assumption.
Qed.

(** A match in full: the first group is a run of word characters that
    a delimiter follows, the second is what comes after the delimiter
    less a closing parenthesis at the end, and holds no line
    terminator. *)
Lemma regex_match_full (s w g : jsstring) :
  regex_match s = Some (w, g) ->
  exists d r, s = w ++ d :: r /\ w <> []
              /\ Forall (fun c => is_word c = true) w
              /\ is_delim d = true
              /\ Forall (fun c => is_line_terminator c = false) r
              /\ g = without_closing r.
Proof.
  unfold regex_match. intros H.
  destruct (first_success_In _ _ H) as ([w' rest] & Hin & Haw).
  pose proof (word_prefixes_word _ _ Hin) as Hw. simpl in Hw.
  assert (W : forall s wr, In wr (word_prefixes s) ->
              fst wr <> [] /\ s = fst wr ++ snd wr).
  { clear. induction s as [|c s IH]; simpl; [tauto|].
    destruct (is_word c); simpl; [|tauto].
    intros wr Hin. apply in_app_or in Hin as [Hin|[<-|[]]].
    - apply in_map_iff in Hin as ([w r] & <- & Hin). simpl.
      destruct (IH _ Hin) as [_ ->]. split; [discriminate|reflexivity].
    - split; [discriminate|reflexivity]. }
  destruct (W _ _ Hin) as [Hne ->]. simpl in *.
  unfold after_word in Haw; simpl in Haw.
  destruct rest as [|d r]; [discriminate|].
  destruct (is_delim d) eqn:Hd; [|discriminate].
  rewrite lazy_group_spec in Haw.
  destruct (forallb _ r) eqn:Hr; [|discriminate].
  injection Haw as -> <-.
  exists d, r. split_and!; auto.
  apply Forall_forall. intros c Hc. rewrite forallb_forall in Hr.
  apply list_elem_of_In in Hc. specialize (Hr _ Hc). now apply negb_true_iff in Hr.
Qed.

(** C4, as the code has it: for a tool name [T] of one or more word
    characters and a non-empty pattern [P] free of line terminators,
    [T(P)] parses to [(T, P)], and so does [T:P] unless [P] ends in a
    closing parenthesis; an empty pattern gives ["*"]; a string with
    neither ["("] nor [":"] parses to itself with pattern ["*"]; the
    function is total, and every result other than the whole string with
    ["*"] comes from an input that starts with a run of word characters
    and a delimiter: the tool is that run, and the pattern is what
    follows the delimiter, which holds no line terminator, less a
    closing parenthesis at its end (["*"] if that is empty). Conversely
    every input of this shape is parsed so, and one with a line
    terminator after the delimiter is kept whole. *)
Theorem C4_parse_shapes (T P : jsstring) :
  T <> [] ->
  Forall (fun c => is_word c = true) T ->
  Forall (fun c => is_line_terminator c = false) P ->
  (P <> [] ->
   parsePermissionPattern (T ++ LPAREN :: P ++ [RPAREN])
   = {| tool := T; pattern := P |})
  /\ (P <> [] -> last P <> Some RPAREN ->
      parsePermissionPattern (T ++ COLON :: P) = {| tool := T; pattern := P |})
  /\ parsePermissionPattern (T ++ [LPAREN; RPAREN]) = {| tool := T; pattern := [STAR] |}
  /\ parsePermissionPattern (T ++ [COLON]) = {| tool := T; pattern := [STAR] |}
  /\ (forall w : jsstring,
        Forall (fun c => is_delim c = false) w ->
        parsePermissionPattern w = {| tool := w; pattern := [STAR] |})
  /\ (forall s : jsstring,
        parsePermissionPattern s = {| tool := s; pattern := [STAR] |}
        \/ exists w d r g,
            s = w ++ d :: r /\ w <> [] /\ is_delim d = true
            /\ (r = g \/ r = g ++ [RPAREN])
            /\ parsePermissionPattern s = {| tool := w; pattern := or_star g |}
            /\ Forall (fun c => is_word c = true) w
            /\ Forall (fun c => is_line_terminator c = false) r
            /\ g = without_closing r)
  /\ (forall (d : N) (r : jsstring),
        is_delim d = true ->
        parsePermissionPattern (T ++ d :: r)
        = if forallb (fun c => negb (is_line_terminator c)) r
          then {| tool := T; pattern := or_star (without_closing r) |}
          else {| tool := T ++ d :: r; pattern := [STAR] |}).
Proof.
  intros Hne HT HP.
  assert (Hopen : forall d r g, is_delim d = true -> lazy_group r = Some g ->
            parsePermissionPattern (T ++ d :: r) = {| tool := T; pattern := or_star g |}).
  { intros d r g Hd Hg. apply parse_after_word; try assumption.
    - simpl. now apply delim_not_word.
    - unfold after_word; simpl. now rewrite Hd, Hg. }
  split_and!.
  - intros HPne. rewrite <- (or_star_nonempty P HPne) at 2.
    apply Hopen; [reflexivity|]. now apply lazy_group_closed.
  - intros HPne Hlast. rewrite <- (or_star_nonempty P HPne) at 2.
    apply Hopen; [reflexivity|]. now apply lazy_group_open.
  - apply (Hopen LPAREN [RPAREN] []); reflexivity.
  - apply (Hopen COLON [] []); reflexivity.
  - intros w Hw. unfold parsePermissionPattern.
    now rewrite no_delim_no_match.
  - intros s. unfold parsePermissionPattern.
    destruct (regex_match s) as [[w g]|] eqn:E; [right|now left].
    destruct (regex_match_shape _ _ _ E) as (d & r & Hs & Hw & Hd & Hr).
    destruct (regex_match_full _ _ _ E) as (d' & r' & Hs' & _ & Hword & _ & Hlt & Hg).
    assert (Heq : d' :: r' = d :: r).
    { rewrite Hs in Hs'. now apply app_inv_head in Hs'. }
    injection Heq as -> ->.
    exists w, d, r, g. split_and!; auto.
  - intros d r Hd.
    destruct (forallb _ r) eqn:Hr.
    + apply Hopen; [assumption|]. now rewrite lazy_group_spec, Hr.
    + unfold parsePermissionPattern.
      rewrite regex_match_run; [|assumption|simpl; now apply delim_not_word].
      destruct T; [congruence|]. unfold after_word. simpl.
      now rewrite Hd, lazy_group_spec, Hr.
Qed.

(** C4 at [Bash(rm -rf /)]. *)
Lemma C4_parse_shapes_witness :
  parsePermissionPattern (js "Bash" ++ LPAREN :: js "rm -rf /" ++ [RPAREN])
  = {| tool := js "Bash"; pattern := js "rm -rf /" |}.
Proof.
  refine (proj1 (C4_parse_shapes (js "Bash") (js "rm -rf /") _ _ _) _).
  - discriminate.
  - repeat constructor.
  - repeat constructor.
  - discriminate.
Defined.

(** C4 as stated fails: a [Tool:pattern] string whose pattern ends in a
    closing parenthesis loses it, and the malformed, unclosed
    [Tool(pattern] is split instead of being kept whole. *)
Lemma C4_counterexample :
  parsePermissionPattern (js "Read:f(x)")
  <> {| tool := js "Read"; pattern := js "f(x)" |}
  /\ parsePermissionPattern (js "Read:f(x)")
     = {| tool := js "Read"; pattern := js "f(x" |}
  /\ parsePermissionPattern (js "Bash(ls")
     <> {| tool := js "Bash(ls"; pattern := js "*" |}
  /\ parsePermissionPattern (js "Bash(ls")
     = {| tool := js "Bash"; pattern := js "ls" |}.
Proof. repeat split; discriminate. Qed.

End PermissionsFacts.

Module JsFacts.
Import Js.

Lemma bind_Ok {A B} (m : result A) (f : A -> result B) (b : B) :
  (m ≫= f) = Ok b -> exists a, m = Ok a /\ f a = Ok b.
Proof. destruct m as [a|e]; simpl; [eauto|discriminate]. Qed.

Lemma assoc_set_eq k v l : assoc k (set_assoc k v l) = Some v.
Proof.
  induction l as [|[k' v'] l IH]; simpl.
  - now rewrite String.eqb_refl.
  - destruct (String.eqb k k') eqn:E; simpl; rewrite ?String.eqb_refl, ?E; auto.
Qed.

Lemma assoc_set_ne k k' v l : k <> k' -> assoc k' (set_assoc k v l) = assoc k' l.
Proof.
  intros Hne. induction l as [|[k0 v0] l IH]; simpl.
  - destruct (String.eqb_spec k' k); [congruence|reflexivity].
  - destruct (String.eqb_spec k k0) as [->|]; simpl.
    + destruct (String.eqb_spec k' k0); [congruence|reflexivity].
    + destruct (String.eqb_spec k' k0); [reflexivity|exact IH].
Qed.

Lemma assoc_del_eq k l : assoc k (del_assoc k l) = None.
Proof.
  induction l as [|[k' v'] l IH]; simpl; [reflexivity|].
  destruct (String.eqb k k') eqn:E; simpl; rewrite ?E; auto.
Qed.

Lemma assoc_del_ne k k' l : k <> k' -> assoc k' (del_assoc k l) = assoc k' l.
Proof.
  intros Hne. induction l as [|[k0 v0] l IH]; simpl; [reflexivity|].
  destruct (String.eqb_spec k k0) as [->|]; simpl.
  - destruct (String.eqb_spec k' k0); [congruence|exact IH].
  - destruct (String.eqb_spec k' k0); [reflexivity|exact IH].
Qed.

Lemma del_set_assoc k v l : del_assoc k (set_assoc k v l) = del_assoc k l.
Proof.
  induction l as [|[k' v'] l IH]; simpl.
  - now rewrite String.eqb_refl.
  - destruct (String.eqb k k') eqn:E; simpl; rewrite ?String.eqb_refl, ?E; auto.
    now rewrite IH.
Qed.




End JsFacts.

Module HooksFacts.
Import Js Hooks Shapes JsFacts.

(** Inverting a successful run of binds. *)
Ltac inv_bind H :=
  let a := fresh "a" in
  let H1 := fresh "H" in
  apply bind_Ok in H as (a & H1 & H).




Lemma get_key_Some v k x :
  get_key v k = Ok (Some x) -> exists ms, v = Some (JObj ms) /\ assoc k ms = Some x.
Proof. destruct v as [[]|]; simpl; intros [=]; eauto. Qed.

Lemma get_idx_Ok v i r :
  get_idx v i = Ok r -> exists x, v = Some x /\ x <> JNull.
Proof. destruct v as [[]|]; simpl; intros [=]; eauto. Qed.

Lemma truthy_Some v : truthy v = true -> exists x, v = Some x.
Proof. destruct v; [eauto|discriminate]. Qed.

(** What the guard of [updateHook] and [deleteHook] has established
    when it lets the operation through. *)
Lemma locate_Some d ev mi hi p :
  locate d ev mi hi = Ok (Some p) ->
  exists ms hs es l x,
    d = JObj ms
    /\ assoc "hooks" ms = Some (JObj hs)
    /\ l_hooks p = JObj hs
    /\ assoc (event_name ev) hs = Some (l_event p)
    /\ get_idx (Some (l_event p)) mi = Ok (Some (l_entry p))
    /\ l_entry p = JObj es
    /\ assoc "hooks" es = Some l
    /\ l_list p = Some l
    /\ get_idx (Some l) hi = Ok (Some x)
    /\ truthy (Some x) = true.
Proof.
  unfold locate. intros H.
  inv_bind H. destruct a as [h|]; [|discriminate].
  destruct (negb (truthy (Some h))); [discriminate|].
  inv_bind H. destruct a as [e|]; [|discriminate].
  destruct (negb (truthy (Some e))); [discriminate|].
  inv_bind H. destruct a as [m|]; [|discriminate].
  destruct (negb (truthy (Some m))); [discriminate|].
  do 2 inv_bind H.
  destruct (truthy a0) eqn:Ht; [|discriminate]. simpl in H.
  injection H as <-. simpl.
  apply get_key_Some in H0 as (ms & [= ->] & Hms).
  apply get_key_Some in H1 as (hs & [= ->] & Hhs).
  destruct (truthy_Some _ Ht) as [x ->].
  destruct (get_idx_Ok _ _ _ H4) as (l & -> & _).
  apply get_key_Some in H3 as (es & [= ->] & Hes).
  exists ms, hs, es, l, x. repeat split; assumption.
Qed.

Lemma locate_addressed d ev mi hi p :
  locate d ev mi hi = Ok (Some p) ->
  exists x, addressed d ev mi hi = Some x /\ truthy (Some x) = true.
Proof.
  intros H. destruct (locate_Some _ _ _ _ _ H)
    as (ms & hs & es & l & x & -> & Hh & Hp & He & Hm & Hes & Hl & Hll & Hx & Ht).
  exists x. split; [|assumption].
  unfold addressed. cbn [mbind result_bind get_key].
  rewrite Hh. cbn [mbind result_bind get_key].
  rewrite He. cbn [mbind result_bind get_key].
  rewrite Hm. cbn [mbind result_bind get_key].
  rewrite Hes. cbn [mbind result_bind get_key].
  rewrite Hl. cbn [mbind result_bind get_key]. now rewrite Hx.
Qed.

Lemma updateHook_doc_addressed d ev mi hi u d' :
  updateHook_doc d ev mi hi u = Ok (Some d') ->
  exists x, addressed d ev mi hi = Some x /\ truthy (Some x) = true.
Proof.
  unfold updateHook_doc. intros H. inv_bind H.
  destruct a as [p|]; [|discriminate]. eauto using locate_addressed.
Qed.

Lemma deleteHook_doc_addressed d ev mi hi d' :
  deleteHook_doc d ev mi hi = Ok (Some d') ->
  exists x, addressed d ev mi hi = Some x /\ truthy (Some x) = true.
Proof.
  unfold deleteHook_doc. intros H. inv_bind H.
  destruct a as [p|]; [|discriminate]. eauto using locate_addressed.
Qed.
End HooksFacts.

Module DeleteFacts.
Import Js Hooks Shapes JsFacts HooksFacts.

Lemma array_items_Ok v l : array_items v = Ok l -> v = Some (JArr l).
Proof. destruct v as [[]|]; simpl; intros [=]; congruence. Qed.


Lemma forallb_assoc (P : json -> bool) k v l :
  forallb (fun kv => P kv.2) l = true -> assoc k l = Some v -> P v = true.
Proof.
  induction l as [|[k' v'] l IH]; simpl; [discriminate|].
  intros [H1 H2]%andb_prop. destruct (String.eqb k k'); [intros [= <-]|]; auto.
Qed.





Lemma set_assoc_not_nil k v l : set_assoc k v l <> [].
Proof. destruct l as [|[k' v'] l]; simpl; [|destruct (String.eqb k k')]; discriminate. Qed.

(** The document [deleteHook] writes, from what its guard located. *)
Lemma deleteHook_doc_Some d ev mi hi d' :
  deleteHook_doc d ev mi hi = Ok (Some d') ->
  exists ms hs E es l x,
    d = JObj ms
    /\ assoc "hooks" ms = Some (JObj hs)
    /\ assoc (event_name ev) hs = Some E
    /\ get_idx (Some E) mi = Ok (Some (JObj es))
    /\ assoc "hooks" es = Some (JArr l)
    /\ l !! hi = Some x
    /\ exists E',
        match delete hi l with
        | [] => exists arr, E = JArr arr /\ E' = JArr (delete mi arr)
        | l' => E' = store_idx E mi (store_key (JObj es) "hooks" (JArr l'))
        end
        /\ let H' := if length_is_zero E'
                     then JObj (del_assoc (event_name ev) hs)
                     else JObj (set_assoc (event_name ev) E' hs) in
           d' = match object_entries H' with
                | [] => JObj (del_assoc "hooks" ms)
                | _ => JObj (set_assoc "hooks" H' ms)
                end.
Proof.
  unfold deleteHook_doc. intros H. inv_bind H.
  destruct a as [p|]; [|discriminate].
  destruct (locate_Some _ _ _ _ _ H0)
    as (ms & hs & es & L & x & -> & Hh & Hp & He & Hm & Hes & Hl & Hll & Hx & Ht).
  destruct p as [ph pe pm pl]; cbn [l_hooks l_event l_entry l_list] in *; subst.
  inv_bind H. apply array_items_Ok in H1 as [= ->].
  inv_bind H. injection H as <-.
  exists ms, hs, pe, es, a, x. repeat split; try assumption.
  - simpl in Hx. now injection Hx.
  - exists a0. split; [|reflexivity].
    destruct (delete hi a) eqn:Hd.
    + inv_bind H1. apply array_items_Ok in H as [= ->]. injection H1 as <-. eauto.
    + now injection H1.
Qed.


(** Whatever the document was, [deleteHook] leaves neither an empty
    [hooks] object nor an empty array for the event type it touched. *)
Lemma deleteHook_doc_local d ev mi hi d' ms' :
  deleteHook_doc d ev mi hi = Ok (Some d') ->
  d' = JObj ms' ->
  assoc "hooks" ms' <> Some (JObj [])
  /\ forall hs', assoc "hooks" ms' = Some (JObj hs') ->
                 assoc (event_name ev) hs' <> Some (JArr []).
Proof.
  intros H ->.
  destruct (deleteHook_doc_Some _ _ _ _ _ H)
    as (ms & hs & E & es & l & x & -> & Hh & He & Hm & Hl & Hx & E' & HE' & Hd').
  cbn zeta in Hd'.
  destruct (length_is_zero E') eqn:Hz; cbn [object_entries] in Hd'.
  - destruct (del_assoc (event_name ev) hs) eqn:Hdel; injection Hd' as ->.
    + rewrite assoc_del_eq. split; [discriminate|discriminate].
    + rewrite assoc_set_eq. split; [discriminate|].
      intros hs' [= <-]. rewrite <- Hdel, assoc_del_eq. discriminate.
  - destruct (set_assoc (event_name ev) E' hs) eqn:Hset; injection Hd' as ->.
    + now apply set_assoc_not_nil in Hset.
    + rewrite assoc_set_eq. split; [discriminate|].
      intros hs' [= <-]. rewrite <- Hset, assoc_set_eq.
      intros [= ->]. discriminate.
Qed.


End DeleteFacts.

Module AddFacts.
Import Js Hooks Shapes JsFacts HooksFacts DeleteFacts.

Lemma has_matcher_get name e :
  has_matcher name e = true ->
  exists es, e = JObj es /\ assoc "matcher" es = Some (JStr name).
Proof.
  destruct e as [| | | | |es]; try discriminate. simpl.
  destruct (assoc "matcher" es) as [[]|] eqn:E; try discriminate.
  intros ->%String.eqb_eq. exists es. split; [reflexivity|exact E].
Qed.

Lemma find_matcher_step name k m rest :
  find_matcher name k (m :: rest)
  = match m with
    | JNull => Throw TypeError
    | _ => if has_matcher name m then Ok (Some (k, m))
           else find_matcher name (S k) rest
    end.
Proof.
  destruct m as [| | | | |es]; try reflexivity.
  simpl. destruct (assoc "matcher" es) as [[]|]; reflexivity.
Qed.

Lemma find_matcher_Some name arr : forall k i e,
  find_matcher name k arr = Ok (Some (i, e)) ->
  k <= i /\ arr !! (i - k) = Some e /\ has_matcher name e = true.
Proof.
  induction arr as [|m rest IH]; intros k i e; [discriminate|].
  rewrite find_matcher_step.
  destruct (has_matcher name m) eqn:Hm.
  - destruct m; try discriminate; intros [= <- <-];
      rewrite Nat.sub_diag; auto.
  - intros H. assert (H' : find_matcher name (S k) rest = Ok (Some (i, e)))
      by (destruct m; try discriminate; exact H).
    destruct (IH _ _ _ H') as (Hle & Hlk & He).
    repeat split; [lia| |assumption].
    replace (i - k) with (S (i - S k)) by lia. exact Hlk.
Qed.

Lemma find_matcher_insert name arr e' : forall k i e,
  find_matcher name k arr = Ok (Some (i, e)) ->
  has_matcher name e' = true ->
  find_matcher name k (<[i - k := e']> arr) = Ok (Some (i, e')).
Proof.
  induction arr as [|m rest IH]; intros k i e; [discriminate|].
  rewrite find_matcher_step. intros H He'.
  destruct (has_matcher name m) eqn:Hm.
  - assert (i = k) as -> by (destruct m; try discriminate; now injection H).
    rewrite Nat.sub_diag.
    change (<[0:=e']> (m :: rest)) with (e' :: rest).
    rewrite find_matcher_step, He'.
    destruct (has_matcher_get _ _ He') as (es & -> & _). reflexivity.
  - assert (H' : find_matcher name (S k) rest = Ok (Some (i, e)))
      by (destruct m; try discriminate; exact H).
    destruct (find_matcher_Some _ _ _ _ _ H') as (Hle & _ & _).
    replace (i - k) with (S (i - S k)) by lia.
    change (<[S (i - S k):=e']> (m :: rest)) with (m :: <[i - S k:=e']> rest).
    rewrite find_matcher_step, Hm.
    destruct m; try discriminate; eapply IH; eauto.
Qed.

Lemma find_matcher_app_new name arr e' : forall k,
  find_matcher name k arr = Ok None ->
  has_matcher name e' = true ->
  find_matcher name k (arr ++ [e']) = Ok (Some (k + length arr, e')).
Proof.
  induction arr as [|m rest IH]; intros k H He'.
  - simpl app. rewrite find_matcher_step, He'. rewrite Nat.add_0_r.
    destruct (has_matcher_get _ _ He') as (es & -> & _). reflexivity.
  - rewrite find_matcher_step in H. simpl app. rewrite find_matcher_step.
    destruct (has_matcher name m) eqn:Hm.
    + destruct m; discriminate.
    + replace (k + length (m :: rest)) with (S k + length rest) by (simpl; lia).
      destruct m; try discriminate; apply IH; assumption.
Qed.

Lemma has_matcher_store_hooks name e v :
  has_matcher name e = true -> has_matcher name (store_key e "hooks" v) = true.
Proof.
  intros H. destruct (has_matcher_get _ _ H) as (es & -> & Hes).
  simpl. rewrite assoc_set_ne by discriminate. rewrite Hes.
  apply String.eqb_refl.
Qed.

Lemma or_init_Ok v holder init x :
  or_init v holder init = Ok x ->
  (v = Some x /\ truthy v = true)
  \/ (truthy v = false /\ x = init /\ assignable holder = Ok tt).
Proof.
  unfold or_init. destruct v as [y|].
  - destruct (truthy (Some y)) eqn:E; [intros [= ->]; auto|].
    destruct (assignable holder) as [[]|]; [|discriminate].
    intros [= <-]. auto.
  - destruct (assignable holder) as [[]|]; [|discriminate].
    intros [= <-]. auto.
Qed.

(** The event array [addHook] starts from, in a regular document on
    which it succeeds, and the document it writes. *)
Lemma addHook_doc_inv d ev name h d1 :
  regular d = true ->
  addHook_doc d ev name h = Ok d1 ->
  exists ms hs arr1,
    d = JObj ms
    /\ d1 = JObj (set_assoc "hooks"
                    (JObj (set_assoc (event_name ev) (JArr arr1) hs)) ms)
    /\ let arr0 := default [] (event_array d ev) in
       match find_matcher name 0 arr0 with
       | Ok (Some (i, e)) =>
           exists l, get_key (Some e) "hooks" = Ok (Some (JArr l))
                     /\ arr1 = <[i := store_key e "hooks"
                                        (JArr (l ++ [hook_json h]))]> arr0
       | Ok None =>
           arr1 = arr0 ++ [JObj [("matcher", JStr name);
                                 ("hooks", JArr [hook_json h])]]
       | Throw _ => False
       end.
Proof.
  intros Hreg. destruct d as [| | | | |ms]; try discriminate.
  unfold addHook_doc. intros H.
  apply bind_Ok in H as (h0 & Hh0 & H). simpl in Hh0. injection Hh0 as <-.
  apply bind_Ok in H as (hooksV & HhooksV & H).
  apply bind_Ok in H as (e0 & He0 & H).
  apply bind_Ok in H as (evV & HevV & H).
  apply bind_Ok in H as (arr & Harr & H).
  apply array_items_Ok in Harr as [= ->].
  apply bind_Ok in H as (found & Hfound & H).
  (* the hooks object *)
  assert (Hhs : exists hs, hooksV = JObj hs
                /\ match assoc "hooks" ms with
                   | Some (JObj hs') => hs' = hs
                   | _ => hs = []
                   end).
  { apply or_init_Ok in HhooksV as [[Hv Ht]|(Ht & -> & _)].
    - simpl in Hreg. rewrite Hv in *.
      destruct hooksV; try discriminate;
        try (simpl in He0; injection He0 as <-;
             apply or_init_Ok in HevV as [[? ?]|(_ & _ & ?)]; discriminate).
      eauto.
    - exists []. split; [reflexivity|].
      destruct (assoc "hooks" ms) as [[]|]; try reflexivity. discriminate. }
  destruct Hhs as (hs & -> & Hhs).
  simpl in He0. injection He0 as <-.
  assert (Hdef : default [] (event_array (JObj ms) ev) = arr).
  { simpl. apply or_init_Ok in HevV as [[Hv Ht]|(Ht & [= <-] & _)].
    - destruct (assoc "hooks" ms) as [[| | | | |hs0]|]; subst; try discriminate.
      now rewrite Hv.
    - destruct (assoc "hooks" ms) as [[| | | | |hs0]|]; subst; try reflexivity.
      destruct (assoc (event_name ev) hs) as [[| | | |l0|]|]; try reflexivity.
      discriminate. }
  exists ms, hs.
  destruct found as [[i m]|].
  - apply bind_Ok in H as (hsv & Hhsv & H).
    apply bind_Ok in H as (l & Hl & H).
    apply array_items_Ok in Hl as ->.
    injection H as <-. eexists. repeat split.
    cbn zeta. rewrite Hdef, Hfound. eauto.
  - apply bind_Ok in H as (hsv & Hhsv & H).
    apply bind_Ok in H as (l & Hl & H).
    simpl in Hhsv. injection Hhsv as <-.
    simpl in Hl. injection Hl as <-. injection H as <-.
    eexists. repeat split. cbn zeta. rewrite Hdef, Hfound.
    replace (length arr) with (length arr + 0) by lia.
    rewrite insert_app_r. reflexivity.
Qed.
(** After a successful [addHook], the entry that holds the new hook is
    the one [find] returns for the matcher string, and the new hook is
    the last of its list. *)
Lemma addHook_doc_entry d ev name h d1 :
  regular d = true ->
  addHook_doc d ev name h = Ok d1 ->
  exists arr1 i e1 l,
    event_array d1 ev = Some arr1
    /\ regular d1 = true
    /\ find_matcher name 0 arr1 = Ok (Some (i, e1))
    /\ get_key (Some e1) "hooks" = Ok (Some (JArr (l ++ [hook_json h])))
    /\ length arr1
       = length (default [] (event_array d ev))
         + match find_matcher name 0 (default [] (event_array d ev)) with
           | Ok None => 1
           | _ => 0
           end.
Proof.
  intros Hreg H.
  destruct (addHook_doc_inv _ _ _ _ _ Hreg H) as (ms & hs & arr1 & -> & -> & Hspec).
  cbn zeta in Hspec.
  set (arr0 := default [] (event_array (JObj ms) ev)) in *.
  assert (Hev : event_array
                  (JObj (set_assoc "hooks"
                           (JObj (set_assoc (event_name ev) (JArr arr1) hs)) ms)) ev
                = Some arr1).
  { simpl. rewrite assoc_set_eq. now rewrite assoc_set_eq. }
  assert (Hr : regular
                 (JObj (set_assoc "hooks"
                          (JObj (set_assoc (event_name ev) (JArr arr1) hs)) ms))
               = true).
  { simpl. now rewrite assoc_set_eq. }
  destruct (find_matcher name 0 arr0) as [[[i e]|]|] eqn:Hf; [| |contradiction].
  - destruct Hspec as (l & Hl & ->).
    destruct (find_matcher_Some _ _ _ _ _ Hf) as (_ & Hlk & He).
    destruct (has_matcher_get _ _ He) as (es & -> & Hes).
    exists (<[i:=store_key (JObj es) "hooks" (JArr (l ++ [hook_json h]))]> arr0),
      i, (store_key (JObj es) "hooks" (JArr (l ++ [hook_json h]))), l.
    repeat split; try assumption.
    + rewrite <- (Nat.sub_0_r i) at 1.
      eapply find_matcher_insert; [exact Hf|].
      now apply has_matcher_store_hooks.
    + simpl. now rewrite assoc_set_eq.
    + rewrite length_insert. lia.
  - subst arr1.
    exists (arr0 ++ [JObj [("matcher", JStr name); ("hooks", JArr [hook_json h])]]),
      (length arr0),
      (JObj [("matcher", JStr name); ("hooks", JArr [hook_json h])]), [].
    repeat split; try assumption.
    + apply (find_matcher_app_new name arr0 _ 0 Hf). simpl.
      apply String.eqb_refl.
    + rewrite length_app. simpl. lia.
Qed.


End AddFacts.

Module DeleteFacts2.
Import Js Hooks Shapes JsFacts HooksFacts DeleteFacts.

Lemma length_is_zero_arr l : length_is_zero (JArr l) = bool_decide (l = []).
Proof. now destruct l. Qed.



End DeleteFacts2.

Module FsFacts.
Import Js Fs Hooks Shapes JsFacts HooksFacts.

(** Unfolding the monad down to case analyses on the calls. *)
Ltac unfold_m :=
  unfold try_catch, throw, lift, notify, stat, access, mkdir, rename, unlink,
    readdir, rmdir, rm, readFile, writeFile, syscall in *;
  unfold mbind, mret, M_bind, M_ret in *.


Lemma readFile_sem_Ok p t c t' :
  readFile_sem p t = Ok (c, t') -> t' = t /\ t !! p = Some (File c).
Proof. unfold readFile_sem. destruct (t !! p) as [[]|]; naive_solver. Qed.

Lemma writeFile_sem_Ok p c t u t' :
  writeFile_sem p c t = Ok (u, t') ->
  t' = <[p := File c]> t /\ node_at t (dirname p) = Some Dir /\ p <> [].
Proof.
  unfold writeFile_sem.
  destruct p; [discriminate|].
  destruct (t !! _) as [[]|]; try discriminate;
    destruct (node_at _ _) as [[]|]; naive_solver.
Qed.

Lemma JSON_parse_Ok c d : JSON_parse c = Ok d -> c = Json d.
Proof. destruct c; naive_solver. Qed.

Lemma node_at_ne (t : gmap path node) (p : path) : p <> [] -> node_at t p = t !! p.
Proof. now destruct p. Qed.

Lemma node_at_file t p c : node_at t p = Some (File c) -> t !! p = Some (File c).
Proof. destruct p; [discriminate|auto]. Qed.


Ltac no_write :=
  let q := fresh "q" in
  let Hq := fresh "Hq" in
  intros q Hq;
  repeat (apply elem_of_cons in Hq as [Hq|Hq]; [discriminate|]);
  now apply elem_of_nil in Hq.

Lemma mkdir_from_spec todo : forall base t t',
  mkdir_from base todo t = Ok t' ->
  forall q, t' !! q = t !! q
            \/ (t !! q = None /\ t' !! q = Some Dir /\ q `prefix_of` base ++ todo).
Proof.
  induction todo as [|n rest IH]; intros base t t'; simpl.
  - intros [= <-] q. now left.
  - destruct (t !! (base ++ [n])) as [[c|]|] eqn:E; [discriminate| |].
    + intros H q. destruct (IH _ _ _ H q) as [Hq|(? & ? & Hp)]; [now left|right].
      rewrite <- app_assoc in Hp. auto.
    + intros H q. destruct (IH _ _ _ H q) as [Hq|(Hn & Hd & Hp)].
      * destruct (decide (q = base ++ [n])) as [->|Hne].
        -- right. rewrite Hq, lookup_insert_eq. repeat split; [assumption|].
           exists rest. now rewrite <- app_assoc.
        -- left. now rewrite Hq, lookup_insert_ne.
      * right. rewrite <- app_assoc in Hp.
        destruct (decide (q = base ++ [n])) as [->|Hne].
        -- now rewrite lookup_insert_eq in Hn.
        -- rewrite lookup_insert_ne in Hn by congruence. auto.
Qed.

Lemma mkdir_sem_Ok p t u t' :
  mkdir_sem p t = Ok (u, t') ->
  forall q, t' !! q = t !! q
            \/ (t !! q = None /\ t' !! q = Some Dir /\ q `prefix_of` p).
Proof.
  unfold mkdir_sem. intros H. apply bind_Ok in H as (t0 & H & H1).
  simplify_eq. exact (mkdir_from_spec p [] t t' H).
Qed.

Lemma mkdir_sem_only_dirs p t u t' :
  mkdir_sem p t = Ok (u, t') -> only_dirs_added t t'.
Proof.
  intros H q. destruct (mkdir_sem_Ok _ _ _ _ H q) as [->|(-> & -> & _)].
  - destruct (t !! q); auto.
  - auto.
Qed.

Lemma only_dirs_added_refl t : only_dirs_added t t.
Proof. intros q. destruct (t !! q); auto. Qed.

Lemma only_dirs_added_trans t1 t2 t3 :
  only_dirs_added t1 t2 -> only_dirs_added t2 t3 -> only_dirs_added t1 t3.
Proof.
  intros H12 H23 q. specialize (H12 q). specialize (H23 q).
  destruct (t1 !! q) as [n|].
  - now rewrite H12 in H23.
  - destruct H12 as [H12|H12]; rewrite H12 in H23; auto.
Qed.

Lemma same_but_file_refl p t : same_but_file p t t.
Proof. intros q. now left. Qed.

Lemma same_but_file_trans p t1 t2 t3 :
  same_but_file p t1 t2 -> same_but_file p t2 t3 -> same_but_file p t1 t3.
Proof.
  intros H12 H23 q.
  destruct (H12 q) as [E12|(Hq & Hd & c & E12)];
    destruct (H23 q) as [E23|(Hq' & Hd' & c' & E23)].
  - left. congruence.
  - right. rewrite <- E12. eauto.
  - right. rewrite E23. eauto.
  - right. eauto.
Qed.

Lemma same_but_below_refl p t : same_but_below p t t.
Proof. intros q. now left. Qed.

Lemma same_but_below_trans p t1 t2 t3 :
  same_but_below p t1 t2 -> same_but_below p t2 t3 -> same_but_below p t1 t3.
Proof.
  intros H12 H23 q.
  destruct (H23 q) as [E23|(Hu & Hq & E23)]; [|right; auto].
  destruct (H12 q) as [E12|(Hu & Hq & E12)]; [left; congruence|].
  right. rewrite E23. auto.
Qed.

Lemma strip_prefix_app (p q r : path) :
  strip_prefix p q = Some r <-> q = p ++ r.
Proof.
  revert q. induction p as [|a p IH]; intros q; simpl.
  - split; [now intros [= ->]|now intros ->].
  - destruct q as [|b q]; [split; discriminate|].
    destruct (String.eqb_spec a b) as [->|Hne].
    + rewrite IH. split; [now intros ->|now intros [= ->]].
    + split; [discriminate|]. intros [= -> _]. congruence.
Qed.

Lemma is_under_spec (p q : path) : is_under p q = true <-> exists r, q = p ++ r.
Proof.
  unfold is_under. destruct (strip_prefix p q) as [r|] eqn:E.
  - apply strip_prefix_app in E. split; eauto.
  - split; [discriminate|]. intros [r Hr]. apply strip_prefix_app in Hr. congruence.
Qed.

(** What a failing [mkdir] leaves behind is directories. *)
Lemma wrecked_mkdir p ls : forall t,
  only_dirs_added t (wrecked (Mkdir p) ls t).
Proof.
  unfold wrecked. induction ls as [|l ls IH]; intros t; [apply only_dirs_added_refl|].
  simpl. eapply only_dirs_added_trans; [|apply IH].
  destruct l as [p' gone|p' k|p' c]; try apply only_dirs_added_refl.
  destruct (decide (p = p')) as [<-|_]; [|apply only_dirs_added_refl].
  destruct (mkdir_from [] (take k p) t) as [t'|e] eqn:E; [|apply only_dirs_added_refl].
  intros q. destruct (mkdir_from_spec _ _ _ _ E q) as [->|(-> & -> & _)].
  - destruct (t !! q); auto.
  - auto.
Qed.

(** What a failing [writeFile] leaves behind is in the file. *)
Lemma wrecked_writeFile p ls : forall t,
  same_but_file p t (wrecked (WriteFile p) ls t).
Proof.
  unfold wrecked. induction ls as [|l ls IH]; intros t; [apply same_but_file_refl|].
  simpl. eapply same_but_file_trans; [|apply IH].
  destruct l as [p' gone|p' k|p' c]; try apply same_but_file_refl.
  destruct (decide (p = p')) as [<-|_]; [|apply same_but_file_refl].
  destruct (writeFile_sem p c t) as [[u t']|e] eqn:E; [|apply same_but_file_refl].
  unfold writeFile_sem in E. destruct p as [|a p]; [discriminate|].
  intros q. destruct (decide (q = a :: p)) as [->|Hne].
  - right. split; [reflexivity|].
    destruct (t !! (a :: p)) as [[c0|]|]; try discriminate;
      destruct (node_at t (dirname (a :: p))) as [[c1|]|]; try discriminate;
      injection E as <- <-; (split; [discriminate|]);
      exists c; apply lookup_insert_eq.
  - left.
    destruct (t !! (a :: p)) as [[c0|]|]; try discriminate;
      destruct (node_at t (dirname (a :: p))) as [[c1|]|]; try discriminate;
      injection E as <- <-; now apply lookup_insert_ne.
Qed.

(** What a failing [rm] has removed lay strictly below its path. *)
Lemma wrecked_rm p ls : forall t,
  same_but_below p t (wrecked (Rm p) ls t).
Proof.
  unfold wrecked. induction ls as [|l ls IH]; intros t; [apply same_but_below_refl|].
  simpl. eapply same_but_below_trans; [|apply IH].
  destruct l as [p' gone|p' k|p' c]; try apply same_but_below_refl.
  destruct (decide (p = p')) as [<-|_]; [|apply same_but_below_refl].
  intros q.
  destruct (existsb (fun g => is_under p g && negb (bool_decide (g = p))
                              && is_under g q) gone) eqn:E.
  - right. pose proof E as E0. apply existsb_exists in E as (g & _ & Hg).
    apply andb_true_iff in Hg as [Hg Hgq]. apply andb_true_iff in Hg as [Hpg Hne].
    apply negb_true_iff, bool_decide_eq_false in Hne.
    apply is_under_spec in Hpg as [r1 ->]. apply is_under_spec in Hgq as [r2 ->].
    split; [rewrite <- app_assoc; apply is_under_spec; eauto|].
    split.
    + intros Heq. apply Hne. rewrite <- app_assoc in Heq.
      rewrite <- (app_nil_r p) in Heq at 2. apply app_inv_head in Heq.
      apply app_eq_nil in Heq as [-> _]. now rewrite app_nil_r.
    + apply map_lookup_filter_None. right. intros x _ Hno. simpl in Hno.
      congruence.
  - left. destruct (t !! q) as [n|] eqn:Hq.
    + apply map_lookup_filter_Some. split; [assumption|exact E].
    + apply map_lookup_filter_None. now left.
Qed.

Lemma not_prefix_dirname (p : path) : p <> [] -> ~ p `prefix_of` dirname p.
Proof.
  intros Hne Hp. apply prefix_length in Hp. unfold dirname in Hp.
  destruct (exists_last Hne) as (l & a & ->).
  rewrite removelast_last, length_app in Hp. simpl in Hp. lia.
Qed.

Lemma mkdir_sem_keeps p t u t' :
  p <> [] -> mkdir_sem (dirname p) t = Ok (u, t') -> t' !! p = t !! p.
Proof.
  intros Hne H. destruct (mkdir_sem_Ok _ _ _ _ H p) as [->|(_ & _ & Hp)]; [reflexivity|].
  now apply not_prefix_dirname in Hp.
Qed.

Lemma syscall_Ok {A} (c : call)
  (sem : gmap path node -> result (A * gmap path node)) (w : World) a w' :
  syscall c sem w = (Ok a, w') ->
  (c ∉ faults w)
  /\ exists t, sem (files w) = Ok (a, t) /\ w' = with_files t (logged c w).
Proof.
  unfold syscall. destruct (decide (c ∈ faults w)); [discriminate|].
  destruct (sem (files w)) as [[a0 t]|e]; [|discriminate].
  intros [= <- <-]. eauto.
Qed.

Lemma syscall_Throw {A} (c : call)
  (sem : gmap path node -> result (A * gmap path node)) (w : World) e w' :
  syscall c sem w = (Throw e, w') -> w' = logged c w.
Proof.
  unfold syscall. destruct (decide (c ∈ faults w)); [now intros [= <- <-]|].
  destruct (sem (files w)) as [[a0 t]|e0]; [discriminate|].
  now intros [= <- <-].
Qed.

Lemma syscall_partial_nofault {A} (c : call)
  (sem : gmap path node -> result (A * gmap path node)) (w : World) :
  c ∉ faults w -> syscall_partial c sem w = syscall c sem w.
Proof.
  intros Hc. unfold syscall_partial.
  destruct (decide (c ∈ faults w)); [contradiction|reflexivity].
Qed.

Lemma syscall_partial_Ok {A} (c : call)
  (sem : gmap path node -> result (A * gmap path node)) (w : World) a w' :
  syscall_partial c sem w = (Ok a, w') ->
  (c ∉ faults w)
  /\ exists t, sem (files w) = Ok (a, t) /\ w' = with_files t (logged c w).
Proof.
  unfold syscall_partial. destruct (decide (c ∈ faults w)); [discriminate|].
  apply syscall_Ok.
Qed.

(** A call that fails leaves the tree as it was, unless the environment
    made it fail half-way. *)
Lemma syscall_partial_Throw {A} (c : call)
  (sem : gmap path node -> result (A * gmap path node)) (w : World) e w' :
  syscall_partial c sem w = (Throw e, w') ->
  w' = logged c w
  \/ (c ∈ faults w
      /\ w' = with_files (wrecked c (leftovers w) (files w)) (logged c w)).
Proof.
  unfold syscall_partial. destruct (decide (c ∈ faults w)) as [Hc|Hc].
  - intros [= <- <-]. auto.
  - intros H. left. eapply syscall_Throw; eauto.
Qed.

Lemma fileExists_run p w :
  HooksFs.fileExists p w = (Ok (file_there p w), logged (Stat p) w).
Proof.
  unfold HooksFs.fileExists, file_there, try_catch, stat, syscall.
  unfold mbind, mret, M_bind, M_ret, stat_sem.
  destruct (decide (Stat p ∈ faults w)); [reflexivity|].
  destruct (node_at (files w) p) as [nd|]; [|reflexivity].
  unfold with_files, logged. simpl. reflexivity.
Qed.

Lemma directoryExists_run p w :
  HooksFs.directoryExists p w = (Ok (dir_there p w), logged (Stat p) w).
Proof.
  unfold HooksFs.directoryExists, dir_there, try_catch, stat, syscall.
  unfold mbind, mret, M_bind, M_ret, stat_sem.
  destruct (decide (Stat p ∈ faults w)); [reflexivity|].
  destruct (node_at (files w) p) as [nd|]; [|reflexivity].
  unfold with_files, logged. simpl. reflexivity.
Qed.

Lemma bind_run {A B} (m : M A) (f : A -> M B) (w : World) :
  (m ≫= f) w = match m w with
               | (Ok a, w') => f a w'
               | (Throw e, w') => (Throw e, w')
               end.
Proof. reflexivity. Qed.

Lemma updateHook_rmw p ev mi hi u :
  HooksFs.updateHook p ev mi hi u
  = rmw p (fun s => updateHook_doc s ev mi hi u) "Failed to update hook: ".
Proof. reflexivity. Qed.

Lemma deleteHook_rmw p ev mi hi :
  HooksFs.deleteHook p ev mi hi
  = rmw p (fun s => deleteHook_doc s ev mi hi) "Failed to delete hook: ".
Proof. reflexivity. Qed.

Lemma file_there_true p w :
  file_there p w = true -> exists c, node_at (files w) p = Some (File c).
Proof.
  unfold file_there. destruct (decide _); [discriminate|].
  destruct (node_at (files w) p) as [[c|]|]; try discriminate. eauto.
Qed.

Lemma rmw_true p f label w w' :
  rmw p f label w = (Ok true, w') ->
  exists d d', files w !! p = Some (File (Json d))
               /\ f d = Ok (Some d')
               /\ files w' = <[p := File (Json d')]> (files w).
Proof.
  unfold rmw, try_catch. rewrite bind_run, fileExists_run. cbv beta iota.
  destruct (file_there p w) eqn:Hft; cbn [negb].
  2:{ unfold notify, mbind, mret, M_bind, M_ret. discriminate. }
  apply file_there_true in Hft as [c Hc]. apply node_at_file in Hc.
  rewrite bind_run.
  destruct (readFile p (logged (Stat p) w)) as [[c'|e] w2] eqn:Hr.
  2:{ unfold notify, mbind, mret, M_bind, M_ret. discriminate. }
  apply syscall_Ok in Hr as (_ & t & Hsem & ->).
  apply readFile_sem_Ok in Hsem as [-> Hsem]. simpl in Hsem.
  rewrite Hc in Hsem. injection Hsem as <-.
  rewrite bind_run. unfold lift at 1.
  destruct (JSON_parse c) as [d|e] eqn:Hparse.
  2:{ unfold notify, mbind, mret, M_bind, M_ret. discriminate. }
  apply JSON_parse_Ok in Hparse as ->.
  rewrite bind_run. unfold lift at 1.
  destruct (f d) as [[d'|]|e] eqn:Hf.
  2,3:unfold notify, mbind, mret, M_bind, M_ret; discriminate.
  rewrite bind_run.
  destruct (writeFile p (Json d') _) as [[[]|e] w4] eqn:Hwr.
  2:{ unfold notify, mbind, mret, M_bind, M_ret. discriminate. }
  apply syscall_partial_Ok in Hwr as (_ & t & Hsem & ->).
  apply writeFile_sem_Ok in Hsem as (-> & _ & _).
  intros [= <-]. eauto.
Qed.

Lemma rmw_false p f label w :
  (forall d d', files w !! p = Some (File (Json d)) -> f d <> Ok (Some d')) ->
  exists w' msg cs,
    rmw p f label w = (Ok false, w')
    /\ files w' = files w
    /\ notices w' = notices w ++ [Error msg]
    /\ calls w' = calls w ++ cs
    /\ forall q, WriteFile q ∉ cs.
Proof.
  intros Hno.
  unfold rmw, try_catch. rewrite bind_run, fileExists_run. cbv beta iota.
  destruct (file_there p w) eqn:Hft; cbn [negb].
  2:{ eexists _, _, [_]. split; [reflexivity|]. simpl.
      split; [reflexivity|]. split; [reflexivity|]. split; [reflexivity|no_write]. }
  apply file_there_true in Hft as [c Hc]. apply node_at_file in Hc.
  rewrite bind_run.
  destruct (readFile p (logged (Stat p) w)) as [[c'|e] w2] eqn:Hr.
  2:{ apply syscall_Throw in Hr as ->.
      eexists _, _, [_; _]. split; [reflexivity|]. simpl.
      split; [reflexivity|]. split; [reflexivity|].
      split; [now rewrite <- app_assoc|no_write]. }
  apply syscall_Ok in Hr as (_ & t & Hsem & ->).
  apply readFile_sem_Ok in Hsem as [-> Hsem]. simpl in Hsem.
  rewrite Hc in Hsem. injection Hsem as <-.
  rewrite bind_run. unfold lift at 1.
  destruct (JSON_parse c) as [d|e] eqn:Hparse.
  2:{ eexists _, _, [_; _]. split; [reflexivity|]. simpl.
      split; [reflexivity|]. split; [reflexivity|].
      split; [now rewrite <- app_assoc|no_write]. }
  apply JSON_parse_Ok in Hparse as ->.
  rewrite bind_run. unfold lift at 1.
  destruct (f d) as [[d'|]|e] eqn:Hf.
  - now elim (Hno _ _ Hc Hf).
  - eexists _, _, [_; _]. split; [reflexivity|]. simpl.
    split; [reflexivity|]. split; [reflexivity|].
    split; [now rewrite <- app_assoc|no_write].
  - eexists _, _, [_; _]. split; [reflexivity|]. simpl.
    split; [reflexivity|]. split; [reflexivity|].
    split; [now rewrite <- app_assoc|no_write].
Qed.

Lemma updateHook_true p ev mi hi u w w' :
  HooksFs.updateHook p ev mi hi u w = (Ok true, w') ->
  exists d d', files w !! p = Some (File (Json d))
               /\ updateHook_doc d ev mi hi u = Ok (Some d')
               /\ files w' = <[p := File (Json d')]> (files w).
Proof. rewrite updateHook_rmw. apply rmw_true. Qed.


(** C5: when the path [settings.hooks[eventType][matcherIndex]
    .hooks[hookIndex]] does not lead to a hook in the file as it is read
    back (also when there is no such file, or it is not JSON),
    [updateHook] and [deleteHook] return [false], show one error, leave
    every file as it was and make no call to [writeFile]. *)
Theorem C5_stale_index_fails_cleanly p ev mi hi u w :
  (forall d, files w !! p = Some (File (Json d)) ->
             addressed d ev mi hi = None) ->
  (exists w' msg cs,
     HooksFs.updateHook p ev mi hi u w = (Ok false, w')
     /\ files w' = files w
     /\ notices w' = notices w ++ [Error msg]
     /\ calls w' = calls w ++ cs
     /\ forall q, WriteFile q ∉ cs)
  /\ (exists w' msg cs,
        HooksFs.deleteHook p ev mi hi w = (Ok false, w')
        /\ files w' = files w
        /\ notices w' = notices w ++ [Error msg]
        /\ calls w' = calls w ++ cs
        /\ forall q, WriteFile q ∉ cs).
Proof.
  intros Hstale. split.
  - rewrite updateHook_rmw. apply rmw_false. intros d d' Hd Hu.
    destruct (updateHook_doc_addressed _ _ _ _ _ _ Hu) as (x & Hx & _).
    rewrite (Hstale _ Hd) in Hx. discriminate.
  - rewrite deleteHook_rmw. apply rmw_false. intros d d' Hd Hu.
    destruct (deleteHook_doc_addressed _ _ _ _ _ Hu) as (x & Hx & _).
    rewrite (Hstale _ Hd) in Hx. discriminate.
Qed.

(** What a successful [addHook] did: [d] is the document it started
    from, the one in the file or the empty object. *)
Lemma addHook_true env sc ev name h w w' :
  HooksFs.addHook env sc ev name h w = (Ok true, w') ->
  exists p d d' t,
    HooksFs.getSettingsPath env sc = Some p
    /\ addHook_doc d ev name h = Ok d'
    /\ files w' = <[p := File (Json d')]> t
    /\ node_at t (dirname p) = Some Dir
    /\ p <> []
    /\ faults w' = faults w
    /\ only_dirs_added (files w) t
    /\ t !! p = files w !! p
    /\ d = match files w !! p with
           | Some (File c) =>
               if decide (Stat p ∈ faults w) then JObj []
               else match c with Json d0 => d0 | Text _ => JObj [] end
           | _ => JObj []
           end.
Proof.
  unfold HooksFs.addHook. intros H.
  destruct (HooksFs.getSettingsPath env sc) as [p|] eqn:Hp.
  2:{ unfold try_catch, notify, mbind, mret, M_bind, M_ret in H. simplify_eq. }
  assert (Hne : p <> []).
  { destruct sc; simpl in Hp.
    - injection Hp as <-. unfold join. now destruct (globalClaudePath env).
    - destruct (workspaceFolder env) as [ws|]; [|discriminate].
      injection Hp as <-. unfold join. now destruct ws. }
  unfold try_catch in H.
  rewrite bind_run, directoryExists_run in H. cbv beta iota in H.
  rewrite bind_run in H.
  (* the directory *)
  assert (Hdir : exists w1,
    (if dir_there (dirname p) w then mret () else mkdir (dirname p))
      (logged (Stat (dirname p)) w) = (Ok tt, w1)
    /\ faults w1 = faults w
    /\ only_dirs_added (files w) (files w1)
    /\ (p <> [] -> files w1 !! p = files w !! p)).
  { destruct (dir_there (dirname p) w) eqn:Hdt.
    - eexists. split; [reflexivity|]. simpl.
      split; [reflexivity|]. split; [apply only_dirs_added_refl|intros _; reflexivity].
    - destruct (mkdir (dirname p) (logged (Stat (dirname p)) w)) as [[[]|e] w1] eqn:Hmk.
      + apply syscall_partial_Ok in Hmk as (_ & t & Hsem & ->). simpl in Hsem.
        eexists. split; [reflexivity|]. simpl. split; [reflexivity|].
        split; [eapply mkdir_sem_only_dirs; eauto|].
        intros _. eapply mkdir_sem_keeps; eauto.
      + exfalso. unfold notify, mret, M_ret in H. simplify_eq. }
  destruct Hdir as (w1 & Hw1 & Hf1 & Hd1 & Hk1).
  rewrite Hw1 in H. cbv beta iota in H.
  rewrite bind_run, fileExists_run in H. cbv beta iota in H.
  rewrite bind_run in H.
  set (w2 := logged (Stat p) w1) in *.
  (* the document *)
  destruct ((if file_there p w1
             then (readFile p ≫= fun c => lift (JSON_parse c))
             else mret (JObj [])) w2) as [[d|e] w3] eqn:Hdoc.
  2:{ exfalso. unfold notify, mret, M_ret in H. simplify_eq. }
  assert (Hw3 : files w3 = files w1 /\ faults w3 = faults w
                /\ d = match files w1 !! p with
                       | Some (File c) =>
                           if decide (Stat p ∈ faults w) then JObj []
                           else match c with Json d0 => d0 | Text _ => JObj [] end
                       | _ => JObj []
                       end).
  { unfold file_there in Hdoc. rewrite Hf1 in Hdoc.
    destruct (decide (Stat p ∈ faults w)).
    - unfold mret, M_ret in Hdoc. injection Hdoc as <- <-. simpl.
      repeat split; [assumption|]. now destruct (files w1 !! p) as [[]|].
    - rewrite (node_at_ne _ _ Hne) in Hdoc.
      destruct (files w1 !! p) as [[c|]|] eqn:Hn.
      + simpl in Hdoc.
        rewrite bind_run in Hdoc. unfold lift in Hdoc.
        destruct (readFile p w2) as [[c'|e] w3'] eqn:Hr; [|discriminate].
        apply syscall_Ok in Hr as (_ & t & Hsem & ->).
        apply readFile_sem_Ok in Hsem as [-> Hsem]. simpl in Hsem.
        rewrite Hn in Hsem. injection Hsem as <-.
        destruct (JSON_parse c) as [d0|] eqn:Hparse; [|discriminate].
        apply JSON_parse_Ok in Hparse as ->.
        injection Hdoc as <- <-. simpl. auto.
      + simpl in Hdoc. unfold mret, M_ret in Hdoc. injection Hdoc as <- <-.
        simpl. auto.
      + simpl in Hdoc. unfold mret, M_ret in Hdoc. injection Hdoc as <- <-.
        simpl. auto. }
  destruct Hw3 as (Hf3 & Hfl3 & Hd).
  rewrite bind_run in H. unfold lift at 1 in H.
  destruct (addHook_doc d ev name h) as [d'|e] eqn:Hadd.
  2:{ exfalso. unfold notify, mret, M_ret in H. simplify_eq. }
  rewrite bind_run in H.
  destruct (writeFile p (Json d') w3) as [[[]|e] w4] eqn:Hwr.
  2:{ exfalso. unfold notify, mret, M_ret in H. simplify_eq. }
  unfold mret, M_ret in H. injection H as <-.
  apply syscall_partial_Ok in Hwr as (_ & t & Hsem & ->).
  apply writeFile_sem_Ok in Hsem as (-> & Hparent & _).
  exists p, d, d', (files w1). simpl. rewrite Hf3 in *.
  repeat split; try assumption.
  - now apply Hk1.
  - rewrite <- (Hk1 Hne). exact Hd.
Qed.

End FsFacts.

Module HooksClaims.
Import Js Fs Hooks Shapes JsFacts HooksFacts DeleteFacts AddFacts DeleteFacts2 FsFacts.

Lemma syscall_nofault {A} (c : call)
  (sem : gmap path node -> result (A * gmap path node)) (w : World) :
  faults w = [] ->
  syscall c sem w
  = match sem (files w) with
    | Ok (a, t) => (Ok a, with_files t (logged c w))
    | Throw e => (Throw e, logged c w)
    end.
Proof.
  intros Hf. unfold syscall. rewrite Hf.
  destruct (decide (c ∈ [])) as [Hin|_]; [|reflexivity].
  now apply elem_of_nil in Hin.
Qed.

Lemma syscall_partial_run {A} (c : call)
  (sem : gmap path node -> result (A * gmap path node)) (w : World) :
  faults w = [] ->
  syscall_partial c sem w
  = match sem (files w) with
    | Ok (a, t) => (Ok a, with_files t (logged c w))
    | Throw e => (Throw e, logged c w)
    end.
Proof.
  intros Hf. rewrite syscall_partial_nofault.
  - now apply syscall_nofault.
  - rewrite Hf. apply not_elem_of_nil.
Qed.










End HooksClaims.

Module FileOpsFacts.
Import Js Fs Shapes JsFacts FsFacts.
Import FileOps.

Lemma access_exists_run p w :
  FileOps.fileExists p w = (Ok (exists_there p w), logged (Access p) w).
Proof.
  unfold FileOps.fileExists, exists_there, try_catch, access, syscall.
  unfold mbind, mret, M_bind, M_ret, stat_sem.
  destruct (decide (Access p ∈ faults w)); [reflexivity|].
  destruct (node_at (files w) p) as [nd|]; reflexivity.
Qed.

Lemma notify_run n w : notify n w = (Ok tt, noticed n w).
Proof. reflexivity. Qed.

Lemma mret_run {A} (a : A) (w : World) : (mret a : M A) w = (Ok a, w).
Proof. reflexivity. Qed.

(** One step of a run: a bind, a notice, a returned value, or a call with
    its outcomes. *)
Ltac step :=
  first
    [ rewrite bind_run
    | rewrite notify_run
    | rewrite mret_run
    | rewrite access_exists_run
    | match goal with
      | |- context [syscall_partial ?c ?sem ?w] =>
          let H := fresh "Hcall" in
          let t := fresh "t" in
          let Hsem := fresh "Hsem" in
          let Hfault := fresh "Hfault" in
          destruct (syscall_partial c sem w) as [[?|?] ?] eqn:H;
          [apply syscall_partial_Ok in H as (_ & t & Hsem & ->)
          |apply syscall_partial_Throw in H as [->|[Hfault ->]]]
      end
    | match goal with
      | |- context [syscall ?c ?sem ?w] =>
          let H := fresh "Hcall" in
          let t := fresh "t" in
          let Hsem := fresh "Hsem" in
          destruct (syscall c sem w) as [[?|?] ?] eqn:H;
          [apply syscall_Ok in H as (_ & t & Hsem & ->)
          |apply syscall_Throw in H as ->]
      end ];
  cbv beta iota.

(** A case analysis on a condition or on a piece of data, never on a
    whole run. *)
Ltac split_data :=
  match goal with
  | |- context [if ?b then _ else _] =>
      lazymatch type of b with
      | bool => destruct b eqn:?
      end
  | |- context [match ?x with Some _ => _ | None => _ end] => destruct x eqn:?
  | |- context [match ?x with [] => _ | _ :: _ => _ end] => destruct x eqn:?
  | |- context [match ?x with Ok _ => _ | Throw _ => _ end] =>
      lazymatch type of x with
      | result _ => destruct x eqn:?
      end
  end;
  cbv beta iota.

Ltac run := repeat first [step | split_data].

Create HintDb frames.
#[local] Hint Resolve only_dirs_added_refl mkdir_sem_only_dirs wrecked_mkdir
  same_but_file_refl wrecked_writeFile same_but_below_refl wrecked_rm : frames.











Lemma syscall_run_Ok {A} (c : call)
  (sem : gmap Fs.path node -> result (A * gmap Fs.path node)) (w : World) a t :
  (c ∉ faults w) ->
  sem (files w) = Ok (a, t) ->
  syscall c sem w = (Ok a, with_files t (logged c w)).
Proof.
  intros Hc Hs. unfold syscall. destruct (decide (c ∈ faults w)); [contradiction|].
  now rewrite Hs.
Qed.

(** C2, as the code has it: once a single file is removed, [rmdir] is
    called on its parent directory exactly when the directory that holds
    the parent is named [skills], [agents] or [commands] and reading the
    parent succeeds and shows no entry; whatever becomes of these two
    calls, the delete reports success. *)
Theorem C2_deleteFile_parent_cleanup cf w c :
  path cf <> [] ->
  files w !! (path cf) = Some (File c) ->
  (Stat (path cf) ∉ faults w) ->
  (Unlink (path cf) ∉ faults w) ->
  exists w' cs,
    deleteFile cf true w = (Ok true, w')
    /\ calls w' = calls w ++ [Stat (path cf); Unlink (path cf)] ++ cs
    /\ files w' !! (path cf) = None
    /\ ((Rmdir (dirname (path cf)) ∈ cs)
        <-> (basename (dirname (dirname (path cf))) ∈ grouping_dirs
             /\ (Readdir (dirname (path cf)) ∉ faults w)
             /\ node_at (delete (path cf) (files w)) (dirname (path cf)) = Some Dir
             /\ entries (delete (path cf) (files w)) (dirname (path cf)) = [])).
Proof.
  intros Hne Hfile Hst Hun.
  set (p := path cf) in *. set (parent := dirname p).
  unfold deleteFile, try_catch. fold p. fold parent.
  rewrite bind_run, notify_run. cbv beta iota. cbn [negb].
  rewrite bind_run. unfold stat.
  rewrite (syscall_run_Ok (Stat p) _ _ (File c) (files w)); [|assumption|].
  2:{ unfold stat_sem. cbn [files noticed]. now rewrite (node_at_ne _ _ Hne), Hfile. }
  cbv beta iota. cbn [is_dir]. rewrite bind_run, bind_run. unfold unlink.
  rewrite (syscall_run_Ok (Unlink p) _ _ tt (delete p (files w))); [|assumption|].
  2:{ unfold unlink_sem. cbn [files noticed logged with_files]. now rewrite Hfile. }
  cbv beta iota.
  set (t1 := delete p (files w)).
  assert (Hgone : t1 !! p = None) by apply lookup_delete_eq.
  destruct (bool_decide (basename (dirname parent) ∈ grouping_dirs)) eqn:Hg.
  2:{ apply bool_decide_eq_false in Hg. run.
      eexists _, []. split; [reflexivity|]. cbn [files calls noticed logged with_files].
      split; [now rewrite <- !app_assoc|]. split; [assumption|]. split.
      - intros Hin. now apply elem_of_nil in Hin.
      - intros [Hin _]. contradiction. }
  apply bool_decide_eq_true in Hg.
  rewrite bind_run. unfold readdir at 1. unfold syscall at 1.
  cbn [files faults calls noticed logged with_files].
  destruct (decide (Readdir parent ∈ faults w)) as [Hrd|Hrd].
  { run. eexists _, [Readdir parent]. split; [reflexivity|].
    cbn [files calls noticed logged with_files].
    split; [now rewrite <- !app_assoc|]. split; [assumption|]. split.
    - intros Hin. apply list_elem_of_singleton in Hin. discriminate.
    - intros (_ & Hno & _). contradiction. }
  unfold readdir_sem. fold t1.
  destruct (node_at t1 parent) as [[cp|]|] eqn:Hparent.
  1,3: run; eexists _, [Readdir parent]; (split; [reflexivity|]);
       cbn [files calls noticed logged with_files];
       (split; [now rewrite <- !app_assoc|]); (split; [assumption|]); split;
       [ intros Hin; apply list_elem_of_singleton in Hin; discriminate
       | intros (_ & _ & Hd & _); discriminate ].
  destruct (entries t1 parent) as [|n ns] eqn:Hents.
  2:{ run. eexists _, [Readdir parent]. split; [reflexivity|].
      cbn [files calls noticed logged with_files].
      split; [now rewrite <- !app_assoc|]. split; [assumption|]. split.
      - intros Hin. apply list_elem_of_singleton in Hin. discriminate.
      - intros (_ & _ & _ & Hd). discriminate. }
  unfold rmdir. run.
  - eexists _, [Readdir parent; Rmdir parent]. split; [reflexivity|].
    cbn [files calls noticed logged with_files] in *.
    split; [now rewrite <- !app_assoc|]. split.
    + unfold rmdir_sem in Hsem.
      destruct (t1 !! parent) as [[|]|]; try discriminate.
      destruct (entries t1 parent); [|discriminate].
      injection Hsem as Ht. subst t. apply lookup_delete_None. auto.
    + split; [auto|]. intros _. apply elem_of_cons. right. now apply list_elem_of_singleton.
  - eexists _, [Readdir parent; Rmdir parent]. split; [reflexivity|].
    cbn [files calls noticed logged with_files] in *.
    split; [now rewrite <- !app_assoc|]. split; [assumption|].
    split; [auto|]. intros _. apply elem_of_cons. right. now apply list_elem_of_singleton.
Qed.


End FileOpsFacts.

Module RoundTripFacts.
Import Js Hooks Shapes JsFacts HooksFacts DeleteFacts AddFacts.

Lemma parse_matcher_not_null m :
  m <> JNull -> parse_matcher m = Ok (well_formed_entry m).
Proof.
  intros Hm. destruct m as [| | | | |es]; try reflexivity; [congruence|].
  unfold parse_matcher, well_formed_entry. simpl.
  destruct (assoc "hooks" es) as [[| [] | [| |] | [|] | |]|]; reflexivity.
Qed.

(** Every malformed entry other than [null] is skipped on its own. *)
Lemma parse_matchers_null_free l :
  Forall (fun m => m <> JNull) l ->
  parse_matchers l = Ok (omap well_formed_entry l).
Proof.
  induction 1 as [|m l Hm Hl IH]; [reflexivity|].
  simpl. rewrite (parse_matcher_not_null _ Hm). simpl. rewrite IH. simpl.
  now destruct (well_formed_entry m).
Qed.

Lemma parse_events_null_free entries loc path :
  null_free entries ->
  parse_events entries loc path = Ok (omap (event_config loc path) entries).
Proof.
  induction 1 as [|[k v] entries Hkv Hrest IH]; [reflexivity|].
  simpl. unfold event_config at 1. simpl in *.
  destruct v as [| | | |l|]; try exact IH.
  rewrite (parse_matchers_null_free _ Hkv). simpl. rewrite IH. simpl.
  now destruct (omap well_formed_entry l).
Qed.

(** Without a [null] entry, [parseHooks] returns every well-formed
    entry of the file. *)
Lemma parseHooks_null_free ms hs loc path :
  assoc "hooks" ms = Some (JObj hs) ->
  null_free hs ->
  parseHooks_doc (JObj ms) loc path = omap (event_config loc path) hs.
Proof.
  intros Hh Hnf. unfold parseHooks_doc, parseHooks_try. simpl.
  rewrite Hh. simpl. now rewrite parse_events_null_free.
Qed.

Lemma parse_matchers_In l : forall ms i m hm,
  parse_matchers l = Ok ms ->
  l !! i = Some m ->
  parse_matcher m = Ok (Some hm) ->
  hm ∈ ms.
Proof.
  induction l as [|m0 l IH]; intros ms i m hm H Hi Hm; [discriminate|].
  simpl in H. apply bind_Ok in H as (o & Ho & H).
  apply bind_Ok in H as (ms0 & Hms0 & H). injection H as <-.
  destruct i as [|i]; simpl in Hi.
  - injection Hi as ->. rewrite Hm in Ho. injection Ho as <-.
    apply list_elem_of_here.
  - specialize (IH _ _ _ _ Hms0 Hi Hm).
    destruct o; [now apply list_elem_of_further|assumption].
Qed.

Lemma parse_events_In entries loc path : forall cs k l ms,
  parse_events entries loc path = Ok cs ->
  (k, JArr l) ∈ entries ->
  parse_matchers l = Ok ms ->
  ms <> [] ->
  {| eventType := k; matchers := ms; location := loc; configPath := path |} ∈ cs.
Proof.
  induction entries as [|[k0 v0] entries IH]; intros cs k l ms H Hin Hms Hne.
  - now apply elem_of_nil in Hin.
  - simpl in H. apply elem_of_cons in Hin as [[= <- <-]|Hin].
    + rewrite Hms in H. simpl in H.
      apply bind_Ok in H as (cs0 & _ & H). injection H as <-.
      destruct ms; [congruence|]. apply list_elem_of_here.
    + destruct v0 as [| | | |l0|]; try (eapply IH; eauto; fail).
      apply bind_Ok in H as (ms0 & _ & H).
      apply bind_Ok in H as (cs0 & Hcs0 & H). injection H as <-.
      specialize (IH _ _ _ _ Hcs0 Hin Hms Hne).
      destruct ms0; [assumption|now apply list_elem_of_further].
Qed.

Lemma assoc_In k v l : assoc k l = Some v -> (k, v) ∈ l.
Proof.
  induction l as [|[k' v'] l IH]; simpl; [discriminate|].
  destruct (String.eqb_spec k k') as [->|].
  - intros [= ->]. apply list_elem_of_here.
  - intros H. apply list_elem_of_further. auto.
Qed.

Lemma type_name_inj t t' : type_name t = type_name t' -> t = t'.
Proof. destruct t, t'; simpl; congruence. Qed.

(** The written form of a hook determines its fields. *)
Lemma hook_json_inj h h' : hook_json h = hook_json h' -> h = h'.
Proof.
  destruct h as [t c p o], h' as [t' c' p' o']. unfold hook_json. simpl.
  destruct c, p, o, c', p', o'; simpl; intros [=];
    repeat match goal with
      | H : type_name _ = type_name _ |- _ => apply type_name_inj in H
      end; subst; reflexivity.
Qed.

(** The round trip of C9 holds whenever [parseHooks] does not throw on
    the written document: the configuration of the event type holds a
    matcher with the matcher string whose last hooks end with the added
    one. *)
Lemma roundtrip_when_parsed d ev name h d' loc path cs :
  regular d = true ->
  addHook_doc d ev name h = Ok d' ->
  parseHooks_try d' loc path = Ok cs ->
  exists cfg m l,
    cfg ∈ cs
    /\ eventType cfg = event_name ev
    /\ m ∈ matchers cfg
    /\ matcher m = Some (JStr name)
    /\ hooks m = l ++ [hook_json h].
Proof.
  intros Hreg Hadd Hparse.
  destruct (addHook_doc_entry _ _ _ _ _ Hreg Hadd)
    as (arr1 & i & e1 & l & Hev & _ & Hfind & Hl & _).
  destruct (find_matcher_Some _ _ _ _ _ Hfind) as (_ & Hlk & Hhas).
  rewrite Nat.sub_0_r in Hlk.
  destruct (has_matcher_get _ _ Hhas) as (es & -> & Hes).
  simpl in Hl. injection Hl as Hl.
  destruct d' as [| | | | |ms']; try discriminate. simpl in Hev.
  destruct (assoc "hooks" ms') as [[| | | | |hs']|] eqn:Hh; try discriminate.
  destruct (assoc (event_name ev) hs') as [[| | | |arr|]|] eqn:He; try discriminate.
  injection Hev as ->.
  unfold parseHooks_try in Hparse. simpl in Hparse. rewrite Hh in Hparse.
  simpl in Hparse.
  assert (Hm : parse_matcher (JObj es)
               = Ok (Some {| matcher := Some (JStr name);
                             hooks := l ++ [hook_json h] |})).
  { unfold parse_matcher. simpl. rewrite Hl. simpl. now rewrite Hes. }
  assert (Hms : exists ms, parse_matchers arr1 = Ok ms).
  { clear -Hparse He. apply assoc_In in He. revert cs Hparse.
    induction hs' as [|[k0 v0] hs' IH]; intros cs Hparse.
    - now apply elem_of_nil in He.
    - simpl in Hparse. apply elem_of_cons in He as [[= <- <-]|He].
      + apply bind_Ok in Hparse as (ms & Hms & _). eauto.
      + destruct v0 as [| | | |l0|]; try (eapply IH; eauto; fail).
        apply bind_Ok in Hparse as (ms0 & _ & Hparse).
        apply bind_Ok in Hparse as (cs0 & Hcs0 & _). eauto. }
  destruct Hms as [ms Hms].
  pose proof (parse_matchers_In _ _ _ _ _ Hms Hlk Hm) as Hin.
  eexists _, _, l. split.
  - eapply parse_events_In; [exact Hparse|apply assoc_In; exact He|exact Hms|].
    intros ->. now apply elem_of_nil in Hin.
  - simpl. split; [reflexivity|]. split; [exact Hin|]. split; reflexivity.
Qed.

End RoundTripFacts.

Module DiscoveryFacts.
Import Js Fs Shapes FsFacts.
Import Discovery.

Lemma stat_exists_run p w :
  Discovery.fileExists p w = (Ok (file_there p w), logged (Stat p) w).
Proof. exact (FsFacts.fileExists_run p w). Qed.

(** A canonical location contributes at most one item, for the first
    pattern that names a file there. *)
Lemma first_memory_spec dir sc label pats : forall w,
  exists items w',
    first_memory dir pats sc label w = (Ok items, w')
    /\ files w' = files w
    /\ faults w' = faults w
    /\ (items = []
        \/ exists pat, pat ∈ pats
             /\ file_there (join dir [pat]) w = true
             /\ items = [createClaudeFile (join dir [pat]) FileOps.memory sc label None]).
Proof.
  induction pats as [|pat pats IH]; intros w.
  - eexists _, _. split; [reflexivity|]. auto.
  - simpl. rewrite bind_run, stat_exists_run. cbv beta iota.
    destruct (file_there (join dir [pat]) w) eqn:Hft.
    + eexists _, _. split; [reflexivity|]. simpl. repeat split.
      right. exists pat. split; [apply list_elem_of_here|auto].
    + destruct (IH (logged (Stat (join dir [pat])) w))
        as (items & w' & Hrun & Hf & Hfl & Hitems).
      exists items, w'. split; [exact Hrun|]. simpl in *.
      split; [exact Hf|]. split; [exact Hfl|].
      destruct Hitems as [->|(pat' & Hin & Hthere & ->)]; [now left|right].
      exists pat'. split; [now apply list_elem_of_further|]. split; [|reflexivity].
      exact Hthere.
Qed.

Lemma sublist_list_filter {A} (f : A -> bool) (l : list A) :
  List.filter f l `sublist_of` l.
Proof.
  induction l as [|x l IH]; simpl; [constructor|].
  destruct (f x); now constructor.
Qed.

Lemma sublist_fmap_fst {A B} (l1 l2 : list (A * B)) :
  l1 `sublist_of` l2 -> l1.*1 `sublist_of` l2.*1.
Proof. induction 1; simpl; now constructor. Qed.

(** What [findFiles] returns: distinct paths of entries below the root
    that carry the name searched for. *)
Lemma found_paths (root : path) (pat : string) (n : nat) (t : gmap path node) :
  let uris := take n (List.filter (found_by root pat) (map_to_list t)).*1 in
  NoDup uris
  /\ Forall (fun q => is_under root q = true /\ basename q = pat) uris.
Proof.
  cbn zeta. split.
  - eapply sublist_NoDup; [apply (NoDup_fst_map_to_list t)|].
    etrans; [apply sublist_take|].
    apply sublist_fmap_fst, sublist_list_filter.
  - apply Forall_forall. intros q Hq.
    assert (Hin : q ∈ (List.filter (found_by root pat) (map_to_list t)).*1)
      by (eapply elem_of_sublist; [exact Hq|apply sublist_take]).
    apply list_elem_of_fmap in Hin as ([q' nd] & -> & Hin).
    apply list_elem_of_In, filter_In in Hin as [_ Hfound].
    unfold found_by in Hfound. simpl in *. unfold is_under.
    destruct (strip_prefix root q') as [rel|]; [|discriminate].
    split; [reflexivity|].
    apply andb_prop in Hfound as [Hfound _].
    apply andb_prop in Hfound as [_ Hname].
    now apply String.eqb_eq in Hname.
Qed.

Lemma nested_of_paths (root : path) (uris : list path) :
  FileOps.path <$> nested_of root uris `sublist_of` uris
  /\ Forall (fun q => dirname q <> root) (FileOps.path <$> nested_of root uris).
Proof.
  induction uris as [|uri uris [IH1 IH2]]; simpl; [split; constructor|].
  destruct (decide (dirname uri = root)); simpl.
  - split; [now constructor|assumption].
  - split; [now constructor|]. constructor; assumption.
Qed.

(** The nested search: its paths lie below the project root but not in
    it, carry one of the names searched for, and are pairwise distinct. *)
Lemma nested_loop_spec (root : path) (pats : list string) : forall w : World,
  exists items,
    nested_loop root pats w = (Ok items, w)
    /\ Forall (fun q => is_under root q = true /\ dirname q <> root
                        /\ basename q ∈ pats) (FileOps.path <$> items)
    /\ (NoDup pats -> NoDup (FileOps.path <$> items)).
Proof.
  induction pats as [|pat pats IH]; intros w.
  - exists []. split; [reflexivity|]. split; constructor.
  - destruct (IH w) as (more & Hmore & Hall & Hnd).
    simpl. rewrite bind_run. unfold findFiles at 1. cbv beta iota.
    rewrite bind_run, Hmore. cbv beta iota.
    eexists. split; [reflexivity|].
    destruct (found_paths root pat 100 (files w)) as [Hnd1 Hall1].
    cbn zeta in *.
    set (uris := take 100 (List.filter (found_by root pat) (map_to_list (files w))).*1) in *.
    destruct (nested_of_paths root uris) as [Hsub Hdir].
    rewrite fmap_app. split.
    + apply Forall_app. split.
      * apply Forall_forall. intros q Hq.
        pose proof (elem_of_sublist _ _ _ Hq Hsub) as Hq'.
        rewrite Forall_forall in Hall1, Hdir.
        destruct (Hall1 _ Hq') as [Hu Hb].
        split; [exact Hu|]. split; [now apply Hdir|].
        rewrite Hb. apply list_elem_of_here.
      * eapply Forall_impl; [exact Hall|].
        intros q (Hu & Hd & Hb). split; [exact Hu|]. split; [exact Hd|].
        now apply list_elem_of_further.
    + intros Hpats. apply NoDup_cons in Hpats as [Hnotin Hpats].
      apply NoDup_app. split; [eapply sublist_NoDup; eauto|].
      split; [|auto].
      intros q Hq Hq2.
      pose proof (elem_of_sublist _ _ _ Hq Hsub) as Hq'.
      rewrite Forall_forall in Hall1, Hall.
      destruct (Hall1 _ Hq') as [_ Hb].
      destruct (Hall _ Hq2) as (_ & _ & Hb2).
      rewrite Hb in Hb2. contradiction.
Qed.

Lemma is_under_app (root rel : path) : is_under root (root ++ rel) = true.
Proof.
  unfold is_under. induction root as [|a root IH]; simpl; [reflexivity|].
  now rewrite String.eqb_refl.
Qed.

Lemma dirname_join (dir : path) (nm : string) : dirname (join dir [nm]) = dir.
Proof. unfold dirname, join. apply removelast_last. Qed.

(** Apart from the memory file of the project's [.claude] directory,
    discovery lists no path twice: when that location holds no memory
    file and the global memory file lies outside the project, the paths
    of the items are pairwise distinct. *)
Lemma discoverMemories_NoDup (env : Env) (ws : path) (w : World) items w' :
  workspaceFolder env = Some ws ->
  (forall pat, pat ∈ CLAUDE_MD_PATTERNS ->
               is_under ws (join (globalClaudePath env) [pat]) = false) ->
  (forall pat, pat ∈ CLAUDE_MD_PATTERNS ->
               file_there (join (join ws [".claude"]) [pat]) w = false) ->
  discoverMemories env w = (Ok items, w') ->
  NoDup (FileOps.path <$> items).
Proof.
  intros Hws Hglobal Hdot. unfold discoverMemories. rewrite Hws.
  rewrite bind_run.
  destruct (first_memory_spec (globalClaudePath env) FileOps.global "Global"
              CLAUDE_MD_PATTERNS w) as (g & w1 & -> & Hf1 & Hfl1 & Hg).
  cbv beta iota. rewrite bind_run.
  destruct (first_memory_spec ws FileOps.project "Project Root"
              CLAUDE_MD_PATTERNS w1) as (p & w2 & -> & Hf2 & Hfl2 & Hp).
  cbv beta iota. rewrite bind_run.
  destruct (first_memory_spec (join ws [".claude"]) FileOps.project
              "Project .claude" CLAUDE_MD_PATTERNS w2)
    as (d & w3 & -> & Hf3 & Hfl3 & Hd).
  cbv beta iota. rewrite bind_run. unfold findNestedClaudeFiles. rewrite Hws.
  destruct (nested_loop_spec ws CLAUDE_MD_PATTERNS w3) as (nested & -> & Hall & Hnd).
  cbv beta iota. intros [= <- <-].
  assert (Hd0 : d = []).
  { destruct Hd as [->|(pat & Hin & Hthere & _)]; [reflexivity|].
    specialize (Hdot pat Hin). unfold file_there in *.
    rewrite Hf2, Hf1, Hfl2, Hfl1 in Hthere. congruence. }
  subst d. rewrite app_nil_l.
  assert (Hpats : NoDup CLAUDE_MD_PATTERNS).
  { unfold CLAUDE_MD_PATTERNS. apply NoDup_cons. split.
    - intros Hin. apply list_elem_of_singleton in Hin. discriminate.
    - apply NoDup_singleton. }
  specialize (Hnd Hpats). rewrite Forall_forall in Hall.
  rewrite !fmap_app. apply NoDup_app. split; [|split].
  - destruct Hg as [->|(pat & _ & _ & ->)]; [constructor|apply NoDup_singleton].
  - intros q Hq Hq2.
    destruct Hg as [->|(pat & Hin & _ & ->)]; [now apply elem_of_nil in Hq|].
    apply list_elem_of_singleton in Hq. simpl in Hq. subst q.
    specialize (Hglobal pat Hin).
    apply elem_of_app in Hq2 as [Hq2|Hq2].
    + destruct Hp as [->|(pat' & _ & _ & ->)]; [now apply elem_of_nil in Hq2|].
      apply list_elem_of_singleton in Hq2. simpl in Hq2.
      rewrite Hq2 in Hglobal. unfold join in Hglobal.
      now rewrite is_under_app in Hglobal.
    + destruct (Hall _ Hq2) as (Hu & _ & _). congruence.
  - apply NoDup_app. split; [|split; [|exact Hnd]].
    + destruct Hp as [->|(pat & _ & _ & ->)]; [constructor|apply NoDup_singleton].
    + intros q Hq Hq2.
      destruct Hp as [->|(pat & _ & _ & ->)]; [now apply elem_of_nil in Hq|].
      apply list_elem_of_singleton in Hq. simpl in Hq. subst q.
      destruct (Hall _ Hq2) as (_ & Hdir & _).
      apply Hdir. apply dirname_join.
Qed.

End DiscoveryFacts.

Module Instances.
Import Js Fs Hooks Shapes Examples.
Import JsFacts HooksFacts DeleteFacts AddFacts DeleteFacts2 FsFacts HooksClaims.
Import FileOpsFacts.

(** C5 at a settings file with one hook, addressed with a matcher index
    that is out of date. *)
Lemma C5_stale_index_witness :
  exists w' msg cs,
    HooksFs.updateHook settings_path PreToolUse 1 0 check_hook
      (world_with one_hook_doc) = (Ok false, w')
    /\ files w' = files (world_with one_hook_doc)
    /\ notices w' = notices (world_with one_hook_doc) ++ [Error msg]
    /\ calls w' = calls (world_with one_hook_doc) ++ cs
    /\ forall q, WriteFile q ∉ cs.
Proof.
  refine (proj1 (C5_stale_index_fails_cleanly settings_path PreToolUse 1 0
                   check_hook (world_with one_hook_doc) _)).
  intros d Hd. vm_compute in Hd. injection Hd as <-. reflexivity.
Defined.




(** C2 at a skill file in its own folder below [skills]: the folder is
    removed with it. *)
Lemma C2_skill_folder_witness :
  exists w' cs,
    FileOps.deleteFile (skill_item skill_file) true (skills_world skill_file)
    = (Ok true, w')
    /\ calls w' = [Stat skill_file; Unlink skill_file] ++ cs
    /\ Rmdir (dirname skill_file) ∈ cs.
Proof.
  destruct (C2_deleteFile_parent_cleanup (skill_item skill_file)
              (skills_world skill_file) (Text "text"))
    as (w' & cs & Hrun & Hcalls & _ & Hiff).
  - discriminate.
  - vm_compute. reflexivity.
  - apply not_elem_of_nil.
  - apply not_elem_of_nil.
  - exists w', cs. split; [exact Hrun|]. split; [exact Hcalls|].
    apply Hiff. split; [|split; [apply not_elem_of_nil|split]].
    + apply list_elem_of_here.
    + vm_compute. reflexivity.
    + vm_compute. reflexivity.
Defined.

(** C2 as stated fails in both directions. A file directly in [skills],
    the last one there: its parent is named [skills] and is left empty,
    yet no [rmdir] is attempted and the directory stays. A skill file in
    its own folder: the parent is named [review], not one of the three
    names, yet it is removed. *)
Lemma C2_counterexample :
  (exists w',
      FileOps.deleteFile (skill_item loose_skill) true (skills_world loose_skill)
      = (Ok true, w')
      /\ basename (dirname loose_skill) ∈ FileOps.grouping_dirs
      /\ entries (files w') (dirname loose_skill) = []
      /\ calls w' = [Stat loose_skill; Unlink loose_skill]
      /\ files w' !! dirname loose_skill = Some Dir)
  /\ (exists w',
        FileOps.deleteFile (skill_item skill_file) true (skills_world skill_file)
        = (Ok true, w')
        /\ basename (dirname skill_file) = "review"
        /\ calls w' = [Stat skill_file; Unlink skill_file;
                       Readdir (dirname skill_file); Rmdir (dirname skill_file)]
        /\ files w' !! dirname skill_file = None).
Proof.
  split.
  - eexists. split; [vm_compute; reflexivity|].
    split; [apply list_elem_of_here|].
    repeat split; vm_compute; reflexivity.
  - eexists. split; [vm_compute; reflexivity|].
    repeat split; vm_compute; reflexivity.
Qed.



(** C1 fails on the code: the memory file of the project's [.claude]
    directory is listed as a project item and again, with the same path,
    as a nested item; the search skips the files of the project root
    only. *)
Theorem C1_dot_claude_memory_listed_twice :
  exists a b w',
    Discovery.discoverMemories env dot_claude_project = (Ok [a; b], w')
    /\ FileOps.path a = ["w"; ".claude"; "CLAUDE.md"]
    /\ FileOps.path b = FileOps.path a
    /\ FileOps.scope a = FileOps.project
    /\ FileOps.scope b = FileOps.nested
    /\ ~ NoDup (FileOps.path <$> [a; b]).
Proof.
  eexists _, _, _. split; [vm_compute; reflexivity|].
  repeat split. intros Hnd. apply NoDup_cons in Hnd as [Hnot _].
  apply Hnot. apply list_elem_of_here.
Qed.

(** The example of the specification holds: a top-level memory file and
    three nested ones give one project item and three nested items, with
    four different paths. *)
Example nested_project_memories :
  exists items w',
    Discovery.discoverMemories env nested_project = (Ok items, w')
    /\ FileOps.scope <$> items
       = [FileOps.project; FileOps.nested; FileOps.nested; FileOps.nested]
    /\ FileOps.path <$> items
       = [["w"; "CLAUDE.md"]; ["w"; "web"; "ui"; "CLAUDE.md"];
          ["w"; "api"; "CLAUDE.md"]; ["w"; "web"; "CLAUDE.md"]].
Proof.
  eexists _, _. split; [vm_compute; reflexivity|].
  split; reflexivity.
Qed.

(** C8 fails on the code: a [null] where a matcher entry is expected
    passes the [typeof] test, reading its [hooks] throws, and the [catch]
    of [parseHooks] drops every hook of the file, the well-formed entry
    included. With a number in place of [null] the entry is skipped and
    the well-formed one is returned. *)
Theorem C8_null_entry_drops_the_file :
  fst (HooksFs.discoverHooks env (world_with null_entry_doc)) = Ok []
  /\ fst (HooksFs.discoverHooks env (world_with number_entry_doc))
     = Ok [{| eventType := "PreToolUse";
              matchers := [{| matcher := Some (JStr "Bash");
                             hooks := [hook_json echo_hook] |}];
              location := "Global (~/.claude)";
              configPath := settings_path |}].
Proof. split; vm_compute; reflexivity. Qed.

(** C9 fails on the code, by the defect of C8: [addHook] writes the hook
    into a file that holds a [null] entry under another event type, and
    [discoverHooks] then returns nothing for that file. *)
Theorem C9_added_hook_not_discovered :
  exists w1,
    HooksFs.addHook env HooksFs.global PreToolUse "Bash" echo_hook
      (world_with stop_null_doc) = (Ok true, w1)
    /\ files w1 !! settings_path
       = Some (File (Json (JObj [("hooks",
                 JObj [("Stop", JArr [JNull]);
                       ("PreToolUse", JArr [bash_entry])])])))
    /\ fst (HooksFs.discoverHooks env w1) = Ok [].
Proof.
  eexists. split; [vm_compute; reflexivity|].
  split; vm_compute; reflexivity.
Qed.



(** A delete that fails half-way: [rm] of the skill folder fails after
    the file in it has been removed; [deleteFile] reports failure, the
    folder is still there and the file is gone. *)
Example failed_delete_removes_part :
  exists w',
    FileOps.deleteFile (claude_file (dirname skill_file) FileOps.skill FileOps.global)
      true half_removed_world = (Ok false, w')
    /\ files w' !! dirname skill_file = Some Dir
    /\ files half_removed_world !! skill_file = Some (File (Text "text"))
    /\ files w' !! skill_file = None.
Proof.
  eexists. split; [vm_compute; reflexivity|].
  split; [vm_compute; reflexivity|]. split; vm_compute; reflexivity.
Qed.

(** An update that fails half-way: [writeFile] fails after it has
    opened the settings file; [updateHook] reports failure and the file
    no longer holds the document. *)
Example failed_update_spoils_file :
  exists w',
    HooksFs.updateHook settings_path PreToolUse 0 0 check_hook half_written_world
    = (Ok false, w')
    /\ files half_written_world !! settings_path = Some (File (Json one_hook_doc))
    /\ files w' !! settings_path = Some (File (Text "{")).
Proof.
  eexists. split; [vm_compute; reflexivity|]. split; vm_compute; reflexivity.
Qed.

(** On a document whose [hooks] member is an array, [addHook] reports
    success and writes the document back as it was: the event type it
    sets on the array is not part of the JSON text. *)
Example addHook_on_array_hooks :
  addHook_doc array_hooks_doc PreToolUse "Bash" echo_hook = Ok array_hooks_doc.
Proof. reflexivity. Qed.

End Instances.

(* ===================================================================== *)
(** * Further properties *)
(* ===================================================================== *)

Module UpdateFacts.
Import Js Hooks Fs Shapes JsFacts HooksFacts DeleteFacts FsFacts.

Lemma event_name_inj ev ev' : event_name ev = event_name ev' -> ev = ev'.
Proof. destruct ev, ev'; (reflexivity || discriminate). Qed.

(** Reading an index back after [target[i] = v]. *)
Lemma get_idx_store_eq target i v x :
  get_idx (Some target) i = Ok (Some x) ->
  (match target with JStr _ => False | _ => True end) ->
  get_idx (Some (store_idx target i v)) i = Ok (Some v).
Proof.
  destruct target as [| | | |l|ms]; simpl; try discriminate; try tauto.
  - intros [= Hl] _. apply lookup_lt_Some in Hl.
    destruct (decide (i < length l)); [|lia]. simpl.
    now rewrite list_lookup_insert_eq.
  - intros _ _. now rewrite assoc_set_eq.
Qed.

Lemma get_idx_store_ne target i j v x :
  i <> j ->
  get_idx (Some target) i = Ok (Some x) ->
  get_idx (Some (store_idx target i v)) j = get_idx (Some target) j.
Proof.
  intros Hne.
  destruct target as [| | | |l|ms]; simpl; try reflexivity.
  - intros [= Hl]. apply lookup_lt_Some in Hl.
    destruct (decide (i < length l)); [|lia]. simpl.
    now rewrite list_lookup_insert_ne.
  - intros _. rewrite assoc_set_ne; [reflexivity|].
    intros Heq. apply Hne. now apply (inj pretty).
Qed.

Lemma updateHook_doc_Some d ev mi hi u d' :
  updateHook_doc d ev mi hi u = Ok (Some d') ->
  exists ms hs e es l x,
    d = JObj ms
    /\ assoc "hooks" ms = Some (JObj hs)
    /\ assoc (event_name ev) hs = Some e
    /\ get_idx (Some e) mi = Ok (Some (JObj es))
    /\ assoc "hooks" es = Some l
    /\ get_idx (Some l) hi = Ok (Some x)
    /\ (match l with JStr _ => False | _ => True end)
    /\ d' = JObj (set_assoc "hooks"
                    (JObj (set_assoc (event_name ev)
                             (store_idx e mi
                                (JObj (set_assoc "hooks"
                                         (store_idx l hi (hook_json u)) es)))
                             hs)) ms).
Proof.
  unfold updateHook_doc. intros H. inv_bind H.
  destruct a as [p|]; [|discriminate].
  destruct (locate_Some _ _ _ _ _ H0)
    as (ms & hs & es & l & x & -> & Hh & Hp & He & Hm & Hes & Hl & Hll & Hx & Ht).
  inv_bind H. injection H as <-.
  rewrite Hll in H1.
  assert (Hstr : match l with JStr _ => False | _ => True end)
    by (destruct l; try exact I; discriminate).
  assert (Ha : a = store_idx l hi (hook_json u))
    by (destruct l; try discriminate; simpl in H1; now injection H1).
  subst a. rewrite Hes in Hm.
  exists ms, hs, (l_event p), es, l, x.
  rewrite Hp, Hes. repeat split; assumption.
Qed.

Lemma updateHook_doc_replaces d ev mi hi u d' :
  updateHook_doc d ev mi hi u = Ok (Some d') ->
  addressed d' ev mi hi = Some (hook_json u)
  /\ forall ev' mi' hi',
       (ev', mi', hi') <> (ev, mi, hi) ->
       addressed d' ev' mi' hi' = addressed d ev' mi' hi'.
Proof.
  intros H.
  destruct (updateHook_doc_Some _ _ _ _ _ _ H)
    as (ms & hs & e & es & l & x & -> & Hh & He & Hm & Hl & Hx & Hstr & ->).
  clear H. split.
  - unfold addressed. cbn [mbind result_bind get_key].
    rewrite assoc_set_eq. cbn [mbind result_bind get_key].
    rewrite assoc_set_eq. cbn [mbind result_bind].
    rewrite (get_idx_store_eq e mi _ _ Hm)
      by (destruct e; try exact I; simpl in Hm; destruct (String.get mi s); discriminate).
    cbn [mbind result_bind get_key]. rewrite assoc_set_eq.
    cbn [mbind result_bind].
    now rewrite (get_idx_store_eq l hi _ _ Hx Hstr).
  - intros ev' mi' hi' Hne.
    unfold addressed. cbn [mbind result_bind get_key].
    rewrite assoc_set_eq, Hh. cbn [mbind result_bind get_key].
    destruct (decide (event_name ev' = event_name ev)) as [Heq|Hev].
    2:{ rewrite assoc_set_ne; [reflexivity|]. congruence. }
    apply event_name_inj in Heq as ->.
    rewrite assoc_set_eq, He. cbn [mbind result_bind].
    destruct (decide (mi' = mi)) as [->|Hmi].
    2:{ rewrite (get_idx_store_ne e mi mi' _ _ ltac:(congruence) Hm). reflexivity. }
    rewrite (get_idx_store_eq e mi _ _ Hm)
      by (destruct e; try exact I; simpl in Hm; destruct (String.get mi s); discriminate).
    rewrite Hm. cbn [mbind result_bind get_key]. rewrite assoc_set_eq, Hl.
    cbn [mbind result_bind].
    assert (hi <> hi') by congruence.
    now rewrite (get_idx_store_ne l hi hi' _ _ ltac:(assumption) Hx).
Qed.

(** X1: a successful [updateHook] puts the new hook at the addressed
    place of the settings file and leaves every other addressable hook
    of the file where and as it was. *)
Theorem updateHook_replaces_addressed p ev mi hi u w w' :
  HooksFs.updateHook p ev mi hi u w = (Ok true, w') ->
  exists d d',
    files w !! p = Some (File (Json d))
    /\ files w' = <[p := File (Json d')]> (files w)
    /\ addressed d' ev mi hi = Some (hook_json u)
    /\ forall ev' mi' hi',
         (ev', mi', hi') <> (ev, mi, hi) ->
         addressed d' ev' mi' hi' = addressed d ev' mi' hi'.
Proof.
  intros H.
  destruct (updateHook_true _ _ _ _ _ _ _ H) as (d & d' & Hd & Hu & Hfiles).
  exists d, d'. split; [assumption|]. split; [assumption|].
  now apply updateHook_doc_replaces.
Qed.

End UpdateFacts.

Module AddShape.
Import Js Hooks Fs Shapes HookShapes.
Import JsFacts HooksFacts DeleteFacts AddFacts FsFacts UpdateFacts.

Lemma addressed_irregular d ev mi hi : regular d = false -> addressed d ev mi hi = None.
Proof.
  destruct d as [| | | | |ms]; try reflexivity. simpl.
  unfold addressed. cbn [mbind result_bind get_key].
  destruct (assoc "hooks" ms) as [[]|]; try discriminate. reflexivity.
Qed.

(** What [addHook] starts from in a regular document on which it
    succeeds, and what it writes. *)
Lemma addHook_doc_shape d ev name h d1 :
  regular d = true ->
  addHook_doc d ev name h = Ok d1 ->
  exists ms hs arr,
    d = JObj ms
    /\ (assoc "hooks" ms = Some (JObj hs)
        \/ (truthy (assoc "hooks" ms) = false /\ hs = []))
    /\ (assoc (event_name ev) hs = Some (JArr arr)
        \/ (truthy (assoc (event_name ev) hs) = false /\ arr = []))
    /\ match find_matcher name 0 arr with
       | Ok (Some (i, e)) =>
           exists es l, e = JObj es /\ arr !! i = Some e
                        /\ assoc "hooks" es = Some (JArr l)
                        /\ d1 = written ms hs ev (<[i := with_hook es l h]> arr)
       | Ok None =>
           d1 = written ms hs ev
                  (arr ++ [with_hook [("matcher", JStr name); ("hooks", JArr [])] [] h])
       | Throw _ => False
       end.
Proof.
  intros Hreg. destruct d as [| | | | |ms]; try discriminate.
  unfold addHook_doc. intros H.
  apply bind_Ok in H as (h0 & Hh0 & H). simpl in Hh0. injection Hh0 as <-.
  apply bind_Ok in H as (hooksV & HhooksV & H).
  apply bind_Ok in H as (e0 & He0 & H).
  apply bind_Ok in H as (evV & HevV & H).
  apply bind_Ok in H as (arr & Harr & H).
  apply array_items_Ok in Harr as [= ->].
  apply bind_Ok in H as (found & Hfound & H).
  assert (Hhs : exists hs, hooksV = JObj hs
                /\ (assoc "hooks" ms = Some (JObj hs)
                    \/ (truthy (assoc "hooks" ms) = false /\ hs = []))).
  { apply or_init_Ok in HhooksV as [[Hv Ht]|(Ht & -> & _)].
    - simpl in Hreg. rewrite Hv in *.
      destruct hooksV; try discriminate;
        try (simpl in He0; injection He0 as <-;
             apply or_init_Ok in HevV as [[? ?]|(_ & _ & ?)]; discriminate).
      eauto.
    - exists []. auto. }
  destruct Hhs as (hs & -> & Hhs).
  simpl in He0. injection He0 as <-.
  assert (Harr : assoc (event_name ev) hs = Some (JArr arr)
                 \/ (truthy (assoc (event_name ev) hs) = false /\ arr = [])).
  { apply or_init_Ok in HevV as [[Hv Ht]|(Ht & [= <-] & _)]; auto. }
  exists ms, hs, arr. split; [reflexivity|]. split; [assumption|].
  split; [assumption|]. rewrite Hfound.
  destruct found as [[i m]|].
  - apply bind_Ok in H as (hsv & Hhsv & H).
    apply bind_Ok in H as (l & Hl & H).
    apply array_items_Ok in Hl as ->.
    apply get_key_Some in Hhsv as (es & [= ->] & Hes).
    destruct (find_matcher_Some _ _ _ _ _ Hfound) as (_ & Hlk & _).
    rewrite Nat.sub_0_r in Hlk.
    injection H as <-. exists es, l. repeat split; assumption.
  - apply bind_Ok in H as (hsv & Hhsv & H).
    apply bind_Ok in H as (l & Hl & H).
    simpl in Hhsv. injection Hhsv as <-.
    simpl in Hl. injection Hl as <-. injection H as <-.
    unfold written, with_hook. simpl.
    replace (length arr) with (length arr + 0) by lia.
    rewrite insert_app_r. reflexivity.
Qed.

Lemma addressed_falsy_hooks ms ev mi hi :
  truthy (assoc "hooks" ms) = false -> addressed (JObj ms) ev mi hi = None.
Proof.
  unfold addressed. cbn [mbind result_bind get_key].
  destruct (assoc "hooks" ms) as [[| [] | [] | [] | |]|]; try discriminate; reflexivity.
Qed.

Lemma addressed_falsy_event ms hs ev mi hi :
  assoc "hooks" ms = Some (JObj hs) ->
  truthy (assoc (event_name ev) hs) = false ->
  addressed (JObj ms) ev mi hi = None.
Proof.
  intros Hh. unfold addressed. cbn [mbind result_bind get_key]. rewrite Hh.
  cbn [mbind result_bind get_key].
  destruct (assoc (event_name ev) hs) as [[| [] | [] | [] | |]|]; try discriminate;
    reflexivity.
Qed.

Lemma addressed_written ms hs ev arr1 ev' mi hi :
  addressed (written ms hs ev arr1) ev' mi hi
  = if decide (event_name ev' = event_name ev)
    then match (m ← Ok (arr1 !! mi); hsv ← get_key m "hooks"; get_idx hsv hi) with
         | Ok v => v
         | Throw _ => None
         end
    else addressed (JObj (set_assoc "hooks" (JObj hs) ms)) ev' mi hi.
Proof.
  unfold addressed, written. cbn [mbind result_bind get_key].
  rewrite !assoc_set_eq. cbn [mbind result_bind get_key].
  destruct (decide _) as [->|Hne].
  - now rewrite assoc_set_eq.
  - rewrite assoc_set_ne by congruence. reflexivity.
Qed.

Lemma addressed_event ms hs ev arr mi hi :
  assoc "hooks" ms = Some (JObj hs) ->
  assoc (event_name ev) hs = Some (JArr arr) ->
  addressed (JObj ms) ev mi hi
  = match (m ← Ok (arr !! mi); hsv ← get_key m "hooks"; get_idx hsv hi) with
    | Ok v => v
    | Throw _ => None
    end.
Proof.
  intros Hh He. unfold addressed. cbn [mbind result_bind get_key].
  rewrite Hh. cbn [mbind result_bind get_key]. now rewrite He.
Qed.

Lemma addressed_set_hooks_same ms hs ev mi hi :
  assoc "hooks" ms = Some (JObj hs) ->
  addressed (JObj (set_assoc "hooks" (JObj hs) ms)) ev mi hi
  = addressed (JObj ms) ev mi hi.
Proof.
  intros Hh. unfold addressed. cbn [mbind result_bind get_key].
  now rewrite assoc_set_eq, Hh.
Qed.

(** [addHook] keeps every hook of the document at its address. *)
Lemma addHook_doc_keeps d ev name h d1 ev' mi hi x :
  addHook_doc d ev name h = Ok d1 ->
  addressed d ev' mi hi = Some x ->
  addressed d1 ev' mi hi = Some x.
Proof.
  intros Hadd Hx.
  destruct (regular d) eqn:Hreg.
  2:{ now rewrite addressed_irregular in Hx. }
  destruct (addHook_doc_shape _ _ _ _ _ Hreg Hadd)
    as (ms & hs & arr & -> & [Hh|[Hh _]] & Harr & Hspec).
  2:{ now rewrite addressed_falsy_hooks in Hx. }
  assert (Hd1 : exists arr1,
             d1 = written ms hs ev arr1
             /\ forall m, arr !! mi = Some m ->
                  arr1 !! mi = Some m
                  \/ exists es l, m = JObj es /\ assoc "hooks" es = Some (JArr l)
                                  /\ arr1 !! mi = Some (with_hook es l h)).
  { destruct (find_matcher name 0 arr) as [[[i e]|]|]; [| |contradiction].
    - destruct Hspec as (es & l & -> & Hi & Hl & ->).
      eexists. split; [reflexivity|]. intros m Hm.
      destruct (decide (i = mi)) as [->|Hne].
      + right. rewrite Hi in Hm. injection Hm as <-. exists es, l.
        repeat split; try assumption.
        apply list_lookup_insert_eq. now apply lookup_lt_Some in Hi.
      + left. now rewrite list_lookup_insert_ne.
    - eexists. split; [exact Hspec|]. intros m Hm. left.
      now apply lookup_app_l_Some. }
  destruct Hd1 as (arr1 & -> & Hkeep).
  rewrite addressed_written.
  destruct (decide (event_name ev' = event_name ev)) as [Heq|Hne].
  2:{ now rewrite addressed_set_hooks_same. }
  apply event_name_inj in Heq as ->.
  destruct Harr as [Harr|[Harr _]].
  2:{ now rewrite (addressed_falsy_event _ _ _ _ _ Hh Harr) in Hx. }
  rewrite (addressed_event _ _ _ _ _ _ Hh Harr) in Hx.
  cbn [mbind result_bind] in *.
  destruct (arr !! mi) as [m|] eqn:Hm; [|discriminate].
  destruct (Hkeep _ eq_refl) as [->|(es & l & -> & Hl & ->)]; [exact Hx|].
  unfold with_hook. cbn [mbind result_bind get_key] in *.
  rewrite assoc_set_eq. rewrite Hl in Hx. cbn [mbind result_bind get_idx] in *.
  destruct (l !! hi) as [y|] eqn:Hy; [|discriminate].
  now rewrite (lookup_app_l_Some _ _ _ _ Hy).
Qed.

End AddShape.

Module AddDeleteFacts.
Import Js Hooks Fs Shapes JsFacts HooksFacts DeleteFacts AddFacts FsFacts.
Import HooksClaims UpdateFacts AddShape HookShapes.

Lemma set_assoc_same k v l : assoc k l = Some v -> set_assoc k v l = l.
Proof.
  induction l as [|[k' v'] l IH]; simpl; [discriminate|].
  destruct (String.eqb_spec k k') as [->|]; [now intros [= ->]|].
  intros H. now rewrite IH.
Qed.

Lemma set_set_assoc k v v' l : set_assoc k v (set_assoc k v' l) = set_assoc k v l.
Proof.
  induction l as [|[k' w'] l IH]; simpl.
  - now rewrite String.eqb_refl.
  - destruct (String.eqb_spec k k') as [->|Hne]; simpl.
    + now rewrite String.eqb_refl.
    + destruct (String.eqb_spec k k'); [congruence|]. now rewrite IH.
Qed.

Lemma del_assoc_absent k l : assoc k l = None -> del_assoc k l = l.
Proof.
  induction l as [|[k' v'] l IH]; simpl; [reflexivity|].
  destruct (String.eqb_spec k k'); [discriminate|].
  intros H. now rewrite IH.
Qed.

Lemma truthy_false_plain v :
  truthy v = false -> match v with None => True | Some (JObj _) => False | Some (JArr _) => False | _ => True end.
Proof. destruct v as [[]|]; simpl; try discriminate; auto. Qed.

(** The guard of [deleteHook] on what [addHook] wrote. *)
Lemma locate_written ms hs ev arr1 i j es1 l1 x :
  arr1 !! i = Some (JObj es1) ->
  assoc "hooks" es1 = Some (JArr l1) ->
  l1 !! j = Some x ->
  truthy (Some x) = true ->
  locate (written ms hs ev arr1) ev i j
  = Ok (Some {| l_hooks := JObj (set_assoc (event_name ev) (JArr arr1) hs);
                l_event := JArr arr1;
                l_entry := JObj es1;
                l_list := Some (JArr l1) |}).
Proof.
  intros Hi Hl Hj Hx. unfold locate, written.
  cbn [mbind result_bind get_key]. rewrite assoc_set_eq.
  cbn [truthy negb mbind result_bind get_key]. rewrite assoc_set_eq.
  cbn [truthy negb mbind result_bind get_idx]. rewrite Hi.
  cbn [truthy negb mbind result_bind get_key]. rewrite Hl.
  cbn [mbind result_bind get_idx]. rewrite Hj, Hx. reflexivity.
Qed.

Lemma delete_last_app {A} (l : list A) (x : A) : delete (length l) (l ++ [x]) = l.
Proof. induction l as [|a l IH]; simpl; [reflexivity|now rewrite IH]. Qed.

Lemma hook_json_truthy h : truthy (Some (hook_json h)) = true.
Proof. reflexivity. Qed.

(** Deleting the hook that [addHook] has just added gives back the
    document [addHook] started from. *)
Lemma add_then_delete_doc d ev name h d1 :
  plain_for d ev = true ->
  normalized d = true ->
  addHook_doc d ev name h = Ok d1 ->
  exists i j,
    addressed d1 ev i j = Some (hook_json h)
    /\ deleteHook_doc d1 ev i j = Ok (Some d).
Proof.
  intros Hplain Hnorm Hadd.
  assert (Hreg : regular d = true).
  { destruct d as [| | | | |ms]; try discriminate. simpl in *.
    destruct (assoc "hooks" ms) as [[]|]; try discriminate; reflexivity. }
  destruct (addHook_doc_shape _ _ _ _ _ Hreg Hadd)
    as (ms & hs & arr & -> & Hh & Harr & Hspec).
  simpl in Hplain, Hnorm.
  (* the hooks member and the event array before *)
  assert (Hms : set_assoc "hooks" (JObj hs) ms = ms \/
                (assoc "hooks" ms = None /\ hs = [])).
  { destruct Hh as [Hh|[Hh ->]].
    - left. now apply set_assoc_same.
    - right. split; [|reflexivity].
      destruct (assoc "hooks" ms) as [[]|]; try discriminate; reflexivity. }
  assert (Hhs : (set_assoc (event_name ev) (JArr arr) hs = hs /\ arr <> []
                 /\ forallb entry_nonempty arr = true /\ hs <> [])
                \/ (assoc (event_name ev) hs = None /\ arr = [])).
  { destruct Harr as [Harr|[Harr ->]].
    - left. split; [now apply set_assoc_same|].
      destruct Hh as [Hh|[_ ->]]; [|discriminate].
      rewrite Hh in Hnorm. destruct hs as [|kv hs0] eqn:Ehs; [discriminate|].
      rewrite <- Ehs in *.
      pose proof (forallb_assoc _ _ _ _ Hnorm Harr) as He. simpl in He.
      destruct arr; [discriminate|]. repeat split; try assumption; congruence.
    - right. split; [|reflexivity].
      destruct Hh as [Hh|[_ ->]]; [|reflexivity].
      rewrite Hh in Hplain.
      destruct (assoc (event_name ev) hs) as [[]|]; try discriminate; reflexivity. }
  destruct (find_matcher name 0 arr) as [[[i e]|]|] eqn:Hf; [| |contradiction].
  - (* the hook went into an entry that was there *)
    destruct Hspec as (es & l & -> & Hi & Hl & ->).
    destruct Hhs as [(Hset & Hne & Hall & Hhsne)|[_ ->]]; [|discriminate].
    assert (Hlne : l <> []).
    { assert (He : entry_nonempty (JObj es) = true).
      { rewrite forallb_forall in Hall. apply Hall.
        apply list_elem_of_In. eapply list_elem_of_lookup_2; eauto. }
      simpl in He. rewrite Hl in He. now destruct l. }
    apply lookup_lt_Some in Hi as Hlt.
    exists i, (length l).
    assert (Hat : <[i:=with_hook es l h]> arr !! i = Some (with_hook es l h))
      by now apply list_lookup_insert_eq.
    assert (Hlast : (l ++ [hook_json h]) !! length l = Some (hook_json h)).
    { rewrite lookup_app_r by lia. now rewrite Nat.sub_diag. }
    split.
    + rewrite addressed_written.
      destruct (decide (event_name ev = event_name ev)); [|congruence].
      cbn [mbind result_bind]. rewrite Hat. unfold with_hook.
      cbn [mbind result_bind get_key]. rewrite assoc_set_eq.
      cbn [mbind result_bind get_idx]. now rewrite Hlast.
    + unfold deleteHook_doc.
      unfold with_hook in Hat |- *.
      rewrite (locate_written ms hs ev _ i (length l) _ _ _ Hat
                 (assoc_set_eq _ _ _) Hlast (hook_json_truthy h)).
      cbn [mbind result_bind array_items l_list l_event l_entry l_hooks].
      rewrite delete_last_app.
      destruct l as [|y l']; [congruence|].
      cbn [mbind result_bind store_key store_idx].
      rewrite length_insert.
      destruct (decide (i < length arr)); [|lia].
      rewrite set_set_assoc, (set_assoc_same _ _ _ Hl).
      rewrite list_insert_insert_eq, (list_insert_id _ _ _ Hi).
      rewrite DeleteFacts2.length_is_zero_arr.
      rewrite bool_decide_eq_false_2 by exact Hne.
      rewrite set_set_assoc, Hset. cbn [object_entries].
      destruct hs as [|kv hs0]; [congruence|].
      unfold written. cbn [store_key]. rewrite set_set_assoc.
      destruct Hms as [->|[_ [=]]]. reflexivity.
  - (* the hook went into a new entry *)
    subst d1.
    exists (length arr), 0.
    set (e1 := with_hook [("matcher", JStr name); ("hooks", JArr [])] [] h) in *.
    assert (Hat : (arr ++ [e1]) !! length arr = Some e1).
    { rewrite lookup_app_r by lia. now rewrite Nat.sub_diag. }
    split.
    + rewrite addressed_written.
      destruct (decide (event_name ev = event_name ev)); [|congruence].
      cbn [mbind result_bind]. rewrite Hat. reflexivity.
    + unfold deleteHook_doc.
      rewrite (locate_written ms hs ev _ (length arr) 0 _ [hook_json h] (hook_json h) Hat
                 eq_refl eq_refl (hook_json_truthy h)).
      cbn [mbind result_bind array_items l_list l_event l_entry l_hooks delete list_delete].
      rewrite delete_last_app.
      rewrite DeleteFacts2.length_is_zero_arr.
      destruct Hhs as [(Hset & Hne & Hall & Hhsne)|[Habs ->]].
      * rewrite bool_decide_eq_false_2 by exact Hne.
        cbn [store_key]. rewrite set_set_assoc, Hset. cbn [object_entries].
        destruct hs as [|kv hs0]; [congruence|].
        unfold written. cbn [store_key]. rewrite set_set_assoc.
        destruct Hms as [->|[_ [=]]]. reflexivity.
      * rewrite bool_decide_eq_true_2 by reflexivity.
        cbn [delete_key]. rewrite del_set_assoc, (del_assoc_absent _ _ Habs).
        cbn [object_entries].
        destruct Hms as [Hsame|[Hnone ->]].
        -- destruct hs as [|kv hs0].
           ++ exfalso. destruct Hh as [Hh|[Hh _]].
              ** rewrite Hh in Hnorm. discriminate.
              ** rewrite <- Hsame in Hh. rewrite assoc_set_eq in Hh. discriminate.
           ++ unfold written. cbn [store_key]. rewrite set_set_assoc, Hsame.
              reflexivity.
        -- unfold written. cbn [delete_key]. rewrite del_set_assoc.
           now rewrite (del_assoc_absent _ _ Hnone).
Qed.

End AddDeleteFacts.

Module HooksFileFacts.
Import Js Hooks Fs Shapes JsFacts HooksFacts DeleteFacts AddFacts FsFacts.
Import HooksClaims UpdateFacts AddShape HookShapes AddDeleteFacts RoundTripFacts.

(** The read-modify-write of [updateHook] and [deleteHook] on a
    settings file in place, with nothing in its way. *)
Lemma rmw_run p f label w d d' :
  faults w = [] ->
  p <> [] ->
  files w !! p = Some (File (Json d)) ->
  node_at (files w) (dirname p) = Some Dir ->
  f d = Ok (Some d') ->
  exists w', rmw p f label w = (Ok true, w')
             /\ files w' = <[p := File (Json d')]> (files w).
Proof.
  intros Hf Hne Hfile Hdir Hfd.
  unfold rmw, try_catch. rewrite bind_run, fileExists_run. cbv beta iota.
  assert (Hft : file_there p w = true).
  { unfold file_there. rewrite Hf, (node_at_ne _ _ Hne), Hfile.
    destruct (decide (Stat p ∈ [])) as [Hin|_]; [|reflexivity].
    now apply elem_of_nil in Hin. }
  rewrite Hft. cbn [negb]. rewrite bind_run.
  unfold readFile. rewrite syscall_nofault by exact Hf.
  unfold readFile_sem. cbn [files logged with_files]. rewrite Hfile. cbv beta iota.
  rewrite bind_run. unfold lift at 1. simpl JSON_parse. cbv beta iota.
  rewrite bind_run. unfold lift at 1. rewrite Hfd. cbv beta iota.
  rewrite bind_run. unfold writeFile. rewrite syscall_partial_run by exact Hf.
  unfold writeFile_sem. cbn [files logged with_files].
  destruct p as [|s0 p0]; [congruence|]. rewrite Hfile, Hdir. cbv beta iota.
  eexists. split; reflexivity.
Qed.

(** X2: when no call fails and the settings file holds a document
    whose [hooks] member, if any, is an object, in which the event type,
    if present, holds an array, and which has no [hooks] object without
    event types, no event type with an empty array and no matcher entry
    with an empty [hooks] list, deleting the hook that [addHook] has just
    added leaves the file with the document it held before the hook was
    added. *)
Theorem add_then_delete_restores env sc ev name h w w1 p d :
  faults w = [] ->
  HooksFs.getSettingsPath env sc = Some p ->
  files w !! p = Some (File (Json d)) ->
  plain_for d ev = true ->
  normalized d = true ->
  HooksFs.addHook env sc ev name h w = (Ok true, w1) ->
  exists d1 i j w2,
    files w1 !! p = Some (File (Json d1))
    /\ addressed d1 ev i j = Some (hook_json h)
    /\ HooksFs.deleteHook p ev i j w1 = (Ok true, w2)
    /\ files w2 !! p = Some (File (Json d)).
Proof.
  intros Hf Hp Hfile Hplain Hnorm H1.
  destruct (addHook_true _ _ _ _ _ _ _ H1)
    as (p' & d0 & d1 & t & Hp' & Hadd & Hfiles & Hdir & Hne & Hfl & _ & Hkeep & Hd).
  rewrite Hp in Hp'. injection Hp' as <-.
  rewrite Hfile, Hf in Hd.
  destruct (decide (Stat p ∈ [])) as [Hin|_]; [now apply elem_of_nil in Hin|].
  subst d0.
  destruct (add_then_delete_doc _ _ _ _ _ Hplain Hnorm Hadd) as (i & j & Hat & Hdel).
  assert (Hfile1 : files w1 !! p = Some (File (Json d1)))
    by (rewrite Hfiles; apply lookup_insert_eq).
  assert (Hdir1 : node_at (files w1) (dirname p) = Some Dir).
  { rewrite Hfiles. destruct (dirname p) as [|a q] eqn:Edir; [reflexivity|].
    simpl in *. rewrite lookup_insert_ne; [assumption|].
    intros Heq. apply (not_prefix_dirname p Hne). rewrite Edir, <- Heq.
    reflexivity. }
  destruct (rmw_run p (fun s => deleteHook_doc s ev i j) "Failed to delete hook: "
              w1 d1 d ltac:(now rewrite Hfl) Hne Hfile1 Hdir1 Hdel) as (w2 & Hrun & Hfiles2).
  exists d1, i, j, w2. rewrite deleteHook_rmw. repeat split; try assumption.
  rewrite Hfiles2. apply lookup_insert_eq.
Qed.

(** X3: when [stat] of the settings file does not fail, a successful
    [addHook] leaves every hook that could be addressed in the settings
    file before at the same event type, matcher index and hook index. *)
Theorem addHook_keeps_addresses env sc ev name h w w' p :
  HooksFs.getSettingsPath env sc = Some p ->
  Stat p ∉ faults w ->
  HooksFs.addHook env sc ev name h w = (Ok true, w') ->
  exists d', files w' !! p = Some (File (Json d'))
    /\ forall ev' mi hi x,
         addressed (settings_before (files w) p) ev' mi hi = Some x ->
         addressed d' ev' mi hi = Some x.
Proof.
  intros Hp Hst H.
  destruct (addHook_true _ _ _ _ _ _ _ H)
    as (p' & d & d' & t & Hp' & Hadd & Hfiles & _ & _ & _ & _ & _ & Hd).
  rewrite Hp in Hp'. injection Hp' as <-.
  exists d'. split; [rewrite Hfiles; apply lookup_insert_eq|].
  assert (Hd0 : d = settings_before (files w) p).
  { rewrite Hd. unfold settings_before.
    destruct (files w !! p) as [[[s|d0]|]|]; try reflexivity;
      now destruct (decide (Stat p ∈ faults w)). }
  rewrite <- Hd0. intros ev' mi hi x. now apply (addHook_doc_keeps d ev name h).
Qed.

(** *** Discovery *)

Lemma parseHooks_run p loc w :
  file_there p w = true ->
  exists w',
    HooksFs.parseHooks p loc w = (Ok (hooks_of w p loc), w')
    /\ files w' = files w /\ faults w' = faults w /\ notices w' = notices w
    /\ calls w' = calls w ++ [ReadFile p].
Proof.
  intros Hft. unfold hooks_of. rewrite Hft.
  apply file_there_true in Hft as [c Hc]. apply node_at_file in Hc.
  unfold HooksFs.parseHooks, try_catch. rewrite bind_run.
  unfold readFile, syscall.
  destruct (decide (ReadFile p ∈ faults w)).
  { eexists. split; [reflexivity|]. simpl. auto. }
  unfold readFile_sem. rewrite Hc. cbv beta iota.
  rewrite bind_run. unfold lift at 1.
  destruct c as [s|d]; simpl JSON_parse; cbv beta iota.
  { eexists. split; [reflexivity|]. simpl. auto. }
  unfold lift, parseHooks_doc.
  destruct (parseHooks_try d loc p) as [cs|e];
    (eexists; split; [reflexivity|]; simpl; auto).
Qed.

Lemma hooks_of_absent p loc w : file_there p w = false -> hooks_of w p loc = [].
Proof. unfold hooks_of. now intros ->. Qed.

Lemma hooks_of_logged p loc c w : hooks_of (logged c w) p loc = hooks_of w p loc.
Proof. reflexivity. Qed.

Lemma parse_if_exists_run p loc w :
  exists w' cs,
    HooksFs.parse_if_exists p loc w = (Ok (hooks_of w p loc), w')
    /\ files w' = files w /\ faults w' = faults w /\ notices w' = notices w
    /\ calls w' = calls w ++ cs /\ Forall reads cs.
Proof.
  unfold HooksFs.parse_if_exists. rewrite bind_run, fileExists_run. cbv beta iota.
  destruct (file_there p w) eqn:Hft.
  - destruct (parseHooks_run p loc (logged (Stat p) w) Hft)
      as (w' & -> & Hfi & Hfa & Hno & Hca).
    exists w', [Stat p; ReadFile p]. split; [reflexivity|].
    repeat split; try assumption.
    + rewrite Hca. simpl. now rewrite <- app_assoc.
    + repeat constructor.
  - rewrite (hooks_of_absent _ _ _ Hft).
    exists (logged (Stat p) w), [Stat p]. split; [reflexivity|].
    repeat split. repeat constructor.
Qed.

Lemma hooks_of_same p loc w w' :
  files w' = files w -> faults w' = faults w ->
  hooks_of w' p loc = hooks_of w p loc.
Proof. intros Hfi Hfa. unfold hooks_of, file_there. now rewrite Hfi, Hfa. Qed.

Lemma discoverHooks_run env w :
  exists w' cs,
    HooksFs.discoverHooks env w
    = (Ok (hooks_of w (join (globalClaudePath env) ["settings.json"])
             "Global (~/.claude)"
           ++ match workspaceFolder env with
              | Some ws => hooks_of w (join ws [".claude"; "settings.local.json"])
                             "Project (.claude/settings.local.json)"
              | None => []
              end), w')
    /\ files w' = files w
    /\ notices w' = notices w
    /\ calls w' = calls w ++ cs
    /\ Forall reads cs.
Proof.
  unfold HooksFs.discoverHooks. rewrite bind_run.
  destruct (parse_if_exists_run (join (globalClaudePath env) ["settings.json"])
              "Global (~/.claude)" w)
    as (w1 & cs1 & -> & Hfi1 & Hfa1 & Hno1 & Hca1 & Hr1).
  cbv beta iota. rewrite bind_run.
  destruct (workspaceFolder env) as [ws|].
  - destruct (parse_if_exists_run (join ws [".claude"; "settings.local.json"])
                "Project (.claude/settings.local.json)" w1)
      as (w2 & cs2 & -> & Hfi2 & Hfa2 & Hno2 & Hca2 & Hr2).
    cbv beta iota. rewrite (hooks_of_same _ _ _ _ Hfi1 Hfa1).
    exists w2, (cs1 ++ cs2). split; [reflexivity|].
    repeat split; try congruence.
    + rewrite Hca2, Hca1. now rewrite app_assoc.
    + now apply Forall_app.
  - exists w1, cs1. split; [reflexivity|]. auto.
Qed.

(** X4: [discoverHooks] never fails and only reads: it returns the
    hooks of the global settings file followed by those of the local
    one, each file being read on its own, so that a file that is
    missing, unreadable, not JSON or on which [parseHooks] throws
    contributes nothing and hides nothing of the other file; the tree
    and the notices stay as they were. *)
Theorem discoverHooks_reads_each_file_alone env w :
  exists w' cs,
    HooksFs.discoverHooks env w
    = (Ok (hooks_of w (join (globalClaudePath env) ["settings.json"])
             "Global (~/.claude)"
           ++ match workspaceFolder env with
              | Some ws => hooks_of w (join ws [".claude"; "settings.local.json"])
                             "Project (.claude/settings.local.json)"
              | None => []
              end), w')
    /\ files w' = files w
    /\ notices w' = notices w
    /\ calls w' = calls w ++ cs
    /\ Forall reads cs.
Proof. apply discoverHooks_run. Qed.

End HooksFileFacts.

Module HooksRoundTrip.
Import Js Hooks Fs Shapes JsFacts HooksFacts DeleteFacts AddFacts FsFacts.
Import HooksClaims UpdateFacts AddShape HookShapes AddDeleteFacts RoundTripFacts.
Import HooksFileFacts.

Lemma null_free_set_assoc k l hs :
  null_free hs -> Forall (fun m => m <> JNull) l ->
  null_free (set_assoc k (JArr l) hs).
Proof.
  intros Hhs Hl. induction Hhs as [|[k' v'] hs Hkv Hrest IH]; simpl.
  - repeat constructor. exact Hl.
  - destruct (String.eqb k k'); constructor; assumption.
Qed.

Lemma null_free_assoc k l hs :
  null_free hs -> assoc k hs = Some (JArr l) -> Forall (fun m => m <> JNull) l.
Proof.
  intros Hhs. induction Hhs as [|[k' v'] hs Hkv Hrest IH]; simpl; [discriminate|].
  destruct (String.eqb k k'); [intros [= ->]; exact Hkv|exact IH].
Qed.

(** [addHook] brings no [null] entry into the document. *)
Lemma addHook_doc_no_null d ev name h d1 :
  regular d = true ->
  no_null_entry d ->
  addHook_doc d ev name h = Ok d1 ->
  exists ms1 hs1, d1 = JObj ms1 /\ assoc "hooks" ms1 = Some (JObj hs1)
                  /\ null_free hs1.
Proof.
  intros Hreg Hnn Hadd.
  destruct (addHook_doc_shape _ _ _ _ _ Hreg Hadd)
    as (ms & hs & arr & -> & Hh & Harr & Hspec).
  simpl in Hnn.
  assert (Hhs : null_free hs).
  { destruct Hh as [Hh|[_ ->]]; [now rewrite Hh in Hnn|constructor]. }
  assert (Ha : Forall (fun m => m <> JNull) arr).
  { destruct Harr as [Harr|[_ ->]]; [eapply null_free_assoc; eauto|constructor]. }
  assert (Hd1 : exists arr1, d1 = written ms hs ev arr1
                             /\ Forall (fun m => m <> JNull) arr1).
  { destruct (find_matcher name 0 arr) as [[[i e]|]|]; [| |contradiction].
    - destruct Hspec as (es & l & -> & Hi & Hl & ->).
      eexists. split; [reflexivity|]. apply Forall_insert; [assumption|discriminate].
    - eexists. split; [exact Hspec|]. apply Forall_app. split; [assumption|].
      repeat constructor. discriminate. }
  destruct Hd1 as (arr1 & -> & Ha1).
  eexists _, _. split; [reflexivity|]. rewrite assoc_set_eq.
  split; [reflexivity|]. now apply null_free_set_assoc.
Qed.

Lemma parse_events_path entries loc path : forall cs cfg,
  parse_events entries loc path = Ok cs ->
  cfg ∈ cs -> location cfg = loc /\ configPath cfg = path.
Proof.
  induction entries as [|[k v] entries IH]; intros cs cfg H Hin.
  - injection H as <-. now apply elem_of_nil in Hin.
  - simpl in H. destruct v as [| | | |l|]; try (eapply IH; eauto; fail).
    apply bind_Ok in H as (ms & _ & H).
    apply bind_Ok in H as (cs0 & Hcs0 & H). injection H as <-.
    destruct ms; [eapply IH; eauto|].
    apply elem_of_cons in Hin as [->|Hin]; [auto|eapply IH; eauto].
Qed.

Lemma nofault_not_in (w : World) (c : call) : faults w = [] -> c ∉ faults w.
Proof. intros ->. apply not_elem_of_nil. Qed.

(** X5: in a world where no call fails, once [addHook] has succeeded
    on a settings file that was absent or held an object without a
    [null] matcher entry (and whose [hooks] member is not an array),
    [discoverHooks] returns a configuration of that file and event type
    holding a matcher with the matcher string whose list of hooks ends
    with the added hook. *)
Theorem added_hook_is_discovered env sc ev name h w w1 p :
  faults w = [] ->
  HooksFs.getSettingsPath env sc = Some p ->
  regular (settings_before (files w) p) = true ->
  no_null_entry (settings_before (files w) p) ->
  HooksFs.addHook env sc ev name h w = (Ok true, w1) ->
  exists cs w2 cfg m l,
    HooksFs.discoverHooks env w1 = (Ok cs, w2)
    /\ cfg ∈ cs
    /\ configPath cfg = p
    /\ eventType cfg = event_name ev
    /\ m ∈ matchers cfg
    /\ matcher m = Some (JStr name)
    /\ hooks m = l ++ [hook_json h].
Proof.
  intros Hf Hp Hreg Hnn H1.
  destruct (addHook_true _ _ _ _ _ _ _ H1)
    as (p' & d & d1 & t & Hp' & Hadd & Hfiles & Hdir & Hne & Hfl & _ & Hkeep & Hd).
  rewrite Hp in Hp'. injection Hp' as <-.
  assert (Hd0 : d = settings_before (files w) p).
  { rewrite Hd. unfold settings_before. rewrite Hf.
    destruct (files w !! p) as [[[s|d0]|]|] eqn:E; reflexivity. }
  rewrite <- Hd0 in *.
  destruct (addHook_doc_no_null _ _ _ _ _ Hreg Hnn Hadd)
    as (ms1 & hs1 & -> & Hh1 & Hnf1).
  assert (Hfile1 : files w1 !! p = Some (File (Json (JObj ms1))))
    by (rewrite Hfiles; apply lookup_insert_eq).
  rewrite Hf in Hfl.
  assert (Hof : forall loc, hooks_of w1 p loc
                            = omap (event_config loc p) hs1).
  { intros loc. unfold hooks_of, file_there.
    rewrite (node_at_ne _ _ Hne), Hfile1, Hfl.
    destruct (decide (Stat p ∈ [])) as [Hin|_]; [now apply elem_of_nil in Hin|].
    destruct (decide (ReadFile p ∈ [])) as [Hin|_]; [now apply elem_of_nil in Hin|].
    simpl is_file. cbv iota. now apply parseHooks_null_free. }
  assert (Htry : forall loc, parseHooks_try (JObj ms1) loc p
                             = Ok (omap (event_config loc p) hs1)).
  { intros loc. unfold parseHooks_try. simpl. rewrite Hh1. simpl.
    now apply parse_events_null_free. }
  assert (Hin : forall loc, exists cfg m l,
             cfg ∈ omap (event_config loc p) hs1
             /\ configPath cfg = p
             /\ eventType cfg = event_name ev
             /\ m ∈ matchers cfg
             /\ matcher m = Some (JStr name)
             /\ hooks m = l ++ [hook_json h]).
  { intros loc.
    destruct (roundtrip_when_parsed _ _ _ _ _ loc p _ Hreg Hadd (Htry loc))
      as (cfg & m & l & Hcfg & Hev & Hm & Hname & Hl).
    exists cfg, m, l. repeat split; try assumption.
    assert (Hpe : parse_events hs1 loc p = Ok (omap (event_config loc p) hs1))
      by now apply parse_events_null_free.
    now destruct (parse_events_path _ _ _ _ _ Hpe Hcfg). }
  destruct (discoverHooks_run env w1) as (w2 & cs & Hrun & _).
  destruct sc; simpl in Hp.
  - injection Hp as Hp. rewrite Hp in Hrun. rewrite Hof in Hrun.
    destruct (Hin "Global (~/.claude)") as (cfg & m & l & Hcfg & Hrest).
    eexists _, w2, cfg, m, l. split; [exact Hrun|].
    split; [|exact Hrest]. apply elem_of_app. now left.
  - destruct (workspaceFolder env) as [ws|]; [|discriminate].
    injection Hp as Hp. rewrite Hp in Hrun. rewrite Hof in Hrun.
    destruct (Hin "Project (.claude/settings.local.json)")
      as (cfg & m & l & Hcfg & Hrest).
    eexists _, w2, cfg, m, l. split; [exact Hrun|].
    split; [|exact Hrest]. apply elem_of_app. now right.
Qed.

(** X6: on a settings file whose [hooks] member is an object without a
    [null] matcher entry, [parseHooks] returns, in the order of the
    file, one configuration for each event type that holds an array
    with at least one well-formed entry, made of those entries; the
    entries that are not objects or have no array under [hooks] are
    left out one by one. *)
Theorem parseHooks_skips_malformed_entries p loc w ms hs :
  files w !! p = Some (File (Json (JObj ms))) ->
  p <> [] ->
  ReadFile p ∉ faults w ->
  assoc "hooks" ms = Some (JObj hs) ->
  null_free hs ->
  exists w',
    HooksFs.parseHooks p loc w = (Ok (omap (event_config loc p) hs), w')
    /\ files w' = files w.
Proof.
  intros Hfile Hne Hrd Hh Hnf.
  unfold HooksFs.parseHooks, try_catch. rewrite bind_run.
  unfold readFile, syscall.
  destruct (decide (ReadFile p ∈ faults w)); [contradiction|].
  unfold readFile_sem. rewrite Hfile. cbv beta iota.
  rewrite bind_run. unfold lift at 1. simpl JSON_parse. cbv beta iota.
  unfold lift, parseHooks_try. simpl get_key. cbn [mbind result_bind].
  rewrite Hh. simpl. rewrite (parse_events_null_free _ _ _ Hnf).
  eexists. split; reflexivity.
Qed.

End HooksRoundTrip.

Module PermissionsFsFacts.
Import Js Fs Shapes JsFacts FsFacts HookShapes.
Import Permissions PermissionsFacts PermissionShapes.
Import PermissionsFs.

Lemma rules_of_strings ty loc p l :
  rules_of ty loc p l
  = match all_strings l with
    | Some ss => Ok (rule ty loc p <$> ss)
    | None => Throw TypeError
    end.
Proof.
  induction l as [|x l IH]; [reflexivity|].
  destruct x; try reflexivity. simpl. rewrite IH.
  now destruct (all_strings l).
Qed.

Lemma rules_in_strings ty loc p v :
  rules_in ty loc p v
  = match strings_in v with
    | Some ss => Ok (rule ty loc p <$> ss)
    | None => Throw TypeError
    end.
Proof.
  destruct v as [[| | | |l|]|]; try reflexivity.
  unfold rules_in. simpl. apply rules_of_strings.
Qed.

Lemma stat_fileExists_run p w :
  fileExists p w = (Ok (file_there p w), logged (Stat p) w).
Proof. apply FsFacts.fileExists_run. Qed.

(** X7: on a settings file whose [permissions] member is an object,
    [parsePermissions] returns one rule for each string of the [allow]
    array, then of the [ask] array, then of the [deny] array, in the
    order of the file and with the tool and pattern
    [parsePermissionPattern] gives; a member that is not an array counts
    for nothing; and a single entry that is not a string, in any of the
    three arrays, leaves the file without any rule. *)
Theorem parsePermissions_lists_or_nothing p loc w ms perms :
  files w !! p = Some (File (Json (JObj ms))) ->
  ReadFile p ∉ faults w ->
  assoc "permissions" ms = Some (JObj perms) ->
  exists w',
    parsePermissions p loc w
    = (Ok match strings_in (assoc "allow" perms),
                strings_in (assoc "ask" perms),
                strings_in (assoc "deny" perms) with
          | Some a, Some k, Some d =>
              (rule allow loc p <$> a) ++ (rule ask loc p <$> k)
              ++ (rule deny loc p <$> d)
          | _, _, _ => []
          end, w')
    /\ files w' = files w.
Proof.
  intros Hfile Hrd Hperm.
  unfold parsePermissions, try_catch. rewrite bind_run.
  unfold readFile, syscall.
  destruct (decide (ReadFile p ∈ faults w)); [contradiction|].
  unfold readFile_sem. rewrite Hfile. cbv beta iota.
  rewrite bind_run. unfold lift at 1. simpl JSON_parse. cbv beta iota.
  unfold lift, parsePermissions_try. cbn [get_key mbind result_bind].
  rewrite Hperm. cbn [truthy typeof_object negb orb get_key mbind result_bind].
  rewrite !rules_in_strings.
  destruct (strings_in (assoc "allow" perms)) as [a|]; cbn [mbind result_bind].
  2:{ eexists. split; reflexivity. }
  destruct (strings_in (assoc "ask" perms)) as [k|]; cbn [mbind result_bind].
  2:{ eexists. split; reflexivity. }
  destruct (strings_in (assoc "deny" perms)) as [d|]; cbn [mbind result_bind];
    eexists; split; reflexivity.
Qed.

(** *** What every discovered rule satisfies *)

Lemma parse_pattern_nonempty (s : jsstring) :
  Permissions.pattern (parsePermissionPattern s) <> []
  /\ (s <> [] -> Permissions.tool (parsePermissionPattern s) <> [])
  /\ Permissions.tool (parsePermissionPattern s) `prefix_of` s.
Proof.
  unfold parsePermissionPattern.
  destruct (regex_match s) as [[w g]|] eqn:E; simpl.
  - destruct (regex_match_shape _ _ _ E) as (d & r & -> & Hw & _ & _).
    split; [now destruct g|]. split; [auto|]. now exists (d :: r).
  - split; [discriminate|]. split; [auto|reflexivity].
Qed.

Lemma rules_of_sound ty loc p l rs :
  rules_of ty loc p l = Ok rs -> Forall (sound_rule p loc) rs.
Proof.
  rewrite rules_of_strings. destruct (all_strings l) as [ss|]; [|discriminate].
  intros [= <-]. apply Forall_fmap, Forall_forall. intros s _.
  split; [apply parse_pattern_nonempty|]. split; reflexivity.
Qed.

Lemma rules_in_sound ty loc p v rs :
  rules_in ty loc p v = Ok rs -> Forall (sound_rule p loc) rs.
Proof.
  unfold rules_in. destruct (isArray v).
  - intros H. apply bind_Ok in H as (l & _ & H). eapply rules_of_sound; eauto.
  - intros [= <-]. constructor.
Qed.

Lemma parsePermissions_try_sound d loc p rs :
  parsePermissions_try d loc p = Ok rs -> Forall (sound_rule p loc) rs.
Proof.
  unfold parsePermissions_try. intros H.
  apply bind_Ok in H as (pv & _ & H).
  destruct (negb (truthy pv) || negb (typeof_object pv)).
  { injection H as <-. constructor. }
  apply bind_Ok in H as (a & _ & H). apply bind_Ok in H as (ra & Hra & H).
  apply bind_Ok in H as (k & _ & H). apply bind_Ok in H as (rk & Hrk & H).
  apply bind_Ok in H as (d0 & _ & H). apply bind_Ok in H as (rd & Hrd & H).
  injection H as <-. rewrite !Forall_app.
  repeat split; eapply rules_in_sound; eauto.
Qed.

Lemma parsePermissions_run p loc w :
  exists rs w' cs,
    parsePermissions p loc w = (Ok rs, w')
    /\ files w' = files w /\ faults w' = faults w /\ notices w' = notices w
    /\ calls w' = calls w ++ cs /\ Forall reads cs
    /\ Forall (sound_rule p loc) rs.
Proof.
  unfold parsePermissions, try_catch. rewrite bind_run.
  destruct (readFile p w) as [[c|e] w1] eqn:Hr.
  2:{ apply syscall_Throw in Hr as ->.
      exists [], (logged (ReadFile p) w), [ReadFile p].
      repeat split; repeat constructor. }
  apply syscall_Ok in Hr as (_ & t & Hsem & ->).
  apply readFile_sem_Ok in Hsem as [-> _].
  rewrite bind_run. unfold lift at 1.
  destruct (JSON_parse c) as [d|e].
  2:{ exists [], (with_files (files w) (logged (ReadFile p) w)), [ReadFile p].
      repeat split; repeat constructor. }
  unfold lift.
  destruct (parsePermissions_try d loc p) as [rs|e] eqn:Htry.
  - exists rs, (with_files (files w) (logged (ReadFile p) w)), [ReadFile p].
    repeat split; try (repeat constructor; fail).
    eapply parsePermissions_try_sound; eauto.
  - exists [], (with_files (files w) (logged (ReadFile p) w)), [ReadFile p].
    repeat split; repeat constructor.
Qed.

Lemma perm_parse_if_exists_run p loc w :
  exists rs w' cs,
    parse_if_exists p loc w = (Ok rs, w')
    /\ files w' = files w /\ faults w' = faults w /\ notices w' = notices w
    /\ calls w' = calls w ++ cs /\ Forall reads cs
    /\ Forall (sound_rule p loc) rs.
Proof.
  unfold parse_if_exists. rewrite bind_run, stat_fileExists_run. cbv beta iota.
  destruct (file_there p w).
  - destruct (parsePermissions_run p loc (logged (Stat p) w))
      as (rs & w' & cs & -> & Hfi & Hfa & Hno & Hca & Hr & Hs).
    exists rs, w', (Stat p :: cs). repeat split; try assumption.
    + rewrite Hca. simpl. now rewrite <- app_assoc.
    + constructor; [exact I|assumption].
  - exists [], (logged (Stat p) w), [Stat p].
    repeat split; repeat constructor.
Qed.

Lemma first_managed_run ps : forall w,
  exists rs w' cs,
    first_managed ps w = (Ok rs, w')
    /\ files w' = files w /\ faults w' = faults w /\ notices w' = notices w
    /\ calls w' = calls w ++ cs /\ Forall reads cs
    /\ Forall (fun r => exists p, p ∈ ps
                                  /\ sound_rule p "Managed (Enterprise)" r) rs.
Proof.
  induction ps as [|p ps IH]; intros w.
  - exists [], w, []. repeat split; try constructor. now rewrite app_nil_r.
  - cbn [first_managed]. rewrite bind_run, stat_fileExists_run. cbv beta iota.
    destruct (file_there p w).
    + destruct (parsePermissions_run p "Managed (Enterprise)" (logged (Stat p) w))
        as (rs & w' & cs & -> & Hfi & Hfa & Hno & Hca & Hr & Hs).
      exists rs, w', (Stat p :: cs). repeat split; try assumption.
      * rewrite Hca. simpl. now rewrite <- app_assoc.
      * constructor; [exact I|assumption].
      * eapply Forall_impl; [exact Hs|]. intros r Hr'. exists p.
        split; [apply list_elem_of_here|assumption].
    + destruct (IH (logged (Stat p) w))
        as (rs & w' & cs & -> & Hfi & Hfa & Hno & Hca & Hr & Hs).
      exists rs, w', (Stat p :: cs). repeat split; try assumption.
      * rewrite Hca. simpl. now rewrite <- app_assoc.
      * constructor; [exact I|assumption].
      * eapply Forall_impl; [exact Hs|]. intros r (q & Hq & Hr').
        exists q. split; [now apply list_elem_of_further|assumption].
Qed.

Lemma discoverPermissions_run env platform w :
  exists rules w' cs,
    discoverPermissions env platform w = (Ok rules, w')
    /\ files w' = files w
    /\ notices w' = notices w
    /\ calls w' = calls w ++ cs
    /\ Forall reads cs
    /\ Forall (fun r =>
         PermissionsFs.pattern r <> []
         /\ ((PermissionsFs.configPath r = join (globalClaudePath env) ["settings.json"]
              /\ PermissionsFs.location r = "User (~/.claude)")
             \/ (exists ws, workspaceFolder env = Some ws
                   /\ ((PermissionsFs.configPath r = join ws [".claude"; "settings.json"]
                        /\ PermissionsFs.location r = "Project (.claude)")
                       \/ (PermissionsFs.configPath r
                           = join ws [".claude"; "settings.local.json"]
                           /\ PermissionsFs.location r = "Local (.claude)")))
             \/ (PermissionsFs.configPath r ∈ getManagedSettingsPaths platform
                 /\ PermissionsFs.location r = "Managed (Enterprise)"))) rules.
Proof.
  unfold discoverPermissions. rewrite bind_run.
  destruct (perm_parse_if_exists_run (join (globalClaudePath env) ["settings.json"])
              "User (~/.claude)" w)
    as (r1 & w1 & cs1 & -> & Hfi1 & Hfa1 & Hno1 & Hca1 & Hr1 & Hs1).
  cbv beta iota. rewrite bind_run.
  assert (Hproj : exists r2 w2 cs2,
    match workspaceFolder env with
    | Some ws =>
        projectRules ← parse_if_exists (join ws [".claude"; "settings.json"])
                         "Project (.claude)";
        localRules ← parse_if_exists (join ws [".claude"; "settings.local.json"])
                       "Local (.claude)";
        mret (projectRules ++ localRules)
    | None => mret []
    end w1 = (Ok r2, w2)
    /\ files w2 = files w1 /\ faults w2 = faults w1 /\ notices w2 = notices w1
    /\ calls w2 = calls w1 ++ cs2 /\ Forall reads cs2
    /\ Forall (fun r => exists ws, workspaceFolder env = Some ws
                /\ (sound_rule (join ws [".claude"; "settings.json"])
                      "Project (.claude)" r
                    \/ sound_rule (join ws [".claude"; "settings.local.json"])
                         "Local (.claude)" r)) r2).
  { destruct (workspaceFolder env) as [ws|].
    - rewrite bind_run.
      destruct (perm_parse_if_exists_run (join ws [".claude"; "settings.json"])
                  "Project (.claude)" w1)
        as (ra & wa & csa & -> & Hfia & Hfaa & Hnoa & Hcaa & Hra & Hsa).
      cbv beta iota. rewrite bind_run.
      destruct (perm_parse_if_exists_run (join ws [".claude"; "settings.local.json"])
                  "Local (.claude)" wa)
        as (rb & wb & csb & -> & Hfib & Hfab & Hnob & Hcab & Hrb & Hsb).
      cbv beta iota.
      exists (ra ++ rb), wb, (csa ++ csb). split; [reflexivity|].
      repeat split; try congruence.
      + rewrite Hcab, Hcaa. now rewrite app_assoc.
      + now apply Forall_app.
      + apply Forall_app. split.
        * eapply Forall_impl; [exact Hsa|]. intros r Hr. exists ws. auto.
        * eapply Forall_impl; [exact Hsb|]. intros r Hr. exists ws. auto.
    - exists [], w1, []. repeat split; try constructor. now rewrite app_nil_r. }
  destruct Hproj as (r2 & w2 & cs2 & -> & Hfi2 & Hfa2 & Hno2 & Hca2 & Hr2 & Hs2).
  cbv beta iota. rewrite bind_run.
  destruct (first_managed_run (getManagedSettingsPaths platform) w2)
    as (r3 & w3 & cs3 & -> & Hfi3 & Hfa3 & Hno3 & Hca3 & Hr3 & Hs3).
  cbv beta iota.
  exists (r1 ++ r2 ++ r3), w3, (cs1 ++ cs2 ++ cs3). split; [reflexivity|].
  repeat split; try congruence.
  - rewrite Hca3, Hca2, Hca1. now rewrite !app_assoc.
  - rewrite !Forall_app. auto.
  - rewrite !Forall_app. repeat split.
    + eapply Forall_impl; [exact Hs1|]. intros r (? & ? & ?). auto.
    + eapply Forall_impl; [exact Hs2|].
      intros r (ws & Hws & [(? & ? & ?)|(? & ? & ?)]); split; try assumption;
        right; left; exists ws; auto.
    + eapply Forall_impl; [exact Hs3|].
      intros r (q & Hq & ? & Hp & ?). split; [assumption|].
      right. right. rewrite Hp. auto.
Qed.

(** X8: [discoverPermissions] never fails and only reads: it returns a
    list of rules and leaves the tree and the notices as they were,
    whatever the settings files hold and whatever calls fail; every rule
    has a pattern that is not empty, and names as its source the user,
    project or local settings file or the managed settings file of the
    platform, under the label of that file. *)
Theorem discoverPermissions_reads_only env platform w :
  exists rules w' cs,
    discoverPermissions env platform w = (Ok rules, w')
    /\ files w' = files w
    /\ notices w' = notices w
    /\ calls w' = calls w ++ cs
    /\ Forall reads cs
    /\ Forall (fun r =>
         PermissionsFs.pattern r <> []
         /\ ((PermissionsFs.configPath r = join (globalClaudePath env) ["settings.json"]
              /\ PermissionsFs.location r = "User (~/.claude)")
             \/ (exists ws, workspaceFolder env = Some ws
                   /\ ((PermissionsFs.configPath r = join ws [".claude"; "settings.json"]
                        /\ PermissionsFs.location r = "Project (.claude)")
                       \/ (PermissionsFs.configPath r
                           = join ws [".claude"; "settings.local.json"]
                           /\ PermissionsFs.location r = "Local (.claude)")))
             \/ (PermissionsFs.configPath r ∈ getManagedSettingsPaths platform
                 /\ PermissionsFs.location r = "Managed (Enterprise)"))) rules.
Proof. apply discoverPermissions_run. Qed.

End PermissionsFsFacts.

Module ListingFacts.
Import Js Fs Shapes JsFacts FsFacts HookShapes.
Import Listing ListingShapes.
Import FileOps (extname).

Lemma quiet_refl w : quiet w w.
Proof.
  repeat split. exists []. split; [now rewrite app_nil_r|constructor].
Qed.

Lemma quiet_trans w1 w2 w3 : quiet w1 w2 -> quiet w2 w3 -> quiet w1 w3.
Proof.
  intros (Hfi & Hfa & Hno & cs & Hca & Hr) (Hfi' & Hfa' & Hno' & cs' & Hca' & Hr').
  repeat split; try congruence.
  exists (cs ++ cs'). split; [|now apply Forall_app].
  rewrite Hca', Hca. now rewrite app_assoc.
Qed.

Lemma quiet_logged c w : reads c -> quiet w (logged c w).
Proof.
  intros Hc. repeat split. exists [c]. split; [reflexivity|].
  now repeat constructor.
Qed.

Lemma strip_prefix_Some (p q r : path) :
  strip_prefix p q = Some r <-> q = p ++ r.
Proof.
  revert q. induction p as [|a p IH]; intros q; simpl.
  - split; [now intros [= ->]|now intros ->].
  - destruct q as [|b q]; [split; discriminate|].
    destruct (String.eqb_spec a b) as [->|Hne].
    + rewrite IH. split; [now intros ->|now intros [= ->]].
    + split; [discriminate|]. intros [= -> _]. congruence.
Qed.

Lemma dirents_elem (t : gmap path node) (p : path) (n : string) (nd : node) :
  (n, nd) ∈ dirents t p <-> t !! (p ++ [n]) = Some nd.
Proof.
  unfold dirents. rewrite list_elem_of_omap. split.
  - intros ([q nd'] & Hin & Hf). simpl in Hf.
    destruct (strip_prefix p q) as [[|n' [|]]|] eqn:E; try discriminate.
    injection Hf as -> ->. apply strip_prefix_Some in E as ->.
    now apply elem_of_map_to_list.
  - intros Hl. exists (p ++ [n], nd). split; [now apply elem_of_map_to_list|].
    simpl. now rewrite (proj2 (strip_prefix_Some p (p ++ [n]) [n]) eq_refl).
Qed.

Lemma NoDup_omap_inj {A B} (f : A -> option B) (l : list A) :
  (forall x1 x2 y, x1 ∈ l -> x2 ∈ l -> f x1 = Some y -> f x2 = Some y -> x1 = x2) ->
  NoDup l -> NoDup (omap f l).
Proof.
  intros Hinj Hnd. induction Hnd as [|x l Hx Hnd IH]; [constructor|].
  simpl. destruct (f x) as [y|] eqn:E.
  - constructor.
    + rewrite list_elem_of_omap. intros (x' & Hin & Hf).
      assert (x = x') as <-; [|contradiction].
      eapply Hinj; eauto; [apply list_elem_of_here|now apply list_elem_of_further].
    + apply IH. intros x1 x2 y0 H1 H2. apply Hinj; now apply list_elem_of_further.
  - apply IH. intros x1 x2 y0 H1 H2. apply Hinj; now apply list_elem_of_further.
Qed.

Lemma NoDup_dirents (t : gmap path node) (p : path) : NoDup (dirents t p).
Proof.
  unfold dirents. apply NoDup_omap_inj; [|apply NoDup_map_to_list].
  intros [q1 n1] [q2 n2] [n nd] _ _. simpl.
  destruct (strip_prefix p q1) as [[|a [|]]|] eqn:E1; try discriminate.
  destruct (strip_prefix p q2) as [[|b [|]]|] eqn:E2; try discriminate.
  intros [= -> ->] [= -> ->].
  apply strip_prefix_Some in E1 as ->. now apply strip_prefix_Some in E2 as ->.
Qed.

Lemma dirents_name_unique (t : gmap path node) (p : path) n nd1 nd2 :
  (n, nd1) ∈ dirents t p -> (n, nd2) ∈ dirents t p -> nd1 = nd2.
Proof. rewrite !dirents_elem. congruence. Qed.

Lemma readdirTypes_run (p : path) (w : World) :
  readdirTypes p w
  = (if decide (Readdir p ∈ faults w) then Throw (SystemError "EACCES")
     else match node_at (files w) p with
          | Some Dir => Ok (dirents (files w) p)
          | Some (File _) => Throw (SystemError "ENOTDIR")
          | None => Throw (SystemError "ENOENT")
          end, logged (Readdir p) w).
Proof.
  unfold readdirTypes, syscall, readdir_sem.
  destruct (decide _); [reflexivity|].
  destruct (node_at (files w) p) as [[c|]|]; reflexivity.
Qed.

(** A loop whose turns only read returns what its turns return. *)
Lemma for_each_run {A B} (f : A -> M (list B)) (g : A -> list B) (l : list A) :
  forall w,
    (forall x w0, x ∈ l -> quiet w w0 ->
       exists w1, f x w0 = (Ok (g x), w1) /\ quiet w0 w1) ->
    forall w0, quiet w w0 ->
      exists w1, for_each f l w0 = (Ok (l ≫= g), w1) /\ quiet w0 w1.
Proof.
  intros w. induction l as [|x l IH]; intros Hf w0 Hq.
  - exists w0. split; [reflexivity|apply quiet_refl].
  - cbn [for_each]. rewrite bind_run.
    destruct (Hf x w0 (list_elem_of_here _ _) Hq) as (w1 & -> & Hq1).
    cbv beta iota. rewrite bind_run.
    destruct (IH (fun y w' Hy => Hf y w' (list_elem_of_further _ _ _ Hy))
                w1 (quiet_trans _ _ _ Hq Hq1)) as (w2 & -> & Hq2).
    cbv beta iota. exists w2. split; [reflexivity|].
    eapply quiet_trans; eauto.
Qed.

Lemma getFilesInDirectory_upto_run depth exts : forall dir w,
  exists w',
    getFilesInDirectory_upto depth dir exts w
    = (Ok (walk depth (files w) (faults w) exts dir), w')
    /\ quiet w w'.
Proof.
  induction depth as [|depth IH]; intros dir w.
  - exists w. split; [reflexivity|apply quiet_refl].
  - cbn [getFilesInDirectory_upto walk]. unfold try_catch.
    rewrite bind_run, readdirTypes_run.
    assert (Hq0 : quiet w (logged (Readdir dir) w)) by now apply quiet_logged.
    destruct (decide (Readdir dir ∈ faults w)) as [Hfault|Hnofault].
    { eexists. split; [reflexivity|exact Hq0]. }
    destruct (node_at (files w) dir) as [[c|]|];
      try (eexists; split; [reflexivity|exact Hq0]).
    edestruct (for_each_run
      (fun entry : string * node =>
         match entry.2 with
         | File _ =>
             if bool_decide (toLowerCase (extname entry.1) ∈ exts)
             then mret [join dir [entry.1]] else mret []
         | Dir => getFilesInDirectory_upto depth (join dir [entry.1]) exts
         end)
      (fun entry : string * node =>
         match entry.2 with
         | File _ =>
             if bool_decide (toLowerCase (extname entry.1) ∈ exts)
             then [dir ++ [entry.1]] else []
         | Dir => walk depth (files w) (faults w) exts (dir ++ [entry.1])
         end)
      (dirents (files w) dir) w) as (w1 & Hrun & Hq1); [|exact Hq0|].
    + intros [n nd] w0 _ Hq. simpl. destruct nd as [c|].
      * destruct (bool_decide _); (eexists; split; [reflexivity|apply quiet_refl]).
      * destruct (IH (join dir [n]) w0) as (w1 & Hrun & Hq1).
        destruct Hq as (Hfi & Hfa & _). rewrite Hfi, Hfa in Hrun.
        exists w1. split; assumption.
    + rewrite Hrun. exists w1. split; [reflexivity|].
      eapply quiet_trans; eauto.
Qed.

Lemma getFilesAndDirsInDirectory_upto_run depth exts : forall dir w,
  exists w',
    getFilesAndDirsInDirectory_upto depth dir exts w
    = (Ok (walk_all depth (files w) (faults w) exts dir), w')
    /\ quiet w w'.
Proof.
  induction depth as [|depth IH]; intros dir w.
  - exists w. split; [reflexivity|apply quiet_refl].
  - cbn [getFilesAndDirsInDirectory_upto walk_all]. unfold try_catch.
    rewrite bind_run, readdirTypes_run.
    assert (Hq0 : quiet w (logged (Readdir dir) w)) by now apply quiet_logged.
    destruct (decide (Readdir dir ∈ faults w)) as [Hfault|Hnofault].
    { eexists. split; [reflexivity|exact Hq0]. }
    destruct (node_at (files w) dir) as [[c|]|];
      try (eexists; split; [reflexivity|exact Hq0]).
    edestruct (for_each_run
      (fun entry : string * node =>
         match entry.2 with
         | File _ =>
             if bool_decide (toLowerCase (extname entry.1) ∈ exts)
             then mret [(join dir [entry.1], false)] else mret []
         | Dir =>
             subItems ← getFilesAndDirsInDirectory_upto depth (join dir [entry.1])
                          exts;
             mret ((join dir [entry.1], true) :: subItems)
         end)
      (fun entry : string * node =>
         match entry.2 with
         | File _ =>
             if bool_decide (toLowerCase (extname entry.1) ∈ exts)
             then [(dir ++ [entry.1], false)] else []
         | Dir => (dir ++ [entry.1], true)
                  :: walk_all depth (files w) (faults w) exts (dir ++ [entry.1])
         end)
      (dirents (files w) dir) w) as (w1 & Hrun & Hq1); [|exact Hq0|].
    + intros [n nd] w0 _ Hq. simpl. destruct nd as [c|].
      * destruct (bool_decide _); (eexists; split; [reflexivity|apply quiet_refl]).
      * rewrite bind_run.
        destruct (IH (join dir [n]) w0) as (w1 & -> & Hq1).
        destruct Hq as (Hfi & Hfa & _). rewrite Hfi, Hfa.
        exists w1. split; [reflexivity|assumption].
    + rewrite Hrun. exists w1. split; [reflexivity|].
      eapply quiet_trans; eauto.
Qed.

End ListingFacts.

Module WalkFacts.
Import Js Fs Shapes JsFacts FsFacts HookShapes.
Import Listing ListingShapes ListingFacts.
Import FileOps (extname).

Lemma basename_snoc (dir : path) (n : string) : basename (dir ++ [n]) = n.
Proof. unfold basename. now rewrite last_snoc. Qed.

Lemma node_at_snoc (t : gmap path node) (dir : path) (n : string) :
  node_at t (dir ++ [n]) = t !! (dir ++ [n]).
Proof. apply node_at_ne. now destruct dir. Qed.

Lemma readable_down_cons t fl dir n rel :
  readable_down t fl dir (n :: rel)
  <-> node_at t dir = Some Dir /\ (Readdir dir ∉ fl)
      /\ readable_down t fl (dir ++ [n]) rel.
Proof.
  unfold readable_down. split.
  - intros H. destruct (H 0 ltac:(simpl; lia)) as [H0 H0'].
    simpl in H0, H0'. rewrite app_nil_r in H0, H0'.
    split; [assumption|]. split; [assumption|].
    intros k Hk. specialize (H (S k) ltac:(simpl; lia)). simpl in H.
    now rewrite <- app_assoc.
  - intros (H0 & H0' & H) [|k] Hk; simpl.
    + now rewrite app_nil_r.
    + specialize (H k ltac:(simpl in Hk; lia)). now rewrite <- app_assoc in H.
Qed.

Lemma readable_down_nil t fl dir : readable_down t fl dir [].
Proof. intros k Hk. simpl in Hk. lia. Qed.

(** What the walk for files returns. *)
Lemma walk_elem depth t fl exts : forall dir q,
  q ∈ walk depth t fl exts dir
  <-> exists rel c,
        q = dir ++ rel /\ rel <> [] /\ length rel <= depth
        /\ t !! q = Some (File c)
        /\ has_extension exts q
        /\ readable_down t fl dir rel.
Proof.
  induction depth as [|depth IH]; intros dir q.
  - simpl. split; [intros H; now apply elem_of_nil in H|].
    intros (rel & c & _ & Hne & Hlen & _). destruct rel; [congruence|simpl in Hlen; lia].
  - cbn [walk]. split.
    + destruct (decide (Readdir dir ∈ fl)) as [|Hnf]; [intros H; now apply elem_of_nil in H|].
      destruct (node_at t dir) as [[c0|]|] eqn:Hdir;
        try (intros H; now apply elem_of_nil in H).
      rewrite list_elem_of_bind. intros ([n nd] & Hq & Hin). simpl in Hq.
      apply dirents_elem in Hin.
      destruct nd as [c|].
      * destruct (bool_decide (toLowerCase (extname n) ∈ exts)) eqn:Hext;
          [|now apply elem_of_nil in Hq].
        apply list_elem_of_singleton in Hq as ->.
        exists [n], c. split_and!; try assumption; try discriminate.
        -- reflexivity.
        -- simpl. lia.
        -- unfold has_extension. rewrite basename_snoc.
           now apply bool_decide_eq_true in Hext.
        -- apply readable_down_cons. split_and!; try assumption.
           apply readable_down_nil.
      * apply IH in Hq as (rel & c & -> & Hne & Hlen & Hfile & Hext & Hrd).
        exists (n :: rel), c. rewrite <- app_assoc in *. simpl in *.
        split_and!; try assumption; try discriminate; [reflexivity|lia|].
        apply readable_down_cons. auto.
    + intros (rel & c & -> & Hne & Hlen & Hfile & Hext & Hrd).
      destruct rel as [|n rel]; [congruence|].
      apply readable_down_cons in Hrd as (Hdir & Hnf & Hrd).
      destruct (decide (Readdir dir ∈ fl)) as [Hfault|_]; [contradiction|].
      rewrite Hdir. rewrite list_elem_of_bind.
      destruct rel as [|n' rel'].
      * exists (n, File c). split; [|now apply dirents_elem]. simpl.
        unfold has_extension in Hext. rewrite basename_snoc in Hext.
        rewrite bool_decide_eq_true_2 by assumption. apply list_elem_of_here.
      * exists (n, Dir). split.
        -- simpl. apply IH. exists (n' :: rel'), c.
           rewrite <- app_assoc. simpl in *.
           split_and!; try assumption; try discriminate; [reflexivity|lia].
        -- apply dirents_elem.
           destruct (Hrd 0 ltac:(simpl; lia)) as [H0 _]. simpl in H0.
           rewrite app_nil_r in H0. now rewrite node_at_snoc in H0.
Qed.

Lemma walk_below depth t fl exts dir n q :
  q ∈ walk depth t fl exts (dir ++ [n]) -> exists rel, q = dir ++ n :: rel.
Proof.
  intros H. apply walk_elem in H as (rel & c & -> & _).
  exists rel. now rewrite <- app_assoc.
Qed.

Lemma walk_NoDup depth t fl exts : forall dir, NoDup (walk depth t fl exts dir).
Proof.
  induction depth as [|depth IH]; intros dir; [constructor|].
  cbn [walk]. destruct (decide _) as [Hfault|Hnofault]; [constructor|].
  destruct (node_at t dir) as [[c0|]|]; try constructor.
  apply NoDup_bind; [| |apply NoDup_dirents].
  - intros [n1 nd1] [n2 nd2] q H1 H2 Hq1 Hq2. simpl in *.
    assert (Hn : exists r1 r2, q = dir ++ n1 :: r1 /\ q = dir ++ n2 :: r2).
    { assert (G : forall n nd,
                q ∈ match nd with
                    | File _ =>
                        if bool_decide (toLowerCase (extname n) ∈ exts)
                        then [dir ++ [n]] else []
                    | Dir => walk depth t fl exts (dir ++ [n])
                    end -> exists r, q = dir ++ n :: r).
      { intros n [c|] Hq.
        - destruct (bool_decide (toLowerCase (extname n) ∈ exts));
            [|now apply elem_of_nil in Hq].
          apply list_elem_of_singleton in Hq as ->. now exists [].
        - eapply walk_below; eauto. }
      destruct (G _ _ Hq1) as [r1 E1]. destruct (G _ _ Hq2) as [r2 E2]. eauto. }
    destruct Hn as (r1 & r2 & E1 & E2). rewrite E1 in E2.
    apply app_inv_head in E2. injection E2 as -> _.
    f_equal. eapply dirents_name_unique; eauto.
  - intros [n [c|]] _; simpl; [|apply IH].
    destruct (bool_decide _); [apply NoDup_singleton|constructor].
Qed.

Lemma levels_bound (t : gmap path node) (q : path) (nd : node) :
  t !! q = Some nd -> length q <= levels t.
Proof.
  intros H. unfold levels. apply max_list_elem_of_le.
  apply list_elem_of_fmap. exists q. split; [reflexivity|].
  apply list_elem_of_fmap. exists (q, nd). split; [reflexivity|].
  now apply elem_of_map_to_list.
Qed.

Lemma getFilesInDirectory_run dir exts w :
  exists found w',
    getFilesInDirectory dir exts w = (Ok found, w')
    /\ quiet w w'
    /\ NoDup found
    /\ forall q, q ∈ found <-> listed w dir exts q.
Proof.
  unfold getFilesInDirectory.
  destruct (getFilesInDirectory_upto_run (S (levels (files w))) exts dir w)
    as (w' & Hrun & Hq).
  eexists _, w'. split; [exact Hrun|]. split; [exact Hq|].
  split; [apply walk_NoDup|].
  intros q. rewrite walk_elem. unfold listed. split.
  - intros (rel & c & ? & ? & ? & ? & ? & ?). exists rel, c. auto.
  - intros (rel & c & Hq' & Hne & Hfile & Hext & Hrd).
    exists rel, c. split_and!; try assumption.
    apply levels_bound in Hfile. subst q. rewrite length_app in Hfile. lia.
Qed.

(** X9: [getFilesInDirectory] never fails and only reads; it returns,
    each once, the files below the directory that carry one of the
    extensions (compared in lower case) and that can be reached, that
    is, every directory on the way down is a directory of the tree whose
    [readdir] does not fail: a directory that cannot be read hides what
    is below it and nothing else. *)
Theorem getFilesInDirectory_lists_reachable_files dir exts w :
  exists found w',
    getFilesInDirectory dir exts w = (Ok found, w')
    /\ quiet w w'
    /\ NoDup found
    /\ forall q, q ∈ found <-> listed w dir exts q.
Proof. apply getFilesInDirectory_run. Qed.

End WalkFacts.

Module WalkAllFacts.
Import Js Fs Shapes JsFacts FsFacts HookShapes.
Import Listing ListingShapes ListingFacts WalkFacts.
Import FileOps (extname).

(** Where an element of a concatenation of pieces comes from. *)
Lemma bind_split {A B} (f : A -> list B) (l : list A) : forall l1 x l2,
  l ≫= f = l1 ++ x :: l2 ->
  exists la y lb m1 m2,
    l = la ++ y :: lb /\ f y = m1 ++ x :: m2
    /\ l1 = (la ≫= f) ++ m1 /\ l2 = m2 ++ (lb ≫= f).
Proof.
  induction l as [|y l IH]; intros l1 x l2 H.
  - now destruct l1.
  - change ((y :: l) ≫= f) with (f y ++ (l ≫= f)) in H.
    apply app_eq_inv in H as [(k & Hfy & Hk)|(k & Hl1 & Hk)].
    + destruct k as [|x' k'].
      * simpl in Hk. rewrite app_nil_r in Hfy. subst l1.
        destruct (IH [] x l2 (eq_sym Hk)) as (la & y' & lb & m1 & m2 & -> & Hf & H1 & ->).
        exists (y :: la), y', lb, m1, m2. split_and!; try reflexivity; try assumption.
        change ((y :: la) ≫= f) with (f y ++ (la ≫= f)).
        rewrite <- app_assoc, <- H1. now rewrite app_nil_r.
      * injection Hk as <- ->.
        exists [], y, l, l1, k'. split_and!; try reflexivity; assumption.
    + symmetry in Hk.
      destruct (IH k x l2 ltac:(now symmetry)) as (la & y' & lb & m1 & m2 & -> & Hf & -> & ->).
      exists (y :: la), y', lb, m1, m2. split_and!; try reflexivity; try assumption.
      change ((y :: la) ≫= f) with (f y ++ (la ≫= f)).
      now rewrite <- app_assoc.
Qed.

(** What the walk for files and directories returns. *)
Lemma walk_all_elem depth t fl exts : forall (dir q : path) (b : bool),
  (q, b) ∈ walk_all depth t fl exts dir
  <-> exists rel,
        q = dir ++ rel /\ rel <> [] /\ length rel <= depth
        /\ readable_down t fl dir rel
        /\ if b then t !! q = Some Dir
           else exists c, t !! q = Some (File c) /\ has_extension exts q.
Proof.
  induction depth as [|depth IH]; intros dir q b.
  - simpl. split; [intros H; now apply elem_of_nil in H|].
    intros (rel & _ & Hne & Hlen & _). destruct rel; [congruence|simpl in Hlen; lia].
  - cbn [walk_all]. split.
    + destruct (decide (Readdir dir ∈ fl)) as [|Hnf]; [intros H; now apply elem_of_nil in H|].
      destruct (node_at t dir) as [[c0|]|] eqn:Hdir;
        try (intros H; now apply elem_of_nil in H).
      rewrite list_elem_of_bind. intros ([n nd] & Hq & Hin). simpl in Hq.
      apply dirents_elem in Hin.
      destruct nd as [c|].
      * destruct (bool_decide (toLowerCase (extname n) ∈ exts)) eqn:Hext;
          [|now apply elem_of_nil in Hq].
        apply list_elem_of_singleton in Hq as [= -> ->].
        exists [n]. split_and!; try discriminate; [reflexivity|simpl; lia| |].
        -- apply readable_down_cons. split_and!; try assumption.
           apply readable_down_nil.
        -- exists c. split; [assumption|].
           unfold has_extension. rewrite basename_snoc.
           now apply bool_decide_eq_true in Hext.
      * apply elem_of_cons in Hq as [[= -> ->]|Hq].
        -- exists [n]. split_and!; try discriminate; [reflexivity|simpl; lia| |assumption].
           apply readable_down_cons. split_and!; try assumption.
           apply readable_down_nil.
        -- apply IH in Hq as (rel & -> & Hne & Hlen & Hrd & Hb).
           exists (n :: rel). rewrite <- app_assoc in *. simpl in *.
           split_and!; try assumption; try discriminate; [reflexivity|lia|].
           apply readable_down_cons. auto.
    + intros (rel & -> & Hne & Hlen & Hrd & Hb).
      destruct rel as [|n rel]; [congruence|].
      apply readable_down_cons in Hrd as (Hdir & Hnf & Hrd).
      destruct (decide (Readdir dir ∈ fl)) as [Hfault|_]; [contradiction|].
      rewrite Hdir. rewrite list_elem_of_bind.
      destruct rel as [|n' rel'].
      * destruct b.
        -- exists (n, Dir). split; [|now apply dirents_elem]. simpl.
           apply list_elem_of_here.
        -- destruct Hb as (c & Hfile & Hext).
           exists (n, File c). split; [|now apply dirents_elem]. simpl.
           unfold has_extension in Hext. rewrite basename_snoc in Hext.
           rewrite bool_decide_eq_true_2 by assumption. apply list_elem_of_here.
      * exists (n, Dir). split.
        -- simpl. apply list_elem_of_further. apply IH. exists (n' :: rel').
           rewrite <- app_assoc. simpl in *.
           split_and!; try assumption; try discriminate; [reflexivity|lia].
        -- apply dirents_elem.
           destruct (Hrd 0 ltac:(simpl; lia)) as [H0 _]. simpl in H0.
           rewrite app_nil_r in H0. now rewrite node_at_snoc in H0.
Qed.

Lemma walk_all_below depth t fl exts dir n q b :
  (q, b) ∈ walk_all depth t fl exts (dir ++ [n]) ->
  exists rel, rel <> [] /\ q = dir ++ n :: rel.
Proof.
  intros H. apply walk_all_elem in H as (rel & -> & Hne & _).
  exists rel. split; [assumption|]. now rewrite <- app_assoc.
Qed.

Lemma piece_below depth t fl exts dir n nd q b :
  (q, b) ∈ piece depth t fl exts dir (n, nd) -> exists rel, q = dir ++ n :: rel.
Proof.
  unfold piece. simpl. destruct nd as [c|].
  - destruct (bool_decide _); [|intros H; now apply elem_of_nil in H].
    intros [= -> ->]%list_elem_of_singleton. now exists [].
  - intros [[= -> ->]|H]%elem_of_cons; [now exists []|].
    apply walk_all_below in H as (rel & _ & ->). eauto.
Qed.

Lemma walk_all_NoDup depth t fl exts : forall dir,
  NoDup (walk_all depth t fl exts dir).
Proof.
  induction depth as [|depth IH]; intros dir; [constructor|].
  cbn [walk_all]. destruct (decide _) as [Hfault|Hnofault]; [constructor|].
  destruct (node_at t dir) as [[c0|]|]; try constructor.
  change (NoDup (dirents t dir ≫= piece depth t fl exts dir)).
  apply NoDup_bind; [| |apply NoDup_dirents].
  - intros [n1 nd1] [n2 nd2] [q b] H1 H2 Hq1 Hq2.
    destruct (piece_below _ _ _ _ _ _ _ _ _ Hq1) as [r1 E1].
    destruct (piece_below _ _ _ _ _ _ _ _ _ Hq2) as [r2 E2].
    rewrite E1 in E2. apply app_inv_head in E2. injection E2 as -> _.
    f_equal. eapply dirents_name_unique; eauto.
  - intros [n [c|]] _; unfold piece; simpl.
    + destruct (bool_decide _); [apply NoDup_singleton|constructor].
    + constructor; [|apply IH].
      intros H. apply walk_all_below in H as (rel & Hne & E).
      apply (f_equal length) in E. rewrite !length_app in E. simpl in E.
      destruct rel; [congruence|simpl in E; lia].
Qed.

(** A directory comes before everything below it. *)
Lemma walk_all_parent_first depth t fl exts : forall dir l1 q b l2,
  walk_all depth t fl exts dir = l1 ++ (q, b) :: l2 ->
  forall r1 r2, r1 <> [] -> r2 <> [] -> q = dir ++ r1 ++ r2 ->
    (dir ++ r1, true) ∈ l1.
Proof.
  induction depth as [|depth IH]; intros dir l1 q b l2 H r1 r2 Hr1 Hr2 Hq.
  - now destruct l1.
  - cbn [walk_all] in H.
    destruct (decide _) as [Hfault|Hnofault]; [now destruct l1|].
    destruct (node_at t dir) as [[c0|]|]; try now destruct l1.
    change (dirents t dir ≫= piece depth t fl exts dir = l1 ++ (q, b) :: l2) in H.
    apply bind_split in H as (la & [n nd] & lb & m1 & m2 & _ & Hpiece & -> & _).
    apply elem_of_app. right.
    assert (Hin : (q, b) ∈ piece depth t fl exts dir (n, nd))
      by (rewrite Hpiece; apply elem_of_app; right; apply list_elem_of_here).
    destruct (piece_below _ _ _ _ _ _ _ _ _ Hin) as [rel Erel].
    rewrite Hq in Erel. apply app_inv_head in Erel.
    destruct r1 as [|n1 r1']; [congruence|]. simpl in Erel. injection Erel as -> Erel.
    unfold piece in Hpiece. simpl in Hpiece. destruct nd as [c|].
    + destruct (bool_decide _).
      * destruct m1 as [|? [|? ?]]; try discriminate.
        injection Hpiece as Hp _. rewrite <- Hp in Hq.
        apply app_inv_head in Hq. injection Hq as Hq.
        symmetry in Hq. apply app_eq_nil in Hq as [_ ->]. congruence.
      * now destruct m1.
    + destruct m1 as [|x m1'].
      * injection Hpiece as Hp _ _. rewrite <- Hp in Hq.
        apply app_inv_head in Hq. injection Hq as Hq.
        symmetry in Hq. apply app_eq_nil in Hq as [_ ->]. congruence.
      * injection Hpiece as <- Hw.
        destruct r1' as [|n2 r1''].
        -- apply list_elem_of_here.
        -- apply list_elem_of_further.
           replace (dir ++ n :: n2 :: r1'') with ((dir ++ [n]) ++ n2 :: r1'')
             by now rewrite <- app_assoc.
           eapply (IH (dir ++ [n]) m1' q b m2 Hw (n2 :: r1'') r2); try assumption;
             try discriminate.
           rewrite Hq. now rewrite <- !app_assoc.
Qed.

Lemma getFilesAndDirsInDirectory_run dir exts w :
  exists items w',
    getFilesAndDirsInDirectory dir exts w = (Ok items, w')
    /\ quiet w w'
    /\ NoDup items
    /\ (forall q, (q, true) ∈ items <-> listed_dir w dir q)
    /\ (forall q, (q, false) ∈ items <-> listed w dir exts q)
    /\ (forall l1 q b l2 r1 r2,
          items = l1 ++ (q, b) :: l2 ->
          r1 <> [] -> r2 <> [] -> q = dir ++ r1 ++ r2 ->
          (dir ++ r1, true) ∈ l1).
Proof.
  unfold getFilesAndDirsInDirectory.
  destruct (getFilesAndDirsInDirectory_upto_run (S (levels (files w))) exts dir w)
    as (w' & Hrun & Hq).
  eexists _, w'. split; [exact Hrun|]. split; [exact Hq|].
  split; [apply walk_all_NoDup|]. split_and!.
  - intros q. rewrite walk_all_elem. unfold listed_dir. split.
    + intros (rel & ? & ? & ? & ? & ?). exists rel. auto.
    + intros (rel & Hq' & Hne & Hfile & Hrd).
      exists rel. split_and!; try assumption.
      apply levels_bound in Hfile. subst q. rewrite length_app in Hfile. lia.
  - intros q. rewrite walk_all_elem. unfold listed. split.
    + intros (rel & ? & ? & ? & ? & c & ? & ?). exists rel, c. auto.
    + intros (rel & c & Hq' & Hne & Hfile & Hext & Hrd).
      exists rel. split_and!; try assumption; [|eauto].
      apply levels_bound in Hfile. subst q. rewrite length_app in Hfile. lia.
  - intros l1 q b l2 r1 r2 Hitems. eapply walk_all_parent_first; eauto.
Qed.

(** X10: [getFilesAndDirsInDirectory] never fails and only reads; it
    returns, each once, the directories below the directory that can be
    reached, marked as directories, and the reachable files that carry
    one of the extensions, marked as files; and a directory is listed
    before everything that is listed below it. *)
Theorem getFilesAndDirsInDirectory_lists_parents_first dir exts w :
  exists items w',
    getFilesAndDirsInDirectory dir exts w = (Ok items, w')
    /\ quiet w w'
    /\ NoDup items
    /\ (forall q, (q, true) ∈ items <-> listed_dir w dir q)
    /\ (forall q, (q, false) ∈ items <-> listed w dir exts q)
    /\ (forall l1 q b l2 r1 r2,
          items = l1 ++ (q, b) :: l2 ->
          r1 <> [] -> r2 <> [] -> q = dir ++ r1 ++ r2 ->
          (dir ++ r1, true) ∈ l1).
Proof. apply getFilesAndDirsInDirectory_run. Qed.

End WalkAllFacts.

Module DiscoverDirFacts.
Import Js Fs Shapes JsFacts FsFacts HookShapes.
Import Listing ListingShapes ListingFacts WalkFacts WalkAllFacts.
Import FileOps (extname, ClaudeFile, ClaudeFileType, LocationScope).
Import Discovery (createClaudeFile).

Lemma stat_directoryExists_run p w :
  directoryExists p w = (Ok (dir_there p w), logged (Stat p) w).
Proof. apply FsFacts.directoryExists_run. Qed.

Lemma listed_quiet w w' dir exts q :
  quiet w w' -> listed w' dir exts q <-> listed w dir exts q.
Proof. intros (Hfi & Hfa & _). unfold listed. now rewrite Hfi, Hfa. Qed.

Lemma listed_dir_quiet w w' dir q :
  quiet w w' -> listed_dir w' dir q <-> listed_dir w dir q.
Proof. intros (Hfi & Hfa & _). unfold listed_dir. now rewrite Hfi, Hfa. Qed.

Lemma files_below_run dir ty exts sc label w :
  exists items w',
    files_below dir ty exts sc label w = (Ok items, w')
    /\ quiet w w'
    /\ Forall (fun cf => FileOps.scope cf = sc) items
    /\ forall cf, cf ∈ items
         <-> exists q, dir_there dir w = true /\ listed w dir exts q
                       /\ cf = createClaudeFile q ty sc label None.
Proof.
  unfold files_below. rewrite bind_run, stat_directoryExists_run. cbv beta iota.
  assert (Hq0 : quiet w (logged (Stat dir) w)) by now apply quiet_logged.
  destruct (dir_there dir w).
  - rewrite bind_run.
    destruct (getFilesInDirectory_run dir exts (logged (Stat dir) w))
      as (found & w' & -> & Hq & _ & Hiff).
    cbv beta iota. eexists _, w'. split; [reflexivity|].
    split; [eapply quiet_trans; eauto|]. split.
    + apply Forall_fmap, Forall_forall. now intros q _.
    + intros cf. rewrite list_elem_of_fmap. split.
      * intros (q & -> & Hin). exists q. split; [reflexivity|].
        split; [|reflexivity]. apply (listed_quiet _ _ _ _ _ Hq0). now apply Hiff.
      * intros (q & _ & Hl & ->). exists q. split; [reflexivity|].
        apply Hiff. now apply (listed_quiet _ _ _ _ _ Hq0).
  - exists [], (logged (Stat dir) w). split; [reflexivity|]. split; [exact Hq0|].
    split; [constructor|]. intros cf. split.
    + intros H. now apply elem_of_nil in H.
    + intros (q & [=] & _).
Qed.

Lemma items_below_run dir ty exts sc label w :
  exists items w',
    items_below dir ty exts sc label w = (Ok items, w')
    /\ quiet w w'
    /\ Forall (fun cf => FileOps.scope cf = sc) items
    /\ forall cf, cf ∈ items
         <-> exists q (b : bool),
               dir_there dir w = true
               /\ (if b then listed_dir w dir q else listed w dir exts q)
               /\ cf = createClaudeFile q ty sc label (Some b).
Proof.
  unfold items_below. rewrite bind_run, stat_directoryExists_run. cbv beta iota.
  assert (Hq0 : quiet w (logged (Stat dir) w)) by now apply quiet_logged.
  destruct (dir_there dir w).
  - rewrite bind_run.
    destruct (getFilesAndDirsInDirectory_run dir exts
                (logged (Stat dir) w))
      as (found & w' & -> & Hq & _ & Hdirs & Hfiles & _).
    cbv beta iota. eexists _, w'. split; [reflexivity|].
    split; [eapply quiet_trans; eauto|]. split.
    + apply Forall_fmap, Forall_forall. now intros q _.
    + intros cf. rewrite list_elem_of_fmap. split.
      * intros ([q b] & -> & Hin). exists q, b. split; [reflexivity|].
        split; [|reflexivity]. destruct b.
        -- apply (listed_dir_quiet _ _ _ _ Hq0). now apply Hdirs.
        -- apply (listed_quiet _ _ _ _ _ Hq0). now apply Hfiles.
      * intros (q & b & _ & Hl & ->). exists (q, b). split; [reflexivity|].
        destruct b.
        -- apply Hdirs. now apply (listed_dir_quiet _ _ _ _ Hq0).
        -- apply Hfiles. now apply (listed_quiet _ _ _ _ _ Hq0).
  - exists [], (logged (Stat dir) w). split; [reflexivity|]. split; [exact Hq0|].
    split; [constructor|]. intros cf. split.
    + intros H. now apply elem_of_nil in H.
    + intros (q & b & [=] & _).
Qed.

Lemma dir_there_quiet w w' p : quiet w w' -> dir_there p w' = dir_there p w.
Proof. intros (Hfi & Hfa & _). unfold dir_there. now rewrite Hfi, Hfa. Qed.

Lemma discoverFilesInDir_run env dirName ty exts w :
  exists g p w',
    discoverFilesInDir env dirName ty exts w = (Ok (g ++ p), w')
    /\ quiet w w'
    /\ Forall (fun cf => FileOps.scope cf = FileOps.global) g
    /\ Forall (fun cf => FileOps.scope cf = FileOps.project) p
    /\ (forall cf, cf ∈ g
          <-> exists q,
                dir_there (join (globalClaudePath env) [dirName]) w = true
                /\ listed w (join (globalClaudePath env) [dirName]) exts q
                /\ cf = createClaudeFile q ty FileOps.global "Global" None)
    /\ (forall cf, cf ∈ p
          <-> exists ws q,
                workspaceFolder env = Some ws
                /\ dir_there (join (join ws [".claude"]) [dirName]) w = true
                /\ listed w (join (join ws [".claude"]) [dirName]) exts q
                /\ cf = createClaudeFile q ty FileOps.project "Project" None).
Proof.
  unfold discoverFilesInDir. cbv zeta. rewrite bind_run.
  destruct (files_below_run (join (globalClaudePath env) [dirName]) ty exts
              FileOps.global "Global" w)
    as (g & w1 & -> & Hq1 & Hsc1 & Hiff1).
  cbv beta iota. rewrite bind_run. unfold getProjectClaudePath.
  destruct (workspaceFolder env) as [ws|]; cbn [fmap option_fmap option_map].
  - destruct (files_below_run (join (join ws [".claude"]) [dirName]) ty exts
                FileOps.project "Project" w1)
      as (p & w2 & -> & Hq2 & Hsc2 & Hiff2).
    cbv beta iota. exists g, p, w2. split; [reflexivity|].
    split; [eapply quiet_trans; eauto|]. split_and!; try assumption.
    intros cf. rewrite Hiff2. split.
    + intros (q & Hd & Hl & ->). exists ws, q. split; [reflexivity|].
      rewrite <- (dir_there_quiet _ _ _ Hq1). split; [assumption|].
      split; [|reflexivity]. now apply (listed_quiet _ _ _ _ _ Hq1).
    + intros (ws' & q & [= <-] & Hd & Hl & ->). exists q.
      rewrite (dir_there_quiet _ _ _ Hq1). split; [assumption|].
      split; [|reflexivity]. now apply (listed_quiet _ _ _ _ _ Hq1).
  - exists g, [], w1. split; [reflexivity|]. split; [assumption|].
    split_and!; try assumption; [constructor|].
    intros cf. split.
    + intros H. now apply elem_of_nil in H.
    + intros (ws' & q & [=] & _).
Qed.

Lemma discoverFilesAndDirsInDir_run env dirName ty exts w :
  exists g p w',
    discoverFilesAndDirsInDir env dirName ty exts w = (Ok (g ++ p), w')
    /\ quiet w w'
    /\ Forall (fun cf => FileOps.scope cf = FileOps.global) g
    /\ Forall (fun cf => FileOps.scope cf = FileOps.project) p
    /\ (forall cf, cf ∈ g
          <-> exists q (b : bool),
                dir_there (join (globalClaudePath env) [dirName]) w = true
                /\ (if b
                    then listed_dir w (join (globalClaudePath env) [dirName]) q
                    else listed w (join (globalClaudePath env) [dirName]) exts q)
                /\ cf = createClaudeFile q ty FileOps.global "Global" (Some b))
    /\ (forall cf, cf ∈ p
          <-> exists ws q (b : bool),
                workspaceFolder env = Some ws
                /\ dir_there (join (join ws [".claude"]) [dirName]) w = true
                /\ (if b
                    then listed_dir w (join (join ws [".claude"]) [dirName]) q
                    else listed w (join (join ws [".claude"]) [dirName]) exts q)
                /\ cf = createClaudeFile q ty FileOps.project "Project" (Some b)).
Proof.
  unfold discoverFilesAndDirsInDir. cbv zeta. rewrite bind_run.
  destruct (items_below_run (join (globalClaudePath env) [dirName]) ty exts
              FileOps.global "Global" w)
    as (g & w1 & -> & Hq1 & Hsc1 & Hiff1).
  cbv beta iota. rewrite bind_run. unfold getProjectClaudePath.
  destruct (workspaceFolder env) as [ws|]; cbn [fmap option_fmap option_map].
  - destruct (items_below_run (join (join ws [".claude"]) [dirName]) ty exts
                FileOps.project "Project" w1)
      as (p & w2 & -> & Hq2 & Hsc2 & Hiff2).
    cbv beta iota. exists g, p, w2. split; [reflexivity|].
    split; [eapply quiet_trans; eauto|]. split_and!; try assumption.
    intros cf. rewrite Hiff2. split.
    + intros (q & b & Hd & Hl & ->). exists ws, q, b. split; [reflexivity|].
      rewrite <- (dir_there_quiet _ _ _ Hq1). split; [assumption|].
      split; [|reflexivity]. destruct b.
      * now apply (listed_dir_quiet _ _ _ _ Hq1).
      * now apply (listed_quiet _ _ _ _ _ Hq1).
    + intros (ws' & q & b & [= <-] & Hd & Hl & ->). exists q, b.
      rewrite (dir_there_quiet _ _ _ Hq1). split; [assumption|].
      split; [|reflexivity]. destruct b.
      * now apply (listed_dir_quiet _ _ _ _ Hq1).
      * now apply (listed_quiet _ _ _ _ _ Hq1).
  - exists g, [], w1. split; [reflexivity|]. split; [assumption|].
    split_and!; try assumption; [constructor|].
    intros cf. split.
    + intros H. now apply elem_of_nil in H.
    + intros (ws' & q & b & [=] & _).
Qed.

(** X11: [discoverSkills] never fails and only reads; it returns the
    global skills followed by those of the project, and an item is
    returned exactly when it stands for a markdown file that can be
    reached below the [skills] directory of the global root or of the
    project's [.claude] directory, that directory being one [stat]
    shows; the item carries the type [skill], the scope and label of its
    root, and no directory mark. *)
Theorem discoverSkills_lists_markdown_files env w :
  exists g p w',
    discoverSkills env w = (Ok (g ++ p), w')
    /\ quiet w w'
    /\ Forall (fun cf => FileOps.scope cf = FileOps.global) g
    /\ Forall (fun cf => FileOps.scope cf = FileOps.project) p
    /\ (forall cf, cf ∈ g
          <-> exists q,
                dir_there (join (globalClaudePath env) ["skills"]) w = true
                /\ listed w (join (globalClaudePath env) ["skills"])
                     [".md"; ".markdown"] q
                /\ cf = createClaudeFile q FileOps.skill FileOps.global "Global" None)
    /\ (forall cf, cf ∈ p
          <-> exists ws q,
                workspaceFolder env = Some ws
                /\ dir_there (join (join ws [".claude"]) ["skills"]) w = true
                /\ listed w (join (join ws [".claude"]) ["skills"])
                     [".md"; ".markdown"] q
                /\ cf = createClaudeFile q FileOps.skill FileOps.project "Project" None).
Proof. apply discoverFilesInDir_run. Qed.

(** X12: [discoverCommands] and [discoverSubAgents] never fail and
    only read; each returns the global items followed by those of the
    project, an item being returned exactly when it stands for a
    directory that can be reached below the [commands] (or [agents])
    directory of a root, marked as a directory, or for a reachable
    markdown file there, marked as a file. *)
Theorem discoverCommands_lists_folders_and_files env w :
  (exists g p w',
     discoverCommands env w = (Ok (g ++ p), w')
     /\ quiet w w'
     /\ Forall (fun cf => FileOps.scope cf = FileOps.global) g
     /\ Forall (fun cf => FileOps.scope cf = FileOps.project) p
     /\ (forall cf, cf ∈ g
           <-> exists q (b : bool),
                 dir_there (join (globalClaudePath env) ["commands"]) w = true
                 /\ (if b
                     then listed_dir w (join (globalClaudePath env) ["commands"]) q
                     else listed w (join (globalClaudePath env) ["commands"])
                            [".md"; ".markdown"] q)
                 /\ cf = createClaudeFile q FileOps.command FileOps.global
                           "Global" (Some b))
     /\ (forall cf, cf ∈ p
           <-> exists ws q (b : bool),
                 workspaceFolder env = Some ws
                 /\ dir_there (join (join ws [".claude"]) ["commands"]) w = true
                 /\ (if b
                     then listed_dir w (join (join ws [".claude"]) ["commands"]) q
                     else listed w (join (join ws [".claude"]) ["commands"])
                            [".md"; ".markdown"] q)
                 /\ cf = createClaudeFile q FileOps.command FileOps.project
                           "Project" (Some b)))
  /\ (exists g p w',
        discoverSubAgents env w = (Ok (g ++ p), w')
        /\ quiet w w'
        /\ Forall (fun cf => FileOps.scope cf = FileOps.global) g
        /\ Forall (fun cf => FileOps.scope cf = FileOps.project) p
        /\ (forall cf, cf ∈ g
              <-> exists q (b : bool),
                    dir_there (join (globalClaudePath env) ["agents"]) w = true
                    /\ (if b
                        then listed_dir w (join (globalClaudePath env) ["agents"]) q
                        else listed w (join (globalClaudePath env) ["agents"])
                               [".md"; ".markdown"] q)
                    /\ cf = createClaudeFile q FileOps.subAgent FileOps.global
                              "Global" (Some b))
        /\ (forall cf, cf ∈ p
              <-> exists ws q (b : bool),
                    workspaceFolder env = Some ws
                    /\ dir_there (join (join ws [".claude"]) ["agents"]) w = true
                    /\ (if b
                        then listed_dir w (join (join ws [".claude"]) ["agents"]) q
                        else listed w (join (join ws [".claude"]) ["agents"])
                               [".md"; ".markdown"] q)
                    /\ cf = createClaudeFile q FileOps.subAgent FileOps.project
                              "Project" (Some b))).
Proof. split; apply discoverFilesAndDirsInDir_run. Qed.

End DiscoverDirFacts.

Module McpFacts.
Import Js Fs Shapes FsFacts HookShapes Listing ListingShapes ListingFacts.
Import DiscoverDirFacts.
Import Discovery (createClaudeFile).

Lemma file_there_quiet p w w' :
  quiet w w' -> file_there p w' = file_there p w.
Proof. intros (Hfi & Hfa & _). unfold file_there. now rewrite Hfi, Hfa. Qed.

Lemma config_if_exists_run p sc label w :
  config_if_exists p sc label w
  = (Ok (if file_there p w
         then [createClaudeFile p FileOps.mcp sc label None] else []),
     logged (Stat p) w).
Proof.
  unfold config_if_exists. rewrite bind_run.
  change (fileExists p w) with (HooksFs.fileExists p w).
  rewrite fileExists_run. reflexivity.
Qed.

(** X13: [discoverMcpServers] never fails and only reads. It returns
    the global [mcp_servers.json] when [stat] shows a file there, then
    the one of the project's [.claude] directory likewise, then what
    [discoverFilesInDir] finds below the [mcp-servers] directories: the
    reachable files with a markdown or JSON extension, global ones
    first. *)
Theorem discoverMcpServers_lists_configs_then_directory env w :
  exists g p w',
    discoverMcpServers env w
    = (Ok ((if file_there (join (globalClaudePath env) ["mcp_servers.json"]) w
            then [createClaudeFile (join (globalClaudePath env) ["mcp_servers.json"])
                    FileOps.mcp FileOps.global "Global" None]
            else [])
           ++ match workspaceFolder env with
              | Some ws =>
                  if file_there (join (join ws [".claude"]) ["mcp_servers.json"]) w
                  then [createClaudeFile
                          (join (join ws [".claude"]) ["mcp_servers.json"])
                          FileOps.mcp FileOps.project "Project" None]
                  else []
              | None => []
              end
           ++ g ++ p), w')
    /\ quiet w w'
    /\ (forall cf, cf ∈ g
          <-> exists q,
                dir_there (join (globalClaudePath env) ["mcp-servers"]) w = true
                /\ listed w (join (globalClaudePath env) ["mcp-servers"])
                     [".md"; ".markdown"; ".json"; ".jsonc"] q
                /\ cf = createClaudeFile q FileOps.mcp FileOps.global "Global" None)
    /\ (forall cf, cf ∈ p
          <-> exists ws q,
                workspaceFolder env = Some ws
                /\ dir_there (join (join ws [".claude"]) ["mcp-servers"]) w = true
                /\ listed w (join (join ws [".claude"]) ["mcp-servers"])
                     [".md"; ".markdown"; ".json"; ".jsonc"] q
                /\ cf = createClaudeFile q FileOps.mcp FileOps.project "Project" None).
Proof.
  unfold discoverMcpServers. cbv zeta. rewrite bind_run, config_if_exists_run.
  cbv beta iota. rewrite bind_run.
  set (w1 := logged (Stat (join (globalClaudePath env) ["mcp_servers.json"])) w).
  assert (Hq1 : quiet w w1) by (apply quiet_logged; exact I).
  assert (Hstep : exists pc w2,
             match getProjectClaudePath env with
             | Some projectClaudePath =>
                 config_if_exists (join projectClaudePath ["mcp_servers.json"])
                   FileOps.project "Project"
             | None => mret []
             end w1 = (Ok pc, w2)
             /\ quiet w1 w2
             /\ pc = match workspaceFolder env with
                     | Some ws =>
                         if file_there (join (join ws [".claude"]) ["mcp_servers.json"]) w
                         then [createClaudeFile
                                 (join (join ws [".claude"]) ["mcp_servers.json"])
                                 FileOps.mcp FileOps.project "Project" None]
                         else []
                     | None => []
                     end).
  { unfold getProjectClaudePath.
    destruct (workspaceFolder env) as [ws|]; cbn [fmap option_fmap option_map].
    - rewrite config_if_exists_run. eexists _, _. split; [reflexivity|].
      split; [apply quiet_logged; exact I|].
      now rewrite (file_there_quiet _ _ _ Hq1).
    - eexists _, _. split; [reflexivity|]. split; [apply quiet_refl|reflexivity]. }
  destruct Hstep as (pc & w2 & -> & Hq2 & ->). cbv beta iota. rewrite bind_run.
  assert (Hq02 : quiet w w2) by (eapply quiet_trans; eauto).
  destruct (discoverFilesInDir_run env FileOps.MCP_DIR FileOps.mcp
              (MARKDOWN_EXTENSIONS ++ JSON_EXTENSIONS) w2)
    as (g & p & w3 & -> & Hq3 & _ & _ & Hg & Hp).
  cbv beta iota. exists g, p, w3. split; [reflexivity|].
  split; [eapply quiet_trans; eauto|]. split.
  - intros cf. rewrite Hg. split.
    + intros (q & Hd & Hl & ->). exists q.
      rewrite <- (dir_there_quiet _ _ _ Hq02). split; [assumption|].
      split; [|reflexivity]. now apply (listed_quiet _ _ _ _ _ Hq02).
    + intros (q & Hd & Hl & ->). exists q.
      rewrite (dir_there_quiet _ _ _ Hq02). split; [assumption|].
      split; [|reflexivity]. now apply (listed_quiet _ _ _ _ _ Hq02).
  - intros cf. rewrite Hp. split.
    + intros (ws & q & Hws & Hd & Hl & ->). exists ws, q. split; [assumption|].
      rewrite <- (dir_there_quiet _ _ _ Hq02). split; [assumption|].
      split; [|reflexivity]. now apply (listed_quiet _ _ _ _ _ Hq02).
    + intros (ws & q & Hws & Hd & Hl & ->). exists ws, q. split; [assumption|].
      rewrite (dir_there_quiet _ _ _ Hq02). split; [assumption|].
      split; [|reflexivity]. now apply (listed_quiet _ _ _ _ _ Hq02).
Qed.

End McpFacts.

Module FileOpsSuccess.
Import Js Fs Shapes JsFacts FsFacts FileOpsFacts.
Import FileOps.

Lemma rename_sem_file src dst t u t' c :
  rename_sem src dst t = Ok (u, t') ->
  t !! src = Some (File c) ->
  t' = <[dst := File c]> (delete src t)
  /\ src <> [] /\ dst <> []
  /\ node_at t (dirname dst) = Some Dir
  /\ t !! dst <> Some Dir.
Proof.
  unfold rename_sem. intros H Hsrc. destruct u.
  destruct src as [|s0 src0]; [discriminate|].
  destruct dst as [|d0 dst0]; [discriminate|].
  rewrite Hsrc in H.
  destruct (node_at t (dirname (d0 :: dst0))) as [[|]|]; try discriminate.
  destruct (decide (s0 :: src0 = d0 :: dst0)) as [<-|Hne].
  - injection H as <-. split.
    + now rewrite insert_delete_id.
    + split_and!; try discriminate; [reflexivity|]. rewrite Hsrc. discriminate.
  - destruct (t !! (d0 :: dst0)) as [[|]|] eqn:Hdst; try discriminate;
      injection H as <-; split_and!; try discriminate; reflexivity.
Qed.

Lemma mkdir_from_there todo : forall base t t',
  mkdir_from base todo t = Ok t' ->
  node_at t base = Some Dir ->
  node_at t' (base ++ todo) = Some Dir.
Proof.
  induction todo as [|n rest IH]; intros base t t'; simpl.
  - intros [= <-]. now rewrite app_nil_r.
  - intros H Hbase.
    replace (base ++ n :: rest) with ((base ++ [n]) ++ rest)
      by now rewrite <- app_assoc.
    destruct (t !! (base ++ [n])) as [[c|]|] eqn:E; [discriminate| |].
    + apply (IH _ _ _ H). rewrite node_at_ne by now destruct base. exact E.
    + apply (IH _ _ _ H). rewrite node_at_ne by now destruct base.
      apply lookup_insert_eq.
Qed.

Lemma mkdir_sem_there p t u t' :
  mkdir_sem p t = Ok (u, t') -> node_at t' p = Some Dir.
Proof.
  unfold mkdir_sem. intros H. apply bind_Ok in H as (t0 & H & H1).
  simplify_eq. exact (mkdir_from_there p [] t t' H eq_refl).
Qed.





(** X15: when [renameFile] reports success on a file, the file is in
    the same directory under the name entered followed by the extension
    it had, with the content it had, and nothing else has changed; the
    name entered is made of letters, digits, underscores and hyphens;
    and unless [access] fails on it, nothing was at the new path. *)
Theorem renameFile_keeps_extension cf answer w w' c :
  renameFile cf answer w = (Ok true, w') ->
  files w !! (path cf) = Some (File c) ->
  isDirectory cf <> Some true ->
  exists newName,
    answer = Some newName
    /\ valid_name newName = true
    /\ let newPath := join (dirname (path cf))
                        [newName +:+ extname (basename (path cf))] in
       files w' = <[newPath := File c]> (delete (path cf) (files w))
       /\ ((Access newPath ∉ faults w) -> node_at (files w) newPath = None).
Proof.
  unfold renameFile, try_catch. intros H Hsrc Hdir.
  assert (HisDir : default false (isDirectory cf) = false)
    by (destruct (isDirectory cf) as [[]|]; [congruence|reflexivity|reflexivity]).
  rewrite HisDir in H. cbv zeta in H.
  unfold input_name in H. destruct answer as [v|].
  2:{ discriminate. }
  destruct (valid_name v) eqn:Hvalid; [|discriminate].
  destruct (String.eqb v _); [discriminate|].
  rewrite bind_run, access_exists_run in H. cbv beta iota in H.
  destruct (exists_there _ w) eqn:Hex.
  { rewrite bind_run, notify_run in H. discriminate. }
  rewrite bind_run in H. unfold rename in H.
  destruct (syscall (Rename _ _) _ _) as [[[]|e] w3] eqn:Hrn.
  2:{ rewrite bind_run, notify_run in H. discriminate. }
  apply syscall_Ok in Hrn as (_ & t2 & Hsem2 & ->).
  cbv beta iota in H. rewrite bind_run, notify_run in H. cbv beta iota in H.
  injection H as <-. cbn [files noticed with_files logged] in *.
  destruct (rename_sem_file _ _ _ _ _ _ Hsem2 Hsrc) as (-> & _).
  exists v. split; [reflexivity|]. split; [assumption|]. cbv zeta.
  split; [reflexivity|].
  intros Hacc. unfold exists_there in Hex.
  destruct (decide _); [contradiction|].
  now destruct (node_at (files w) _).
Qed.

(** X16: [deleteFile] on a directory, once confirmed and with [stat]
    and [rm] not failing, reports success and removes the directory with
    everything below it and nothing else; two calls are made. *)
Theorem deleteFile_removes_directory_tree cf w :
  path cf <> [] ->
  files w !! (path cf) = Some Dir ->
  (Stat (path cf) ∉ faults w) ->
  (Rm (path cf) ∉ faults w) ->
  exists w',
    deleteFile cf true w = (Ok true, w')
    /\ calls w' = calls w ++ [Stat (path cf); Rm (path cf)]
    /\ forall q, files w' !! q
                 = if is_under (path cf) q then None else files w !! q.
Proof.
  intros Hne Hdir Hst Hrm.
  unfold deleteFile, try_catch.
  rewrite bind_run, notify_run. cbv beta iota. cbn [negb].
  rewrite bind_run. unfold stat.
  rewrite (syscall_run_Ok (Stat (path cf)) _ _ Dir (files w)); [|assumption|].
  2:{ unfold stat_sem. cbn [files noticed]. now rewrite (node_at_ne _ _ Hne), Hdir. }
  cbv beta iota. cbn [is_dir]. rewrite bind_run. unfold rm.
  rewrite syscall_partial_nofault by assumption.
  rewrite (syscall_run_Ok (Rm (path cf)) _ _ tt
             (filter (fun qn : Fs.path * node => is_under (path cf) qn.1 = false)
                (files w))); [|assumption|reflexivity].
  cbv beta iota. rewrite bind_run, notify_run. cbv beta iota.
  eexists. split; [reflexivity|]. cbn [files calls noticed logged with_files].
  split; [now rewrite <- app_assoc|].
  intros q. destruct (is_under (path cf) q) eqn:Hu.
  - apply map_lookup_filter_None. right. intros nd _. simpl. congruence.
  - destruct (files w !! q) as [nd|] eqn:Hq.
    + apply map_lookup_filter_Some. split; [assumption|exact Hu].
    + apply map_lookup_filter_None. now left.
Qed.

(** X17: when [createFile] returns a path, the path is the file name
    below the directory of the type (and the parent folder) in the root
    of the scope, the file is there with the content given, and nothing
    else has changed but for the directories created on the way; if
    [access] showed something at the path, the user has chosen to
    overwrite it. *)
Theorem createFile_writes_content env ty sc fileName c parentFolder overwrite w w' p :
  createFile env ty sc fileName c parentFolder overwrite w = (Ok (Some p), w') ->
  exists basePath t1,
    base_path env sc = Some basePath
    /\ p = join (match parentFolder with
                 | None | Some [] => getTargetDirectory basePath ty
                 | Some f => join (getTargetDirectory basePath ty) f
                 end) fileName
    /\ only_dirs_added (files w) t1
    /\ files w' = <[p := File c]> t1
    /\ ((Access p ∉ faults w) -> node_at t1 p <> None -> overwrite = true).
Proof.
  unfold createFile. intros H.
  destruct (base_path env sc) as [basePath|].
  2:{ rewrite bind_run, notify_run in H. discriminate. }
  cbv zeta in H. unfold try_catch in H.
  set (target := join _ fileName) in *.
  rewrite bind_run in H. unfold mkdir in H.
  destruct (syscall_partial (Mkdir (dirname target)) _ w) as [[[]|e] w2] eqn:Hmk.
  2:{ rewrite bind_run, notify_run in H. discriminate. }
  apply syscall_partial_Ok in Hmk as (_ & t1 & Hsem1 & ->).
  cbv beta iota in H. rewrite bind_run, access_exists_run in H. cbv beta iota in H.
  rewrite bind_run in H.
  set (w1 := with_files t1 (logged (Mkdir (dirname target)) w)) in *.
  assert (Hgo : exists go w3,
    (if exists_there target w1
     then _ ← notify (Warn "File already exists."); mret overwrite
     else mret true) (logged (Access target) w1) = (Ok go, w3)
    /\ files w3 = t1 /\ faults w3 = faults w
    /\ (exists_there target w1 = true -> go = overwrite)).
  { destruct (exists_there target w1); eexists _, _; (split; [reflexivity|]);
      split_and!; try reflexivity; auto. discriminate. }
  destruct Hgo as (go & w3 & Hrun & Hfi3 & Hfa3 & Hgo).
  rewrite Hrun in H. cbv beta iota in H.
  destruct go.
  2:{ unfold mret, M_ret in H. discriminate. }
  rewrite bind_run in H. unfold writeFile in H.
  destruct (syscall_partial (WriteFile target) _ w3) as [[[]|e] w4] eqn:Hwr.
  2:{ rewrite bind_run, notify_run in H. discriminate. }
  apply syscall_partial_Ok in Hwr as (_ & t4 & Hsem4 & ->).
  cbv beta iota in H. unfold mret, M_ret in H. injection H as <- <-.
  apply writeFile_sem_Ok in Hsem4 as (-> & _ & _).
  exists basePath, t1. split; [reflexivity|]. split; [reflexivity|].
  split; [eapply mkdir_sem_only_dirs; eauto|].
  cbn [files with_files logged]. rewrite Hfi3. split; [reflexivity|].
  intros Hacc Hthere. symmetry. apply Hgo.
  unfold exists_there. cbn [faults files w1 with_files logged].
  destruct (decide _); [contradiction|].
  now destruct (node_at t1 target).
Qed.

(** X18: when [createFolder] returns a path, the path is the name
    entered, made of letters, digits, underscores and hyphens, below the
    directory of the type in the root of the scope; a directory is there
    afterwards, every entry that existed is still there, whatever is new
    is a directory, and unless [access] fails nothing was at the path
    before. *)
Theorem createFolder_makes_directory env ty sc answer w w' p :
  createFolder env ty sc answer w = (Ok (Some p), w') ->
  exists basePath folderName,
    base_path env sc = Some basePath
    /\ answer = Some folderName
    /\ valid_name folderName = true
    /\ p = join (getTargetDirectory basePath ty) [folderName]
    /\ node_at (files w') p = Some Dir
    /\ only_dirs_added (files w) (files w')
    /\ ((Access p ∉ faults w) -> node_at (files w) p = None).
Proof.
  unfold createFolder, input_name. intros H.
  destruct answer as [v|]; [|discriminate].
  destruct (valid_name v) eqn:Hvalid; [|discriminate].
  destruct (base_path env sc) as [basePath|].
  2:{ rewrite bind_run, notify_run in H. discriminate. }
  cbv zeta in H. unfold try_catch in H.
  rewrite bind_run, access_exists_run in H. cbv beta iota in H.
  destruct (exists_there _ w) eqn:Hex.
  { rewrite bind_run, notify_run in H. discriminate. }
  rewrite bind_run in H. unfold mkdir in H.
  destruct (syscall_partial (Mkdir _) _ _) as [[[]|e] w2] eqn:Hmk.
  2:{ rewrite bind_run, notify_run in H. discriminate. }
  apply syscall_partial_Ok in Hmk as (_ & t1 & Hsem1 & ->).
  cbv beta iota in H. rewrite bind_run, notify_run in H. cbv beta iota in H.
  unfold mret, M_ret in H. injection H as <- <-.
  cbn [files noticed with_files logged] in *.
  exists basePath, v. split_and!; try reflexivity; try assumption.
  - eapply mkdir_sem_there; eauto.
  - eapply mkdir_sem_only_dirs; eauto.
  - intros Hacc. unfold exists_there in Hex.
    destruct (decide _); [contradiction|].
    now destruct (node_at (files w) _).
Qed.

End FileOpsSuccess.

Module GroupFacts.
Import Js Hooks Fs HooksTree.

Lemma sum_list_append (l1 l2 : list nat) :
  sum_list (l1 ++ l2) = sum_list l1 + sum_list l2.
Proof. induction l1 as [|n l1 IH]; simpl; [reflexivity|]. rewrite IH. lia. Qed.

Section Groups.
Context {K A : Type} `{EqDecision K} (key : A -> K).

Lemma add_to_group_keys (k : K) (x : A) (groups : list (K * list A)) :
  (add_to_group k x groups).*1
  = if decide (k ∈ groups.*1) then groups.*1 else groups.*1 ++ [k].
Proof.
  induction groups as [|[k' xs] groups IH]; [reflexivity|].
  cbn [add_to_group]. destruct (decide (k = k')) as [<-|Hne].
  - rewrite !fmap_cons. cbn [fst].
    destruct (decide (k ∈ k :: groups.*1)) as [_|Hn]; [reflexivity|].
    elim Hn. apply list_elem_of_here.
  - rewrite !fmap_cons. cbn [fst]. rewrite IH.
    destruct (decide (k ∈ groups.*1)) as [Hin|Hn];
      destruct (decide (k ∈ k' :: groups.*1)) as [Hin'|Hn']; try reflexivity.
    + elim Hn'. now apply list_elem_of_further.
    + apply elem_of_cons in Hin' as [->|Hin']; [congruence|contradiction].
Qed.

Lemma add_to_group_elem (k : K) (x : A) (groups : list (K * list A)) k' ys :
  NoDup groups.*1 ->
  (k', ys) ∈ add_to_group k x groups
  <-> (k' <> k /\ (k', ys) ∈ groups)
      \/ (k' = k /\ ((exists xs, (k, xs) ∈ groups /\ ys = xs ++ [x])
                     \/ ((k ∉ groups.*1) /\ ys = [x]))).
Proof.
  induction groups as [|[k0 xs] groups IH]; intros Hnd.
  - cbn [add_to_group]. rewrite list_elem_of_singleton. split.
    + intros [= -> ->]. right. split; [reflexivity|]. right.
      split; [apply not_elem_of_nil|reflexivity].
    + intros [[_ Hin]|[-> [(xs & Hin & _)|[_ ->]]]]; try reflexivity;
        now apply elem_of_nil in Hin.
  - rewrite fmap_cons in Hnd. apply NoDup_cons in Hnd as [Hk0 Hnd]. cbn [fst] in Hk0.
    assert (Hfresh : forall zs, (k0, zs) ∈ groups -> False).
    { intros zs Hin. apply Hk0. apply list_elem_of_fmap. now exists (k0, zs). }
    cbn [add_to_group]. destruct (decide (k = k0)) as [<-|Hne].
    + setoid_rewrite elem_of_cons. split.
      * intros [Heq|Hin].
        -- injection Heq as -> ->. right. split; [reflexivity|]. left.
           exists xs. split; [now left|reflexivity].
        -- left. split; [|now right]. intros ->. eauto.
      * intros [[Hne' [Heq|Hin]]|[-> [(xs' & [Heq|Hin] & ->)|[Hn _]]]].
        -- injection Heq as -> ->. congruence.
        -- now right.
        -- injection Heq as ->. now left.
        -- exfalso. eauto.
        -- elim Hn. now left.
    + setoid_rewrite elem_of_cons. rewrite (IH Hnd). split.
      * intros [Heq|[[Hne' Hin]|[-> [(xs' & Hin & ->)|[Hn ->]]]]].
        -- injection Heq as -> ->. left. split; [congruence|now left].
        -- left. split; [assumption|now right].
        -- right. split; [reflexivity|]. left. exists xs'.
           split; [now right|reflexivity].
        -- right. split; [reflexivity|]. right. split; [|reflexivity].
           intros [Heq|Hin]; [simpl in Heq; congruence|contradiction].
      * intros [[Hne' [Heq|Hin]]|[-> [(xs' & [Heq|Hin] & ->)|[Hn ->]]]].
        -- now left.
        -- right. left. auto.
        -- injection Heq as ->. congruence.
        -- right. right. split; [reflexivity|]. left. eauto.
        -- right. right. split; [reflexivity|]. right. split; [|reflexivity].
           intros Hin. apply Hn. now right.
Qed.

Lemma add_to_group_NoDup (k : K) (x : A) (groups : list (K * list A)) :
  NoDup groups.*1 -> NoDup (add_to_group k x groups).*1.
Proof.
  intros Hnd. rewrite add_to_group_keys.
  destruct (decide (k ∈ groups.*1)); [assumption|].
  apply NoDup_app. split; [assumption|]. split; [|apply NoDup_singleton].
  intros y Hy ->%list_elem_of_singleton. contradiction.
Qed.

Lemma group_by_snoc (l : list A) (x : A) :
  group_by key (l ++ [x]) = add_to_group (key x) x (group_by key l).
Proof. unfold group_by. now rewrite foldl_snoc. Qed.

(** The groups of a list: one for each key that occurs, holding the
    elements with that key in the order of the list. *)
Lemma group_by_spec (l : list A) :
  NoDup (group_by key l).*1
  /\ forall k xs, (k, xs) ∈ group_by key l
                  <-> xs = filter (fun x => key x = k) l /\ xs <> [].
Proof.
  induction l as [|x l IH] using rev_ind.
  - split; [constructor|]. intros k xs. split.
    + intros H. now apply elem_of_nil in H.
    + intros [-> Hne]. now elim Hne.
  - destruct IH as [Hnd IH]. rewrite group_by_snoc.
    split; [now apply add_to_group_NoDup|].
    intros k xs. rewrite (add_to_group_elem _ _ _ _ _ Hnd), !IH, filter_app.
    split.
    + intros [[Hne [-> Hxs]]|[-> [(xs' & Hin & ->)|[Hn ->]]]].
      * rewrite filter_cons_False by congruence. rewrite filter_nil, app_nil_r. auto.
      * apply IH in Hin as [-> _]. rewrite filter_cons_True by reflexivity.
        rewrite filter_nil. split; [reflexivity|]. now destruct (filter _ l).
      * rewrite filter_cons_True by reflexivity. rewrite filter_nil.
        split; [|discriminate]. f_equal.
        destruct (filter (fun x0 => key x0 = key x) l) as [|y ys] eqn:E; [reflexivity|].
        elim Hn. apply list_elem_of_fmap. exists (key x, y :: ys).
        split; [reflexivity|]. apply IH. split; [now rewrite E|discriminate].
    + intros [-> Hne].
      destruct (decide (k = key x)) as [->|Hk].
      * right. split; [reflexivity|].
        rewrite filter_cons_True by reflexivity. rewrite filter_nil.
        destruct (filter (fun x0 => key x0 = key x) l) as [|y ys] eqn:E.
        -- right. split; [|reflexivity].
           intros ([k' xs'] & Hk' & Hin)%list_elem_of_fmap. simpl in Hk'. subst k'.
           apply IH in Hin as [-> Hne']. congruence.
        -- left. exists (y :: ys). split; [|reflexivity].
           apply IH. split; [now rewrite E|discriminate].
      * left. split; [assumption|].
        rewrite filter_cons_False in * by congruence.
        rewrite filter_nil, app_nil_r in *. auto.
Qed.

Lemma group_by_elem (l : list A) (x : A) :
  x ∈ l -> (key x, filter (fun y => key y = key x) l) ∈ group_by key l.
Proof.
  intros Hin. apply group_by_spec. split; [reflexivity|].
  intros Hnil. assert (Hx : x ∈ filter (fun y => key y = key x) l)
    by (apply list_elem_of_filter; auto).
  rewrite Hnil in Hx. now apply elem_of_nil in Hx.
Qed.

(** The groups add up to the list, for whatever is counted. *)
Lemma group_by_sum (f : A -> nat) (l : list A) :
  sum_list ((fun g : K * list A => sum_list (f <$> g.2)) <$> group_by key l)
  = sum_list (f <$> l).
Proof.
  induction l as [|x l IH] using rev_ind; [reflexivity|].
  assert (G : forall groups,
             sum_list ((fun g : K * list A => sum_list (f <$> g.2))
                         <$> add_to_group (key x) x groups)
             = sum_list ((fun g : K * list A => sum_list (f <$> g.2)) <$> groups)
               + f x).
  { induction groups as [|[k' xs] groups IHg]; [simpl; lia|].
    cbn [add_to_group]. destruct (decide (key x = k')).
    - rewrite !fmap_cons. cbn [snd]. rewrite fmap_app.
      change (sum_list (?a :: ?l)) with (a + sum_list l).
      rewrite sum_list_append. simpl. lia.
    - rewrite !fmap_cons. change (sum_list (?a :: ?l)) with (a + sum_list l).
      rewrite IHg. lia. }
  rewrite group_by_snoc, G, IH, fmap_app, sum_list_append. simpl. lia.
Qed.

End Groups.

End GroupFacts.

Module HooksTreeFacts.
Import Js Hooks Fs Shapes JsFacts FsFacts HookShapes HooksFileFacts.
Import HooksTree TreeShapes GroupFacts.

Lemma foldl_count (ms : list HookMatcher) (a : nat) :
  foldl (fun count matcher => count + length (hooks matcher)) a ms
  = a + sum_list ((fun matcher => length (hooks matcher)) <$> ms).
Proof.
  revert a. induction ms as [|m ms IH]; intros a; [simpl; lia|].
  cbn [foldl]. rewrite IH, fmap_cons.
  change (sum_list (?x :: ?l)) with (x + sum_list l). lia.
Qed.

Lemma countHooks_sum (cs : list HookConfiguration) :
  countHooks cs = sum_list (hooks_in <$> cs).
Proof.
  unfold countHooks.
  assert (G : forall a,
             foldl (fun count config =>
                      foldl (fun count matcher => count + length (hooks matcher))
                        count (matchers config)) a cs
             = a + sum_list (hooks_in <$> cs)).
  { induction cs as [|c cs IH]; intros a; [simpl; lia|].
    cbn [foldl]. rewrite IH, foldl_count, fmap_cons.
    change (sum_list (?x :: ?l)) with (x + sum_list l). unfold hooks_in. lia. }
  apply G.
Qed.

Lemma matcher_items_counts (i : nat) (c : HookConfiguration) :
  sum_list (m_count <$> matcher_items_of i c) = hooks_in c
  /\ Forall (fun mi => m_count mi = length (m_children mi)) (matcher_items_of i c).
Proof.
  unfold matcher_items_of, hooks_in. split.
  - rewrite <- list_fmap_compose. reflexivity.
  - apply Forall_fmap, Forall_forall. intros m _. simpl.
    now rewrite length_imap.
Qed.

Lemma imap_items_counts (ys : list HookConfiguration) : forall g : nat -> nat,
  sum_list (m_count <$> mjoin (imap (fun i c => matcher_items_of (g i) c) ys))
  = sum_list (hooks_in <$> ys)
  /\ Forall (fun mi => m_count mi = length (m_children mi))
       (mjoin (imap (fun i c => matcher_items_of (g i) c) ys)).
Proof.
  induction ys as [|c ys IH]; intros g; [split; [reflexivity|constructor]|].
  cbn [imap mjoin list_join]. rewrite fmap_app, sum_list_append.
  destruct (matcher_items_counts (g 0) c) as [-> Hc].
  destruct (IH (g ∘ S)) as [IH1 IH2]. unfold compose in *.
  split.
  - rewrite fmap_cons. simpl. f_equal. exact IH1.
  - apply Forall_app. split; assumption.
Qed.

Lemma event_item_counts (g : string * list HookConfiguration) :
  e_count (event_item_of g) = sum_list (m_count <$> e_children (event_item_of g))
  /\ Forall (fun mi => m_count mi = length (m_children mi))
       (e_children (event_item_of g)).
Proof.
  unfold event_item_of. simpl. rewrite countHooks_sum.
  destruct (imap_items_counts g.2 (fun i => i)) as [H1 H2].
  split; [symmetry; exact H1|exact H2].
Qed.

Lemma length_bind {A B} (f : A -> list B) (l : list A) :
  length (l ≫= f) = sum_list ((fun x => length (f x)) <$> l).
Proof.
  induction l as [|x l IH]; [reflexivity|].
  change ((x :: l) ≫= f) with (f x ++ (l ≫= f)).
  rewrite length_app, IH. reflexivity.
Qed.

Lemma sum_list_ext {A} (f g : A -> nat) (l : list A) :
  Forall (fun x => f x = g x) l -> sum_list (f <$> l) = sum_list (g <$> l).
Proof.
  induction 1 as [|x l Hx Hl IH]; [reflexivity|].
  rewrite !fmap_cons. change (sum_list (?a :: ?k)) with (a + sum_list k).
  now rewrite Hx, IH.
Qed.

(** The counts of the tree that is built when nothing throws. *)
Lemma tree_of_counts (hookConfigs : list HookConfiguration) :
  sum_list (l_count <$> tree_of hookConfigs) = countHooks hookConfigs
  /\ Forall (fun li =>
       l_count li = sum_list (e_count <$> l_children li)
       /\ Forall (fun ei =>
            e_count ei = sum_list (m_count <$> e_children ei)
            /\ Forall (fun mi => m_count mi = length (m_children mi))
                 (e_children ei))
            (l_children li))
       (tree_of hookConfigs)
  /\ length (hook_items (tree_of hookConfigs)) = countHooks hookConfigs.
Proof.
  assert (Hloc : forall g : string * list HookConfiguration,
             l_count (location_item_of g) = sum_list (hooks_in <$> g.2)
             /\ l_count (location_item_of g)
                = sum_list (e_count <$> l_children (location_item_of g))
             /\ Forall (fun ei =>
                  e_count ei = sum_list (m_count <$> e_children ei)
                  /\ Forall (fun mi => m_count mi = length (m_children mi))
                       (e_children ei))
                  (l_children (location_item_of g))).
  { intros g. unfold location_item_of. simpl. rewrite countHooks_sum.
    split; [reflexivity|]. split.
    - rewrite <- list_fmap_compose.
      rewrite <- (group_by_sum eventType hooks_in g.2).
      apply sum_list_ext, Forall_forall. intros g' _. simpl.
      now rewrite countHooks_sum.
    - apply Forall_fmap, Forall_forall. intros g' _. apply event_item_counts. }
  assert (Hsum : sum_list (l_count <$> tree_of hookConfigs)
                 = countHooks hookConfigs).
  { unfold tree_of. rewrite <- list_fmap_compose, countHooks_sum.
    rewrite <- (group_by_sum location hooks_in hookConfigs).
    apply sum_list_ext, Forall_forall. intros g _. simpl. apply Hloc. }
  split; [exact Hsum|]. split.
  - unfold tree_of. apply Forall_fmap, Forall_forall. intros g _.
    destruct (Hloc g) as (_ & H1 & H2). split; assumption.
  - rewrite <- Hsum. unfold hook_items. rewrite length_bind.
    unfold tree_of. rewrite <- !list_fmap_compose.
    apply sum_list_ext, Forall_forall. intros g _. unfold compose.
    destruct (Hloc g) as (_ & -> & Hev).
    rewrite length_bind. apply sum_list_ext.
    eapply Forall_impl; [exact Hev|]. intros ei [-> Hm]. cbv beta.
    rewrite length_bind. symmetry. apply sum_list_ext.
    eapply Forall_impl; [exact Hm|]. now intros mi ->.
Qed.


Lemma each_Ok_fmap {A B} (f : A -> result B) (g : A -> B) (l : list A) :
  (forall x y, x ∈ l -> f x = Ok y -> y = g x) ->
  forall ys, each f l = Ok ys -> ys = g <$> l.
Proof.
  induction l as [|x l IH]; intros Hf ys H.
  - now injection H as <-.
  - cbn [each] in H. apply bind_Ok in H as (y & Hy & H).
    apply bind_Ok in H as (ys' & Hys & H). injection H as <-.
    rewrite fmap_cons. f_equal.
    + apply Hf; [apply list_elem_of_here|assumption].
    + apply IH; [|assumption]. intros x' y' Hin. apply Hf.
      now apply list_elem_of_further.
Qed.

Lemma each_from_Ok_imap {A B} (f : nat -> A -> result B) (g : nat -> A -> B)
  (l : list A) : forall k,
  (forall j x y, l !! j = Some x -> f (k + j) x = Ok y -> y = g (k + j) x) ->
  forall ys, each_from f k l = Ok ys -> ys = imap (fun j => g (k + j)) l.
Proof.
  induction l as [|x l IH]; intros k Hf ys H.
  - now injection H as <-.
  - cbn [each_from] in H. apply bind_Ok in H as (y & Hy & H).
    apply bind_Ok in H as (ys' & Hys & H). injection H as <-.
    cbn [imap]. f_equal.
    + apply (Hf 0 x y); [reflexivity|]. now rewrite Nat.add_0_r.
    + assert (Hf' : forall j x0 y0, l !! j = Some x0 ->
                       f (S k + j) x0 = Ok y0 -> y0 = g (S k + j) x0).
      { intros j x' y' Hlk Hy'. replace (S k + j) with (k + S j) in * by lia.
        now apply Hf. }
      rewrite (IH (S k) Hf' _ Hys).
      apply imap_ext. intros j z _. simpl. f_equal. lia.
Qed.

Lemma each_fmap_Ok {A B} (f : A -> result B) (g : A -> B) (l : list A) :
  (forall x, x ∈ l -> f x = Ok (g x)) -> each f l = Ok (g <$> l).
Proof.
  induction l as [|x l IH]; intros Hf; [reflexivity|].
  cbn [each]. rewrite Hf by apply list_elem_of_here. simpl.
  rewrite IH; [reflexivity|]. intros x' Hin. apply Hf.
  now apply list_elem_of_further.
Qed.

Lemma each_from_imap_Ok {A B} (f : nat -> A -> result B) (g : nat -> A -> B)
  (l : list A) : forall k,
  (forall j x, l !! j = Some x -> f (k + j) x = Ok (g (k + j) x)) ->
  each_from f k l = Ok (imap (fun j => g (k + j)) l).
Proof.
  induction l as [|x l IH]; intros k Hf; [reflexivity|].
  cbn [each_from imap]. rewrite <- (Nat.add_0_r k) at 1.
  rewrite (Hf 0 x eq_refl). simpl. rewrite (IH (S k)).
  - simpl. rewrite Nat.add_0_r. do 2 f_equal.
    apply imap_ext. intros j z _. simpl. f_equal. lia.
  - intros j x' Hlk. replace (S k + j) with (k + S j) by lia. now apply Hf.
Qed.

Lemma each_throws {A B} (f : A -> result B) (l : list A) x :
  x ∈ l -> (exists e, f x = Throw e) -> exists e, each f l = Throw e.
Proof.
  intros Hin Hx. induction l as [|z l IH]; [now apply elem_of_nil in Hin|].
  cbn [each]. destruct (f z) as [y|e] eqn:Hz; [|simpl; eauto].
  apply elem_of_cons in Hin as [->|Hin].
  - destruct Hx as [e He]. congruence.
  - destruct (IH Hin) as [e He]. simpl. rewrite He. simpl. eauto.
Qed.

Lemma each_from_throws {A B} (f : nat -> A -> result B) (l : list A) :
  forall k j x,
    l !! j = Some x -> (exists e, f (k + j) x = Throw e) ->
    exists e, each_from f k l = Throw e.
Proof.
  induction l as [|z l IH]; intros k j x Hlk Hx; [discriminate|].
  cbn [each_from]. destruct (f k z) as [y|e] eqn:Hz; [|simpl; eauto].
  destruct j as [|j].
  - injection Hlk as ->. rewrite Nat.add_0_r in Hx. destruct Hx as [e He]. congruence.
  - simpl in Hlk. replace (k + S j) with (S k + j) in Hx by lia.
    destruct (IH (S k) j x Hlk Hx) as [e He]. simpl. rewrite He. simpl. eauto.
Qed.

Lemma createHookItem_Ok exceeds hook j config m i d :
  createHookItem exceeds hook j config m i = Ok d -> d = item_of hook j config i.
Proof.
  unfold createHookItem. intros H.
  repeat (apply bind_Ok in H as (? & _ & H)).
  now injection H as <-.
Qed.

Lemma createHookItem_null exceeds j config m i :
  createHookItem exceeds JNull j config m i = Throw TypeError.
Proof. reflexivity. Qed.

Lemma shown_scalar (v : value) : scalar v = true -> shown v = Ok tt.
Proof. destruct v as [[]|]; try discriminate; reflexivity. Qed.

Lemma preview_scalar exceeds (v : value) :
  scalar v = true -> preview exceeds (default JNull v) = Ok tt.
Proof. destruct v as [[]|]; try discriminate; reflexivity. Qed.

Lemma shown_label (m : HookMatcher) :
  scalar (matcher m) = true -> shown (Some (matcher_label m)) = Ok tt.
Proof.
  unfold matcher_label. intros H.
  destruct (truthy (matcher m)); [|reflexivity].
  destruct (matcher m) as [[]|]; try discriminate; reflexivity.
Qed.

Lemma createHookItem_plain exceeds hook j config m i :
  plain_hook hook = true -> scalar (matcher m) = true ->
  createHookItem exceeds hook j config m i = Ok (item_of hook j config i).
Proof.
  intros Hh Hm. destruct hook as [| | | | |es]; try discriminate.
  simpl in Hh. apply andb_true_iff in Hh as [Hh Hto].
  apply andb_true_iff in Hh as [Hh Hpr]. apply andb_true_iff in Hh as [Hty Hco].
  unfold createHookItem. cbn [get_key mbind result_bind].
  rewrite (shown_label _ Hm), (shown_scalar _ Hty), (shown_scalar _ Hco),
    (shown_scalar _ Hpr), (shown_scalar _ Hto),
    (preview_scalar _ _ Hco), (preview_scalar _ _ Hpr).
  destruct (truthy (assoc "command" es)), (truthy (assoc "prompt" es)),
    (truthy (assoc "timeout" es)); reflexivity.
Qed.

Lemma matcher_items_Ok exceeds index config ms :
  matcher_items exceeds index config = Ok ms ->
  ms = matcher_items_of index config.
Proof.
  unfold matcher_items, matcher_items_of. apply each_Ok_fmap.
  intros m y _ H. apply bind_Ok in H as (? & _ & H).
  apply bind_Ok in H as (children & Hc & H). injection H as <-.
  f_equal. eapply (each_from_Ok_imap _ (fun hookIndex hook =>
                                         item_of hook hookIndex config index)
                    _ 0); [|exact Hc].
  intros k hook d _. apply createHookItem_Ok.
Qed.

Lemma event_item_Ok exceeds group ei :
  event_item exceeds group = Ok ei -> ei = event_item_of group.
Proof.
  unfold event_item, event_item_of. intros H.
  apply bind_Ok in H as (children & Hc & H). injection H as <-. do 2 f_equal.
  eapply (each_from_Ok_imap _ matcher_items_of _ 0); [|exact Hc].
  intros k c y _. apply matcher_items_Ok.
Qed.

Lemma location_item_Ok exceeds group li :
  location_item exceeds group = Ok li -> li = location_item_of group.
Proof.
  unfold location_item, location_item_of. intros H.
  apply bind_Ok in H as (children & Hc & H). injection H as <-. f_equal.
  eapply each_Ok_fmap; [|exact Hc]. intros x y _. apply event_item_Ok.
Qed.

(** When nothing throws, the tree is the one described. *)
Lemma hook_tree_Ok exceeds cs tree :
  hook_tree exceeds cs = Ok tree -> tree = tree_of cs.
Proof.
  unfold hook_tree, tree_of. apply each_Ok_fmap.
  intros x y _. apply location_item_Ok.
Qed.

Lemma group_members {K} `{EqDecision K} (key : HookConfiguration -> K)
  (l : list HookConfiguration) k xs c :
  (k, xs) ∈ group_by key l -> c ∈ xs -> c ∈ l.
Proof.
  intros Hg Hc. apply group_by_spec in Hg as [-> _].
  now apply list_elem_of_filter in Hc as [_ Hc].
Qed.

Lemma matcher_items_plain exceeds index config :
  (forall m, m ∈ matchers config -> plain_matcher m) ->
  matcher_items exceeds index config = Ok (matcher_items_of index config).
Proof.
  intros Hp. unfold matcher_items, matcher_items_of. apply each_fmap_Ok.
  intros m Hm. destruct (Hp m Hm) as [Hsc Hhooks].
  rewrite (shown_label _ Hsc). simpl.
  rewrite (each_from_imap_Ok _ (fun hookIndex hook =>
                                  item_of hook hookIndex config index) _ 0).
  - reflexivity.
  - intros j x Hlk. apply createHookItem_plain; [|assumption].
    rewrite Forall_forall in Hhooks. apply Hhooks.
    eapply list_elem_of_lookup_2; eauto.
Qed.

Lemma hook_tree_plain exceeds cs :
  (forall c m, c ∈ cs -> m ∈ matchers c -> plain_matcher m) ->
  hook_tree exceeds cs = Ok (tree_of cs).
Proof.
  intros Hp. unfold hook_tree, tree_of. apply each_fmap_Ok.
  intros [loc xs] Hloc. unfold location_item, location_item_of. cbn [fst snd].
  rewrite (each_fmap_Ok _ event_item_of); [reflexivity|].
  intros [ev ys] Hev. unfold event_item, event_item_of. cbn [fst snd].
  rewrite (each_from_imap_Ok _ matcher_items_of _ 0); [reflexivity|].
  intros j c Hlk. apply matcher_items_plain. intros m Hm.
  apply (Hp c m); [|assumption].
  eapply group_members; [exact Hloc|]. eapply group_members; [exact Hev|].
  eapply list_elem_of_lookup_2; eauto.
Qed.

Lemma matcher_items_null exceeds index config m :
  m ∈ matchers config -> JNull ∈ hooks m ->
  exists e, matcher_items exceeds index config = Throw e.
Proof.
  intros Hm Hnull. unfold matcher_items. eapply each_throws; [exact Hm|].
  cbv beta. destruct (shown (Some (matcher_label m))) as [[]|e]; [|simpl; eauto].
  apply list_elem_of_lookup_1 in Hnull as [j Hj].
  destruct (each_from_throws
              (fun hookIndex hook =>
                 createHookItem exceeds hook hookIndex config m index)
              (hooks m) 0 j JNull Hj) as [e He].
  - exists TypeError. apply createHookItem_null.
  - simpl. rewrite He. simpl. eauto.
Qed.

Lemma hook_tree_null exceeds cs c m :
  c ∈ cs -> m ∈ matchers c -> JNull ∈ hooks m ->
  exists e, hook_tree exceeds cs = Throw e.
Proof.
  intros Hc Hm Hnull. unfold hook_tree.
  eapply each_throws; [apply (group_by_elem location cs c Hc)|].
  unfold location_item. cbn [fst snd].
  set (xs := filter (fun y => location y = location c) cs).
  assert (Hc1 : c ∈ xs) by (apply list_elem_of_filter; auto).
  destruct (each_throws (event_item exceeds) (group_by eventType xs)
              _ (group_by_elem eventType xs c Hc1)) as [e He].
  - unfold event_item. cbn [fst snd].
    set (ys := filter (fun y => eventType y = eventType c) xs).
    assert (Hc2 : c ∈ ys) by (apply list_elem_of_filter; auto).
    apply list_elem_of_lookup_1 in Hc2 as [j Hj].
    destruct (each_from_throws (matcher_items exceeds) ys 0 j c Hj) as [e He].
    + eapply matcher_items_null; eauto.
    + rewrite He. simpl. eauto.
  - rewrite He. simpl. eauto.
Qed.

(** X19: the counts the hooks tree shows add up. Whenever the location
    items are built, the counts of the locations sum to [countHooks] of
    the whole discovery result, the count of a location is the sum of
    the counts of its event types, the count of an event type is the sum
    of the counts of its matchers, the count of a matcher is the number
    of hook items below it, and there are as many hook items in the tree
    as [countHooks] counts. The items are built when every matcher entry
    has a scalar matcher and hooks that are objects with scalar [type],
    [command], [prompt] and [timeout]; they are not when a hook is
    [null], which [parseHooks] lets through: [createHookItem] throws on
    reading its [type]. *)
Theorem hook_tree_counts_add_up (exceeds : json -> bool)
  (hookConfigs : list HookConfiguration) :
  (forall tree,
      hook_tree exceeds hookConfigs = Ok tree ->
      sum_list (l_count <$> tree) = countHooks hookConfigs
      /\ Forall (fun li =>
           l_count li = sum_list (e_count <$> l_children li)
           /\ Forall (fun ei =>
                e_count ei = sum_list (m_count <$> e_children ei)
                /\ Forall (fun mi => m_count mi = length (m_children mi))
                     (e_children ei))
                (l_children li))
           tree
      /\ length (hook_items tree) = countHooks hookConfigs)
  /\ ((forall c m, c ∈ hookConfigs -> m ∈ matchers c -> plain_matcher m) ->
      exists tree, hook_tree exceeds hookConfigs = Ok tree)
  /\ (forall c m,
        c ∈ hookConfigs -> m ∈ matchers c -> JNull ∈ hooks m ->
        exists e, hook_tree exceeds hookConfigs = Throw e).
Proof.
  split_and!.
  - intros tree ->%hook_tree_Ok. apply tree_of_counts.
  - intros Hp. eexists. now apply hook_tree_plain.
  - intros c m. apply hook_tree_null.
Qed.

End HooksTreeFacts.

Module HookIndexFacts.
Import Js Hooks Fs Shapes JsFacts FsFacts HookShapes HooksFileFacts.
Import HooksTree TreeShapes GroupFacts HooksTreeFacts.

(** Where a hook item of the tree comes from. *)
Lemma hook_items_elem (cs : list HookConfiguration) (d : HookData) :
  d ∈ hook_items (tree_of cs)
  <-> exists loc xs ev ys i c m j x,
        (loc, xs) ∈ group_by location cs
        /\ (ev, ys) ∈ group_by eventType xs
        /\ ys !! i = Some c
        /\ m ∈ matchers c
        /\ hooks m !! j = Some x
        /\ d = item_of x j c i.
Proof.
  unfold hook_items, tree_of. rewrite list_elem_of_bind. split.
  - intros (li & Hd & Hli).
    apply list_elem_of_fmap in Hli as ([loc xs] & -> & Hloc).
    apply list_elem_of_bind in Hd as (ei & Hd & Hei). simpl in Hei.
    apply list_elem_of_fmap in Hei as ([ev ys] & -> & Hev).
    apply list_elem_of_bind in Hd as (mi & Hd & Hmi). simpl in Hmi.
    apply list_elem_of_join in Hmi as (items & Hmi & Hitems).
    apply elem_of_lookup_imap in Hitems as (i & c & -> & Hc).
    unfold matcher_items_of in Hmi.
    apply list_elem_of_fmap in Hmi as (m & -> & Hm). simpl in Hd.
    apply elem_of_lookup_imap in Hd as (j & x & -> & Hx).
    exists loc, xs, ev, ys, i, c, m, j, x. auto 10.
  - intros (loc & xs & ev & ys & i & c & m & j & x & Hloc & Hev & Hc & Hm & Hx & ->).
    exists (location_item_of (loc, xs)). split.
    2:{ apply list_elem_of_fmap. eauto. }
    apply list_elem_of_bind. exists (event_item_of (ev, ys)). split.
    2:{ simpl. apply list_elem_of_fmap. eauto. }
    apply list_elem_of_bind.
    eexists. split.
    2:{ simpl. apply list_elem_of_join. exists (matcher_items_of i c). split.
        - unfold matcher_items_of. apply list_elem_of_fmap. eexists. split; [reflexivity|exact Hm].
        - apply elem_of_lookup_imap. eauto. }
    simpl. apply elem_of_lookup_imap. eauto.
Qed.

Lemma filter_filter_pair (cs : list HookConfiguration) (loc ev : string) :
  filter (fun c => eventType c = ev) (filter (fun c => location c = loc) cs)
  = filter (fun c => (location c, eventType c) = (loc, ev)) cs.
Proof.
  induction cs as [|c cs IH]; [reflexivity|].
  destruct (decide (location c = loc)) as [Hl|Hl].
  - rewrite (filter_cons_True (fun c => location c = loc)) by assumption.
    destruct (decide (eventType c = ev)) as [He|He].
    + rewrite !filter_cons_True by congruence. now rewrite IH.
    + rewrite !filter_cons_False by congruence. exact IH.
  - rewrite (filter_cons_False (fun c => location c = loc)) by assumption.
    rewrite filter_cons_False by congruence. exact IH.
Qed.

Lemma filter_key_NoDup {A K} `{EqDecision K} (key : A -> K) (k : K) (l : list A) :
  NoDup (key <$> l) -> length (filter (fun x => key x = k) l) <= 1.
Proof.
  induction l as [|x l IH]; [simpl; lia|].
  rewrite fmap_cons. intros [Hx Hnd]%NoDup_cons.
  destruct (decide (key x = k)) as [<-|Hne].
  - rewrite filter_cons_True by reflexivity.
    destruct (filter (fun y => key y = key x) l) as [|y ys] eqn:E; [simpl; lia|].
    exfalso. apply Hx. apply list_elem_of_fmap. exists y. 
    assert (Hy : y ∈ filter (fun y => key y = key x) l) by (rewrite E; apply list_elem_of_here).
    apply list_elem_of_filter in Hy as [-> Hy]. auto.
  - rewrite filter_cons_False by assumption. auto.
Qed.

(** When no two configurations share their location and event type,
    every hook item carries the matcher index 0. *)
Lemma hook_items_index (cs : list HookConfiguration) :
  NoDup ((fun c => (location c, eventType c)) <$> cs) ->
  (forall d, d ∈ hook_items (tree_of cs) -> d_matcherIndex d = 0)
  /\ (forall c m j x,
        c ∈ cs -> m ∈ matchers c -> hooks m !! j = Some x ->
        item_of x j c 0 ∈ hook_items (tree_of cs)).
Proof.
  intros Hnd. split.
  - intros d Hd. apply hook_items_elem in Hd
      as (loc & xs & ev & ys & i & c & m & j & x & Hloc & Hev & Hc & Hm & Hx & ->).
    simpl. apply group_by_spec in Hloc as [-> _].
    apply group_by_spec in Hev as [-> _]. rewrite filter_filter_pair in Hc.
    pose proof (filter_key_NoDup (fun c => (location c, eventType c)) (loc, ev) cs Hnd)
      as Hlen.
    apply lookup_lt_Some in Hc. lia.
  - intros c m j x Hc Hm Hx. apply hook_items_elem.
    exists (location c), (filter (fun y => location y = location c) cs),
      (eventType c),
      (filter (fun y => eventType y = eventType c)
         (filter (fun y => location y = location c) cs)), 0, c, m, j, x.
    assert (Hc1 : c ∈ filter (fun y => location y = location c) cs)
      by (apply list_elem_of_filter; auto).
    split; [now apply (group_by_elem location)|].
    split; [now apply (group_by_elem eventType)|].
    split; [|auto].
    rewrite filter_filter_pair.
    pose proof (filter_key_NoDup (fun c => (location c, eventType c))
                  (location c, eventType c) cs Hnd) as Hlen.
    assert (Hin : c ∈ filter (fun y => (location y, eventType y)
                                       = (location c, eventType c)) cs)
      by (apply list_elem_of_filter; auto).
    remember (filter (fun y => (location y, eventType y)
                               = (location c, eventType c)) cs) as fs eqn:Efs.
    clear Efs. destruct fs as [|y [|z ys]].
    + now apply elem_of_nil in Hin.
    + apply list_elem_of_singleton in Hin as ->. reflexivity.
    + simpl in Hlen. lia.
Qed.

Lemma parse_events_sub entries loc p : forall cs,
  parse_events entries loc p = Ok cs ->
  (eventType <$> cs) `sublist_of` entries.*1
  /\ Forall (fun c => location c = loc) cs.
Proof.
  induction entries as [|[k v] entries IH]; intros cs H.
  - injection H as <-. split; constructor.
  - simpl in H. rewrite fmap_cons. cbn [fst].
    destruct v as [| | | |l|];
      try (destruct (IH _ H) as [H1 H2]; split; [now apply sublist_cons|assumption]).
    apply bind_Ok in H as (ms & _ & H).
    apply bind_Ok in H as (cs0 & Hcs0 & H). injection H as <-.
    destruct (IH _ Hcs0) as [H1 H2].
    destruct ms.
    + split; [now apply sublist_cons|assumption].
    + split; [rewrite fmap_cons; now apply sublist_skip|].
      constructor; [reflexivity|assumption].
Qed.

Lemma imap_keys_from (l : list json) : forall (k q : nat),
  pretty q ∈ (imap (fun i x => (pretty (k + i), x)) l).*1 -> k <= q.
Proof.
  induction l as [|x l IH]; intros k q Hin.
  - now apply elem_of_nil in Hin.
  - cbn [imap] in Hin. rewrite fmap_cons in Hin.
    apply elem_of_cons in Hin as [Heq|Hin].
    + simpl in Heq. apply (inj pretty) in Heq. lia.
    + assert (S k <= q); [|lia]. apply IH.
      erewrite imap_ext; [exact Hin|]. intros i y _. simpl. f_equal. f_equal. lia.
Qed.

Lemma imap_keys_NoDup (l : list json) : forall k : nat,
  NoDup (imap (fun i x => (pretty (k + i), x)) l).*1.
Proof.
  induction l as [|x l IH]; intros k; [constructor|].
  cbn [imap]. rewrite fmap_cons. apply NoDup_cons. split.
  - simpl. intros Hin.
    assert (S k <= k + 0); [|lia]. apply (imap_keys_from l).
    erewrite imap_ext; [exact Hin|]. intros i y _. simpl. f_equal. f_equal. lia.
  - erewrite imap_ext; [apply (IH (S k))|]. intros i y _. simpl. f_equal. f_equal. lia.
Qed.

Lemma parseHooks_doc_events d loc p :
  distinct_events d ->
  NoDup (eventType <$> parseHooks_doc d loc p)
  /\ Forall (fun c => location c = loc) (parseHooks_doc d loc p).
Proof.
  intros Hd. unfold parseHooks_doc.
  destruct (parseHooks_try d loc p) as [cs|e] eqn:Htry; [|split; constructor].
  unfold parseHooks_try in Htry.
  apply bind_Ok in Htry as (h & Hh & Htry).
  destruct (negb (truthy h) || negb (typeof_object h)) eqn:Hg.
  { injection Htry as <-. split; constructor. }
  destruct (parse_events_sub _ _ _ _ Htry) as [Hsub Hloc].
  split; [|exact Hloc].
  eapply sublist_NoDup; [|exact Hsub].
  destruct h as [[| | | |l|hs]|]; try discriminate; simpl; try constructor.
  - apply (imap_keys_NoDup l 0).
  - destruct d as [| | | | |ms]; try discriminate. simpl in Hh. injection Hh as Hh.
    simpl in Hd. now rewrite Hh in Hd.
Qed.

Lemma hooks_of_events w p loc :
  (forall d, files w !! p = Some (File (Json d)) -> distinct_events d) ->
  NoDup (eventType <$> hooks_of w p loc)
  /\ Forall (fun c => location c = loc) (hooks_of w p loc).
Proof.
  intros Hd. unfold hooks_of.
  destruct (file_there p w); [|split; constructor].
  destruct (decide _); [split; constructor|].
  destruct (files w !! p) as [[[s|d]|]|]; try (split; constructor).
  apply parseHooks_doc_events. now apply Hd.
Qed.

Lemma pairs_NoDup (g l : list HookConfiguration) (gl ll : string) :
  gl <> ll ->
  NoDup (eventType <$> g) -> Forall (fun c => location c = gl) g ->
  NoDup (eventType <$> l) -> Forall (fun c => location c = ll) l ->
  NoDup ((fun c => (location c, eventType c)) <$> (g ++ l)).
Proof.
  intros Hne Hg Hgl Hl Hll.
  assert (G : forall (cs : list HookConfiguration) (loc : string),
             NoDup (eventType <$> cs) -> Forall (fun c => location c = loc) cs ->
             NoDup ((fun c => (location c, eventType c)) <$> cs)
             /\ Forall (fun pr => pr.1 = loc)
                  ((fun c => (location c, eventType c)) <$> cs)).
  { intros cs loc Hnd Hall. induction Hall as [|c cs Hc Hall IH].
    - split; constructor.
    - rewrite fmap_cons in Hnd. apply NoDup_cons in Hnd as [Hc' Hnd].
      destruct (IH Hnd) as [IH1 IH2]. rewrite fmap_cons. split.
      + apply NoDup_cons. split; [|assumption].
        intros Hin. apply Hc'. apply list_elem_of_fmap in Hin as (c' & [= _ Heq] & Hin).
        apply list_elem_of_fmap. eauto.
      + constructor; assumption. }
  destruct (G _ _ Hg Hgl) as [G1 G2]. destruct (G _ _ Hl Hll) as [L1 L2].
  rewrite fmap_app. apply NoDup_app. split; [assumption|]. split; [|assumption].
  intros pr Hin1 Hin2.
  rewrite Forall_forall in G2, L2.
  pose proof (G2 _ Hin1) as E1. pose proof (L2 _ Hin2) as E2. congruence.
Qed.

(** The matcher index in the tree of a discovery result. *)
Lemma tree_of_index env w cs w' :
  (forall p d, files w !! p = Some (File (Json d)) -> distinct_events d) ->
  HooksFs.discoverHooks env w = (Ok cs, w') ->
  (forall d, d ∈ hook_items (tree_of cs) -> d_matcherIndex d = 0)
  /\ (forall c m j x,
        c ∈ cs -> m ∈ matchers c -> hooks m !! j = Some x ->
        {| d_configPath := configPath c; d_eventType := eventType c;
           d_matcherIndex := 0; d_hookIndex := j; d_hook := x |}
        ∈ hook_items (tree_of cs)).
Proof.
  intros Hdist Hrun.
  destruct (discoverHooks_run env w) as (w0 & calls0 & Hrun0 & _).
  rewrite Hrun0 in Hrun. injection Hrun as <- _.
  apply hook_items_index.
  destruct (hooks_of_events w (join (globalClaudePath env) ["settings.json"])
              "Global (~/.claude)" (Hdist _)) as [G1 G2].
  destruct (workspaceFolder env) as [ws|].
  - destruct (hooks_of_events w (join ws [".claude"; "settings.local.json"])
                "Project (.claude/settings.local.json)" (Hdist _)) as [L1 L2].
    eapply pairs_NoDup; eauto. discriminate.
  - eapply (pairs_NoDup _ [] _ "x"); eauto; try constructor. discriminate.
Qed.

(** X20: whenever [getChildren] of the hooks view returns at the root,
    every hook item of the tree carries the matcher index 0, whatever
    the place of its matcher entry in the settings file: the index stored
    is the position of the configuration among those of the same location
    and event type, and a file gives one configuration for an event type.
    Each hook of each matcher of each configuration discovered has its
    item, with its own position in the list of its matcher as hook index.
    Without any configuration the placeholder is returned. *)
Theorem hook_items_carry_matcher_index_zero (exceeds : json -> bool)
  env w roots w' :
  (forall p d, files w !! p = Some (File (Json d)) -> distinct_events d) ->
  getChildren exceeds env w = (Ok roots, w') ->
  exists cs,
    HooksFs.discoverHooks env w = (Ok cs, w')
    /\ (roots = NoHooks <-> cs = [])
    /\ (forall d, d ∈ root_items roots -> d_matcherIndex d = 0)
    /\ (forall c m j x,
          c ∈ cs -> m ∈ matchers c -> hooks m !! j = Some x ->
          {| d_configPath := configPath c; d_eventType := eventType c;
             d_matcherIndex := 0; d_hookIndex := j; d_hook := x |}
          ∈ root_items roots).
Proof.
  intros Hdist Hrun. unfold getChildren in Hrun. rewrite bind_run in Hrun.
  destruct (HooksFs.discoverHooks env w) as [[cs|e] w0] eqn:Hrun0.
  2:{ destruct (discoverHooks_run env w) as (w1 & calls1 & E & _).
      rewrite E in Hrun0. discriminate. }
  cbv beta iota in Hrun.
  destruct (tree_of_index env w cs w0 Hdist Hrun0) as [Hzero Hall].
  exists cs. destruct cs as [|c0 cs0].
  - cbn [length Nat.eqb] in Hrun. injection Hrun as <- <-.
    split; [reflexivity|]. split; [tauto|]. split.
    + intros d Hd. now apply elem_of_nil in Hd.
    + intros c m j x Hc. now apply elem_of_nil in Hc.
  - cbn [length Nat.eqb] in Hrun. rewrite bind_run in Hrun. unfold lift in Hrun.
    destruct (hook_tree exceeds (c0 :: cs0)) as [tree|e] eqn:Htree; [|discriminate].
    injection Hrun as <- <-. apply hook_tree_Ok in Htree as ->.
    split; [reflexivity|]. split; [split; discriminate|]. split; assumption.
Qed.

End HookIndexFacts.

Module PermissionsTreeFacts.
Import Js Fs Permissions HooksTree GroupFacts PermissionsTree.
Import PermissionTreeShapes.
Import PermissionsFs (PermissionRule, RuleType, allow, ask, deny, Platform,
                      discoverPermissions).
Import FsFacts PermissionsFsFacts.

Lemma add_to_group_flat {K A} `{EqDecision K} (k : K) (x : A)
  (groups : list (K * list A)) :
  add_to_group k x groups ≫= snd ≡ₚ (groups ≫= snd) ++ [x].
Proof.
  induction groups as [|[k' xs] groups IH]; [reflexivity|].
  cbn [add_to_group]. destruct (decide (k = k')) as [<-|Hne].
  - rewrite !bind_cons. cbn [snd]. rewrite <- !app_assoc.
    apply Permutation_app_head. apply Permutation_app_comm.
  - rewrite !bind_cons. cbn [snd]. rewrite IH. now rewrite app_assoc.
Qed.

(** Grouping loses nothing and repeats nothing. *)
Lemma group_by_flat {K A} `{EqDecision K} (key : A -> K) (l : list A) :
  group_by key l ≫= snd ≡ₚ l.
Proof.
  induction l as [|x l IH] using rev_ind; [reflexivity|].
  rewrite group_by_snoc, add_to_group_flat. now rewrite IH.
Qed.

Lemma sum_list_perm (l k : list nat) : l ≡ₚ k -> sum_list l = sum_list k.
Proof. induction 1; simpl; lia. Qed.

Lemma sum_list_ones {A} (l : list A) : sum_list ((fun _ => 1) <$> l) = length l.
Proof. induction l as [|x l IH]; simpl; [reflexivity|]. f_equal. exact IH. Qed.

Lemma rules_by_type (rules : list PermissionRule) :
  List.filter (fun r => rule_type_eqb (PermissionsFs.type r) allow) rules
  ++ List.filter (fun r => rule_type_eqb (PermissionsFs.type r) ask) rules
  ++ List.filter (fun r => rule_type_eqb (PermissionsFs.type r) deny) rules
  ≡ₚ rules.
Proof.
  induction rules as [|r rules IH]; [reflexivity|].
  simpl. destruct (PermissionsFs.type r); simpl.
  - now rewrite IH.
  - rewrite <- Permutation_middle. now rewrite IH.
  - rewrite app_assoc, <- Permutation_middle, <- app_assoc. now rewrite IH.
Qed.

Section Sorted.
Variable sort : list ToolItem -> list ToolItem.
Hypothesis sort_permutes : forall l, sort l ≡ₚ l.

Lemma groupRulesByTool_items (rules : list PermissionRule) :
  groupRulesByTool sort rules ≫= t_children ≡ₚ createPermissionItem <$> rules.
Proof.
  unfold groupRulesByTool. rewrite sort_permutes.
  rewrite <- (group_by_flat PermissionsFs.tool rules) at 2.
  induction (group_by PermissionsFs.tool rules) as [|[k xs] groups IH];
    [reflexivity|].
  rewrite fmap_cons, !bind_cons, fmap_app. cbn [t_children snd]. now rewrite IH.
Qed.

Lemma groupRulesByTool_counts (rules : list PermissionRule) :
  sum_list (t_count <$> groupRulesByTool sort rules) = length rules
  /\ NoDup (t_tool <$> groupRulesByTool sort rules)
  /\ Forall (fun item =>
       t_count item = length (t_children item) /\ 0 < t_count item
       /\ t_children item
          = createPermissionItem
              <$> filter (fun r => PermissionsFs.tool r = t_tool item) rules)
       (groupRulesByTool sort rules).
Proof.
  unfold groupRulesByTool.
  destruct (group_by_spec PermissionsFs.tool rules) as [Hnd Hspec].
  split; [|split].
  - rewrite (sum_list_perm _ _ (fmap_Permutation _ _ _ (sort_permutes _))).
    rewrite <- list_fmap_compose.
    rewrite <- (sum_list_ones rules).
    rewrite <- (group_by_sum PermissionsFs.tool (fun _ => 1) rules).
    f_equal. apply list_fmap_ext. intros i [k xs] _. simpl.
    now rewrite sum_list_ones.
  - rewrite (sort_permutes _). rewrite <- list_fmap_compose.
    erewrite list_fmap_ext; [exact Hnd|]. now intros i [k xs] _.
  - rewrite (sort_permutes _). apply Forall_fmap, Forall_forall.
    intros [k xs] Hin. apply Hspec in Hin as [-> Hne]. simpl.
    rewrite length_fmap. split; [reflexivity|]. split; [|reflexivity].
    destruct (filter _ rules); [congruence|simpl; lia].
Qed.

Lemma type_section_spec (ty : RuleType) (rules : list PermissionRule) :
  type_section sort ty rules ≫= (fun h => h_children h ≫= t_children)
  ≡ₚ createPermissionItem
       <$> List.filter (fun r => rule_type_eqb (PermissionsFs.type r) ty) rules.
Proof.
  unfold type_section. cbv zeta.
  destruct (List.filter _ rules) as [|r rs] eqn:E; [reflexivity|].
  cbn [length Nat.ltb Nat.leb]. rewrite bind_cons. cbn [mbind list_bind].
  rewrite app_nil_r. cbn [h_children]. apply groupRulesByTool_items.
Qed.

Lemma groupRulesByTool_tools (rules : list PermissionRule) r :
  r ∈ rules -> PermissionsFs.tool r ∈ t_tool <$> groupRulesByTool sort rules.
Proof.
  intros Hr. unfold groupRulesByTool. rewrite (sort_permutes _).
  rewrite <- list_fmap_compose. apply list_elem_of_fmap.
  exists (PermissionsFs.tool r,
          filter (fun y => PermissionsFs.tool y = PermissionsFs.tool r) rules).
  split; [reflexivity|]. now apply (group_by_elem PermissionsFs.tool).
Qed.

Lemma type_section_shows (ty : RuleType) (rules : list PermissionRule) :
  Forall (fun h => h_type h = ty /\ section_shows rules h)
    (type_section sort ty rules).
Proof.
  unfold type_section. cbv zeta.
  destruct (List.filter _ rules) as [|r rs] eqn:E; [constructor|].
  cbn [length Nat.ltb Nat.leb]. constructor; [|constructor].
  unfold section_shows, rules_of_type. cbn [h_type h_count h_children]. rewrite E.
  destruct (groupRulesByTool_counts (r :: rs)) as (Hsum & Hnd & Hall).
  split; [reflexivity|]. split; [reflexivity|]. split; [simpl; lia|].
  split; [now rewrite Hsum|]. split; [assumption|].
  split; [intros r'; apply groupRulesByTool_tools|].
  eapply Forall_impl; [exact Hall|].
  intros item (? & ? & ?). split_and!; assumption.
Qed.

Lemma type_section_has (rules : list PermissionRule) r :
  r ∈ rules ->
  PermissionsFs.type r ∈ h_type <$> type_section sort (PermissionsFs.type r) rules.
Proof.
  intros Hr. unfold type_section. cbv zeta.
  destruct (List.filter _ rules) as [|x xs] eqn:E.
  - exfalso.
    assert (Hin : In r (List.filter
                          (fun r0 => rule_type_eqb (PermissionsFs.type r0)
                                       (PermissionsFs.type r)) rules)).
    { apply filter_In. split; [now apply list_elem_of_In|].
      now destruct (PermissionsFs.type r). }
    rewrite E in Hin. destruct Hin.
  - cbn [length Nat.ltb Nat.leb]. apply list_elem_of_here.
Qed.

End Sorted.

Lemma rules_of_type_elem ty (rules : list PermissionRule) r :
  r ∈ rules_of_type ty rules <-> r ∈ rules /\ PermissionsFs.type r = ty.
Proof.
  unfold rules_of_type. rewrite !list_elem_of_In, filter_In.
  split; intros [H1 H2]; (split; [assumption|]).
  - destruct (PermissionsFs.type r), ty; (reflexivity || discriminate).
  - subst ty. now destruct (PermissionsFs.type r).
Qed.

(** X21: the root of the permissions tree. [getChildren] never fails;
    without any rule it returns the placeholder, and otherwise the
    sections of the rule types that have rules, at most one for a type,
    in the order allow, ask, deny. Every discovered rule has exactly one
    item in the tree, under the section of its type and there in the
    group of its tool: a section shows the number of the rules of its
    type, which is the sum of the counts of its tool groups; it has one
    group for each tool of these rules and no two groups for the same
    tool; and a group holds the items of the rules of its tool among
    those of the section's type, in the order of discovery, and shows
    their number. All this holds however the groups are sorted. *)
Theorem permissions_tree_shows_each_rule_once
  (sort : list ToolItem -> list ToolItem) env platform w :
  (forall l, sort l ≡ₚ l) ->
  exists rules roots w',
    discoverPermissions env platform w = (Ok rules, w')
    /\ getChildren sort env platform w = (Ok roots, w')
    /\ (roots = NoPermissions <-> rules = [])
    /\ rule_items roots ≡ₚ createPermissionItem <$> rules
    /\ (forall ty r,
          r ∈ rules_of_type ty rules <-> r ∈ rules /\ PermissionsFs.type r = ty)
    /\ forall items, roots = Sections items ->
         (h_type <$> items) `sublist_of` [allow; ask; deny]
         /\ (forall r, r ∈ rules -> PermissionsFs.type r ∈ h_type <$> items)
         /\ sum_list (h_count <$> items) = length rules
         /\ Forall (section_shows rules) items
         /\ Forall (fun h =>
              0 < h_count h
              /\ h_count h = sum_list (t_count <$> h_children h)
              /\ NoDup (t_tool <$> h_children h)
              /\ Forall (fun item =>
                   t_count item = length (t_children item) /\ 0 < t_count item)
                   (h_children h)) items.
Proof.
  intros sort_permutes.
  destruct (discoverPermissions_run env platform w) as (rules & w' & cs & Hrun & _).
  unfold getChildren. rewrite bind_run, Hrun. cbv beta iota.
  destruct rules as [|r rules].
  { exists [], NoPermissions, w'. split; [reflexivity|]. split; [reflexivity|].
    split; [tauto|]. split; [reflexivity|].
    split; [intros ty r0; apply rules_of_type_elem|]. discriminate. }
  cbn [length Nat.eqb]. eexists (r :: rules), _, w'.
  split; [reflexivity|]. split; [reflexivity|].
  split; [split; discriminate|]. split; [|split; [intros ty r0; apply rules_of_type_elem|]].
  - cbn [rule_items]. rewrite !bind_app, !(type_section_spec sort sort_permutes).
    rewrite <- !fmap_app. apply fmap_Permutation, rules_by_type.
  - intros items [= <-].
    pose proof (type_section_shows sort sort_permutes allow (r :: rules)) as Ha.
    pose proof (type_section_shows sort sort_permutes ask (r :: rules)) as Hk.
    pose proof (type_section_shows sort sort_permutes deny (r :: rules)) as Hd.
    assert (Hshows : Forall (section_shows (r :: rules))
                       (type_section sort allow (r :: rules)
                        ++ type_section sort ask (r :: rules)
                        ++ type_section sort deny (r :: rules))).
    { repeat apply Forall_app_2;
        (eapply Forall_impl; [eassumption|]); now intros h [_ ?]. }
    split_and!.
    + rewrite !fmap_app.
      assert (G : forall ty, (h_type <$> type_section sort ty (r :: rules))
                             `sublist_of` [ty]).
      { intros ty. unfold type_section. cbv zeta.
        destruct (Nat.ltb _ _); [reflexivity|]. apply sublist_nil_l. }
      change [allow; ask; deny] with ([allow] ++ [ask] ++ [deny]).
      repeat apply sublist_app; apply G.
    + intros r' Hr'. rewrite !fmap_app, !elem_of_app.
      pose proof (type_section_has sort (r :: rules) r' Hr') as Hin.
      destruct (PermissionsFs.type r'); auto.
    + rewrite <- (Permutation_length (rules_by_type (r :: rules))).
      rewrite !fmap_app, !sum_list_append, !length_app.
      assert (G : forall ty,
                 sum_list (h_count <$> type_section sort ty (r :: rules))
                 = length (List.filter
                             (fun r => rule_type_eqb (PermissionsFs.type r) ty)
                             (r :: rules))).
      { intros ty. unfold type_section. cbv zeta.
        destruct (List.filter _ (r :: rules)) as [|x xs]; [reflexivity|].
        cbn [length Nat.ltb Nat.leb]. simpl. lia. }
      now rewrite !G.
    + exact Hshows.
    + eapply Forall_impl; [exact Hshows|].
      intros h (_ & Hpos & Hsum & Hnd & _ & Hgroups). split_and!; try assumption.
      eapply Forall_impl; [exact Hgroups|]. intros item (_ & ? & ?). auto.
Qed.

End PermissionsTreeFacts.

Module MoreInstances.
Import Js Fs Hooks Shapes Examples MoreExamples HookShapes.
Import PermissionShapes ListingShapes HooksTree TreeShapes PermissionsTree.

(** X1 at a settings file with one hook, which is replaced. *)
Lemma updateHook_replaces_addressed_witness :
  exists d d',
    files (world_with one_hook_doc) !! settings_path = Some (File (Json d))
    /\ files after_update = <[settings_path := File (Json d')]>
                              (files (world_with one_hook_doc))
    /\ addressed d' PreToolUse 0 0 = Some (hook_json check_hook)
    /\ forall ev' mi' hi',
         (ev', mi', hi') <> (PreToolUse, 0, 0) ->
         addressed d' ev' mi' hi' = addressed d ev' mi' hi'.
Proof.
  apply (UpdateFacts.updateHook_replaces_addressed settings_path PreToolUse 0 0
           check_hook (world_with one_hook_doc) after_update).
  vm_compute. reflexivity.
Defined.

(** X2 at a settings file with a model and one hook: a second hook is
    added under the same matcher and deleted again. *)
Lemma add_then_delete_restores_witness :
  exists d1 i j w2,
    files (after_add_to one_hook_doc) !! settings_path = Some (File (Json d1))
    /\ addressed d1 PreToolUse i j = Some (hook_json check_hook)
    /\ HooksFs.deleteHook settings_path PreToolUse i j (after_add_to one_hook_doc)
       = (Ok true, w2)
    /\ files w2 !! settings_path = Some (File (Json one_hook_doc)).
Proof.
  apply (HooksFileFacts.add_then_delete_restores env HooksFs.global PreToolUse
           "Bash" check_hook (world_with one_hook_doc) (after_add_to one_hook_doc)
           settings_path one_hook_doc).
  - reflexivity.
  - reflexivity.
  - vm_compute. reflexivity.
  - reflexivity.
  - reflexivity.
  - vm_compute. reflexivity.
Defined.

(** X3 at the same file: the hook that was there keeps its address. *)
Lemma addHook_keeps_addresses_witness :
  exists d', files (after_add_to one_hook_doc) !! settings_path
             = Some (File (Json d'))
    /\ forall ev' mi hi x,
         addressed (settings_before (files (world_with one_hook_doc)) settings_path)
           ev' mi hi = Some x ->
         addressed d' ev' mi hi = Some x.
Proof.
  apply (HooksFileFacts.addHook_keeps_addresses env HooksFs.global PreToolUse
           "Bash" check_hook (world_with one_hook_doc) (after_add_to one_hook_doc)
           settings_path).
  - reflexivity.
  - apply not_elem_of_nil.
  - vm_compute. reflexivity.
Defined.

(** X5 at the same file. *)
Lemma added_hook_is_discovered_witness :
  exists cs w2 cfg m l,
    HooksFs.discoverHooks env (after_add_to one_hook_doc) = (Ok cs, w2)
    /\ cfg ∈ cs
    /\ configPath cfg = settings_path
    /\ eventType cfg = "PreToolUse"
    /\ m ∈ matchers cfg
    /\ matcher m = Some (JStr "Bash")
    /\ hooks m = l ++ [hook_json check_hook].
Proof.
  apply (HooksRoundTrip.added_hook_is_discovered env HooksFs.global PreToolUse
           "Bash" check_hook (world_with one_hook_doc) (after_add_to one_hook_doc)
           settings_path).
  - reflexivity.
  - reflexivity.
  - reflexivity.
  - vm_compute. repeat constructor; discriminate.
  - vm_compute. reflexivity.
Defined.

(** X6 at a file where [Stop] holds a string: the hooks of
    [PreToolUse] are returned. *)
Lemma parseHooks_skips_malformed_entries_witness :
  exists w',
    HooksFs.parseHooks settings_path "Global (~/.claude)" (world_with mixed_doc)
    = (Ok (omap (event_config "Global (~/.claude)" settings_path)
             [("Stop", JStr "oops"); ("PreToolUse", JArr [bash_entry])]), w')
    /\ files w' = files (world_with mixed_doc).
Proof.
  apply (HooksRoundTrip.parseHooks_skips_malformed_entries settings_path
           "Global (~/.claude)" (world_with mixed_doc)
           [("hooks", JObj [("Stop", JStr "oops");
                            ("PreToolUse", JArr [bash_entry])])]).
  - vm_compute. reflexivity.
  - discriminate.
  - apply not_elem_of_nil.
  - reflexivity.
  - repeat constructor; discriminate.
Defined.

(** X7 at a file that allows two rules and denies one. *)
Lemma parsePermissions_lists_or_nothing_witness :
  exists w',
    PermissionsFs.parsePermissions settings_path "User (~/.claude)"
      (world_with permissions_doc)
    = (Ok [rule PermissionsFs.allow "User (~/.claude)" settings_path
             "Bash(npm run test:*)";
           rule PermissionsFs.allow "User (~/.claude)" settings_path "Read";
           rule PermissionsFs.deny "User (~/.claude)" settings_path "WebFetch"],
       w')
    /\ files w' = files (world_with permissions_doc).
Proof.
  apply (PermissionsFsFacts.parsePermissions_lists_or_nothing settings_path
           "User (~/.claude)" (world_with permissions_doc)
           [("permissions",
             JObj [("allow", JArr [JStr "Bash(npm run test:*)"; JStr "Read"]);
                   ("deny", JArr [JStr "WebFetch"])])]
           [("allow", JArr [JStr "Bash(npm run test:*)"; JStr "Read"]);
            ("deny", JArr [JStr "WebFetch"])]).
  - vm_compute. reflexivity.
  - apply not_elem_of_nil.
  - reflexivity.
Defined.


(** X15 at the same command, renamed to [release]. *)
Lemma renameFile_keeps_extension_witness :
  files after_rename
  = <[["w"; ".claude"; "commands"; "release.md"] := File (Text "run")]>
      (delete ["w"; ".claude"; "commands"; "deploy.md"] (files project_world)).
Proof.
  destruct (FileOpsSuccess.renameFile_keeps_extension deploy_command
              (Some "release") project_world after_rename (Text "run"))
    as (newName & Hanswer & _ & Hfiles & _).
  - vm_compute. reflexivity.
  - vm_compute. reflexivity.
  - discriminate.
  - injection Hanswer as <-. exact Hfiles.
Defined.

(** X16 at the folder of a skill. *)
Lemma deleteFile_removes_directory_tree_witness :
  exists w',
    FileOps.deleteFile review_folder true (skills_world skill_file) = (Ok true, w')
    /\ calls w' = calls (skills_world skill_file)
                  ++ [Stat (FileOps.path review_folder);
                      Rm (FileOps.path review_folder)]
    /\ forall q, files w' !! q
                 = if is_under (FileOps.path review_folder) q then None
                   else files (skills_world skill_file) !! q.
Proof.
  apply (FileOpsSuccess.deleteFile_removes_directory_tree review_folder
           (skills_world skill_file)).
  - discriminate.
  - vm_compute. reflexivity.
  - apply not_elem_of_nil.
  - apply not_elem_of_nil.
Defined.

(** X17 at a global root without a [commands] directory. *)
Lemma createFile_writes_content_witness :
  exists t1,
    only_dirs_added (files home_world) t1
    /\ files after_create
       = <[["home"; ".claude"; "commands"; "deploy.md"] := File (Text "run")]> t1.
Proof.
  destruct (FileOpsSuccess.createFile_writes_content env FileOps.command
              FileOps.global ["deploy.md"] (Text "run") None false home_world
              after_create ["home"; ".claude"; "commands"; "deploy.md"])
    as (basePath & t1 & _ & _ & Hdirs & Hfiles & _).
  - vm_compute. reflexivity.
  - exists t1. split; assumption.
Defined.

(** X18 at the same root. *)
Lemma createFolder_makes_directory_witness :
  node_at (files after_folder) ["home"; ".claude"; "commands"; "tools"] = Some Dir
  /\ only_dirs_added (files home_world) (files after_folder).
Proof.
  destruct (FileOpsSuccess.createFolder_makes_directory env FileOps.command
              FileOps.global (Some "tools") home_world after_folder
              ["home"; ".claude"; "commands"; "tools"])
    as (basePath & folderName & _ & _ & _ & _ & Hdir & Hdirs & _).
  - vm_compute. reflexivity.
  - split; assumption.
Defined.

(** X20 at a settings file with two matcher entries under
    [PreToolUse]: the item of the hook of the second entry carries the
    matcher index 0. *)
Lemma hook_items_carry_matcher_index_zero_witness :
  {| d_configPath := settings_path; d_eventType := "PreToolUse";
     d_matcherIndex := 0; d_hookIndex := 0; d_hook := hook_json check_hook |}
  ∈ root_items two_matchers_roots.
Proof.
  destruct (HookIndexFacts.hook_items_carry_matcher_index_zero (fun _ => false)
              env (world_with two_matchers_doc) two_matchers_roots
              after_discovery)
    as (cs & Hcs & _ & _ & Hitem).
  - intros p d Hfile. apply elem_of_list_to_map_2 in Hfile.
    repeat (apply elem_of_cons in Hfile as [Hfile|Hfile]; [try discriminate|]).
    + injection Hfile as _ ->. simpl. apply NoDup_singleton.
    + now apply elem_of_nil in Hfile.
  - vm_compute. reflexivity.
  - vm_compute in Hcs. injection Hcs as <-.
    apply (Hitem {| eventType := "PreToolUse";
                    matchers := [{| matcher := Some (JStr "Bash");
                                    hooks := [hook_json echo_hook] |};
                                 {| matcher := Some (JStr "Edit");
                                    hooks := [hook_json check_hook] |}];
                    location := "Global (~/.claude)";
                    configPath := settings_path |}
                 {| matcher := Some (JStr "Edit");
                    hooks := [hook_json check_hook] |} 0 (hook_json check_hook)).
    + apply list_elem_of_here.
    + apply list_elem_of_further, list_elem_of_here.
    + reflexivity.
Defined.

(** A [null] hook passes [parseHooks] and makes [getChildren] of the
    hooks view throw: [createHookItem] reads its [type]. *)
Example null_hook_rejects :
  exists cs w',
    HooksFs.discoverHooks env (world_with null_hook_doc) = (Ok cs, w')
    /\ (hooks <$> (cs ≫= matchers)) = [[JNull]]
    /\ HooksTree.getChildren (fun _ => false) env (world_with null_hook_doc)
       = (Throw TypeError, w').
Proof.
  eexists _, _. split; [vm_compute; reflexivity|].
  split; [reflexivity|vm_compute; reflexivity].
Qed.

(** X21 at a file that allows two rules and denies one, the groups
    being left in the order of the rules. *)
Lemma permissions_tree_shows_each_rule_once_witness :
  exists rules roots w',
    PermissionsFs.discoverPermissions env PermissionsFs.linux
      (world_with permissions_doc) = (Ok rules, w')
    /\ getChildren (fun l => l) env PermissionsFs.linux (world_with permissions_doc)
       = (Ok roots, w')
    /\ rule_items roots ≡ₚ createPermissionItem <$> rules
    /\ forall items, roots = Sections items ->
         Forall (PermissionTreeShapes.section_shows rules) items.
Proof.
  destruct (PermissionsTreeFacts.permissions_tree_shows_each_rule_once
              (fun l => l) env PermissionsFs.linux (world_with permissions_doc))
    as (rules & roots & w' & Hrun & Hroots & _ & Hitems & _ & Hsections).
  - reflexivity.
  - exists rules, roots, w'. split_and!; try assumption.
    intros items Hitems'. now destruct (Hsections items Hitems') as (_ & _ & _ & ? & _).
Defined.

End MoreInstances.
